(** * i18n-check: the next-intl source parser

    A shallow embedding of [src/utils/nextIntlSrcParser.ts] and the proofs of
    its specified properties.

    The parser walks TypeScript syntax trees twice.  Pass 1
    ([collectFunctionsWithTParam]) fills a registry of helper functions that
    take a translator as first parameter.  Pass 2 ([getKeys]) walks every
    file with a stack of namespace frames and a growing list of found keys.
    [extract] runs both passes and sorts the result. *)

From Stdlib Require Import String Ascii Bool Arith ZArith Lia List.
From Stdlib Require Import Sorting.Sorted Sorting.Permutation.
Import ListNotations.

Set Warnings "-register-all".
Local Open Scope string_scope.
Local Open Scope list_scope.

(** ** JavaScript values used by the parser *)

(** Outcome of code that may throw.  The parser itself never throws on
    purpose; [readFileSync] does for an unreadable path, and the TypeScript
    kind predicates do when handed [undefined].  Both walks recurse through
    [ts.forEachChild] as deep as the tree is: the [RangeError] of a call
    stack that a tree of extreme depth exhausts is not among the outcomes,
    the trees are taken to fit the stack. *)
Inductive Exception : Type :=
  | ENOENT (path : string)
  | TypeError.

Inductive Result (A : Type) : Type :=
  | Ok (value : A)
  | Throw (e : Exception).

Arguments Ok {A} value.
Arguments Throw {A} e.

Definition bind {A B : Type} (m : Result A) (k : A -> Result B) : Result B :=
  match m with
  | Ok a => k a
  | Throw e => Throw e
  end.

Declare Scope result_scope.
Delimit Scope result_scope with result.
Notation "x <- m ;; k" := (bind m (fun x => k))
  (at level 61, m at next level, right associativity) : result_scope.
Local Open Scope result_scope.

(** Truthiness of a string: [s ? a : b] takes [a] unless [s] is empty. *)
Definition truthy (s : string) : bool := negb (s =? "").

(** The template literal [`${namespace}.${key}`] guarded by the truthiness of
    the namespace, as every emission site of the parser writes it. *)
Definition qualify (namespace key : string) : string :=
  if truthy namespace then (namespace ++ "." ++ key)%string else key.

(** [a > b] on strings: lexicographic comparison of code units.  A string
    is its sequence of code units, here of eight bits. *)
Definition gtb (a b : string) : bool := String.ltb b a.

(** [const [argument] = list]: the first element, or [undefined]. *)
Definition first {A : Type} (l : list A) : option A := hd_error l.

(** [Array.prototype.findIndex], with [None] for [-1]. *)
Fixpoint findIndex {A : Type} (p : A -> bool) (l : list A) : option nat :=
  match l with
  | [] => None
  | x :: l' => if p x then Some 0 else option_map S (findIndex p l')
  end.

(** ** Syntax trees

    The part of the TypeScript tree the parser can tell apart.  Every node
    carries the text of its leading comments, what
    [ts.getLeadingCommentRanges(fullText, node.getFullStart())] cut out of the
    file.  The child fields are listed in [ts.forEachChild] order.  Of the
    kinds modelled apart, keyword modifiers, punctuation tokens, type
    arguments, type parameters and return types are not represented: no
    predicate of the parser holds of them, and all Pass 2 reads of them is
    their leading comments, so a tree stands for source text in which no
    comment with a static key leads such a token.  All kinds the parser
    has no predicate for are [OtherNode], which remembers whether
    [ts.isFunctionLike] holds. *)
Inductive Node : Type :=
  | Identifier (comments : list string) (text : string)
  | StringLiteral (comments : list string) (text : string)
  | TemplateExpression (comments : list string) (parts : list Node)
  | CallExpression (comments : list string) (expression : Node)
      (arguments : list Node)
  | PropertyAccessExpression (comments : list string) (expression : Node)
      (name : Node)
  | AwaitExpression (comments : list string) (expression : Node)
  | ArrayLiteralExpression (comments : list string) (elements : list Node)
  | ObjectLiteralExpression (comments : list string) (properties : list Node)
  | PropertyAssignment (comments : list string) (name : Node)
      (initializer : Node)
  | ArrayBindingPattern (comments : list string) (elements : list Node)
  | BindingElement (comments : list string) (name : Node)
      (initializer : option Node)
  | VariableDeclaration (comments : list string) (name : Node)
      (type : option Node) (initializer : option Node)
  | ParameterDeclaration (comments : list string) (name : Node)
      (type : option Node) (initializer : option Node)
  | ArrowFunction (comments : list string) (parameters : list Node)
      (body : Node)
  | FunctionTypeNode (comments : list string) (members : list Node)
  | TypeReferenceNode (comments : list string) (members : list Node)
  | ExpressionStatement (comments : list string) (expression : Node)
  | OtherNode (comments : list string) (functionLike : bool)
      (members : list Node).

(** The children of a [SourceFile]: its statements, then the end-of-file
    token. *)
Definition SourceFile : Type := list Node.

(** [fs.readFileSync] followed by [ts.createSourceFile]: the tree of the file
    at a path, or nothing when the path cannot be read.  The TypeScript
    parser recovers from every syntax error, so parsing adds no failure. *)
Definition FileSystem : Type := string -> option SourceFile.

Definition optional (o : option Node) : list Node :=
  match o with
  | Some n => [n]
  | None => []
  end.

(** The children [ts.forEachChild] enumerates, in its order. *)
Definition childrenOf (node : Node) : list Node :=
  match node with
  | Identifier _ _ => []
  | StringLiteral _ _ => []
  | TemplateExpression _ parts => parts
  | CallExpression _ expression arguments => expression :: arguments
  | PropertyAccessExpression _ expression name => [expression; name]
  | AwaitExpression _ expression => [expression]
  | ArrayLiteralExpression _ elements => elements
  | ObjectLiteralExpression _ properties => properties
  | PropertyAssignment _ name initializer => [name; initializer]
  | ArrayBindingPattern _ elements => elements
  | BindingElement _ name initializer => name :: optional initializer
  | VariableDeclaration _ name type initializer =>
      name :: optional type ++ optional initializer
  | ParameterDeclaration _ name type initializer =>
      name :: optional type ++ optional initializer
  | ArrowFunction _ parameters body => parameters ++ [body]
  | FunctionTypeNode _ members => members
  | TypeReferenceNode _ members => members
  | ExpressionStatement _ expression => [expression]
  | OtherNode _ _ members => members
  end.

Definition leadingComments (node : Node) : list string :=
  match node with
  | Identifier c _ | StringLiteral c _ | TemplateExpression c _
  | CallExpression c _ _ | PropertyAccessExpression c _ _
  | AwaitExpression c _ | ArrayLiteralExpression c _
  | ObjectLiteralExpression c _ | PropertyAssignment c _ _
  | ArrayBindingPattern c _ | BindingElement c _ _
  | VariableDeclaration c _ _ _ | ParameterDeclaration c _ _ _
  | ArrowFunction c _ _
  | FunctionTypeNode c _ | TypeReferenceNode c _ | ExpressionStatement c _
  | OtherNode c _ _ => c
  end.

(** [ts.isFunctionLike]: of the kinds modelled apart, arrow functions and
    function types. *)
Definition isFunctionLike (node : Node) : bool :=
  match node with
  | ArrowFunction _ _ _ => true
  | FunctionTypeNode _ _ => true
  | OtherNode _ functionLike _ => functionLike
  | _ => false
  end.

Definition isStringLiteral (node : Node) : bool :=
  match node with
  | StringLiteral _ _ => true
  | _ => false
  end.

Definition isObjectLiteralExpression (node : Node) : bool :=
  match node with
  | ObjectLiteralExpression _ _ => true
  | _ => false
  end.

Definition isArrayLiteralExpression (node : Node) : bool :=
  match node with
  | ArrayLiteralExpression _ _ => true
  | _ => false
  end.

Definition isFunctionTypeNode (node : Node) : bool :=
  match node with
  | FunctionTypeNode _ _ => true
  | _ => false
  end.

Definition isTypeReferenceNode (node : Node) : bool :=
  match node with
  | TypeReferenceNode _ _ => true
  | _ => false
  end.

(** *** Walking the children

    [ts.forEachChild(node, cb)] for a callback that threads a state, in the
    two flavours the parser needs: a callback that cannot throw, and one that
    can. *)
Section ForEachChild.
Context {S : Type}.

Section Pure.
Variable cb : Node -> S -> S.

Fixpoint eachNode (nodes : list Node) (s : S) : S :=
  match nodes with
  | [] => s
  | n :: rest => eachNode rest (cb n s)
  end.

Definition eachOptional (o : option Node) (s : S) : S :=
  match o with
  | Some n => cb n s
  | None => s
  end.

Definition forEachChild (node : Node) (s : S) : S :=
  match node with
  | Identifier _ _ => s
  | StringLiteral _ _ => s
  | TemplateExpression _ parts => eachNode parts s
  | CallExpression _ expression arguments =>
      eachNode arguments (cb expression s)
  | PropertyAccessExpression _ expression name =>
      cb name (cb expression s)
  | AwaitExpression _ expression => cb expression s
  | ArrayLiteralExpression _ elements => eachNode elements s
  | ObjectLiteralExpression _ properties => eachNode properties s
  | PropertyAssignment _ name initializer =>
      cb initializer (cb name s)
  | ArrayBindingPattern _ elements => eachNode elements s
  | BindingElement _ name initializer =>
      eachOptional initializer (cb name s)
  | VariableDeclaration _ name type initializer =>
      eachOptional initializer (eachOptional type (cb name s))
  | ParameterDeclaration _ name type initializer =>
      eachOptional initializer (eachOptional type (cb name s))
  | ArrowFunction _ parameters body =>
      cb body (eachNode parameters s)
  | FunctionTypeNode _ members => eachNode members s
  | TypeReferenceNode _ members => eachNode members s
  | ExpressionStatement _ expression => cb expression s
  | OtherNode _ _ members => eachNode members s
  end.
End Pure.

Section Throwing.
Variable cb : Node -> S -> Result S.

Fixpoint eachNodeM (nodes : list Node) (s : S) : Result S :=
  match nodes with
  | [] => Ok s
  | n :: rest => s' <- cb n s ;; eachNodeM rest s'
  end.

Definition eachOptionalM (o : option Node) (s : S) : Result S :=
  match o with
  | Some n => cb n s
  | None => Ok s
  end.

Definition forEachChildM (node : Node) (s : S) : Result S :=
  match node with
  | Identifier _ _ => Ok s
  | StringLiteral _ _ => Ok s
  | TemplateExpression _ parts => eachNodeM parts s
  | CallExpression _ expression arguments =>
      s1 <- cb expression s ;; eachNodeM arguments s1
  | PropertyAccessExpression _ expression name =>
      s1 <- cb expression s ;; cb name s1
  | AwaitExpression _ expression => cb expression s
  | ArrayLiteralExpression _ elements => eachNodeM elements s
  | ObjectLiteralExpression _ properties => eachNodeM properties s
  | PropertyAssignment _ name initializer =>
      s1 <- cb name s ;; cb initializer s1
  | ArrayBindingPattern _ elements => eachNodeM elements s
  | BindingElement _ name initializer =>
      s1 <- cb name s ;; eachOptionalM initializer s1
  | VariableDeclaration _ name type initializer =>
      s1 <- cb name s ;;
      s2 <- eachOptionalM type s1 ;;
      eachOptionalM initializer s2
  | ParameterDeclaration _ name type initializer =>
      s1 <- cb name s ;;
      s2 <- eachOptionalM type s1 ;;
      eachOptionalM initializer s2
  | ArrowFunction _ parameters body =>
      s1 <- eachNodeM parameters s ;; cb body s1
  | FunctionTypeNode _ members => eachNodeM members s
  | TypeReferenceNode _ members => eachNodeM members s
  | ExpressionStatement _ expression => cb expression s
  | OtherNode _ _ members => eachNodeM members s
  end.
End Throwing.
End ForEachChild.

(** ** The static-key comment pattern

    [COMMENT_CONTAINS_STATIC_KEY_REGEX] is [/t\((Q)(.*?[^\\])(Q)\)/], where
    [Q] stands for the class of the double and the single quote character.
    It is matched by hand here.  After [t(] and a quote, the lazy [.*?]
    takes as few characters as possible, none of them a line terminator;
    then come one character that is not a backslash, a quote and a closing
    parenthesis. *)
Definition doubleQuote : ascii := ascii_of_nat 34.
Definition singleQuote : ascii := ascii_of_nat 39.
Definition backslash : ascii := ascii_of_nat 92.

Definition isQuote (c : ascii) : bool :=
  Ascii.eqb c doubleQuote || Ascii.eqb c singleQuote.

Definition isLineTerminator (c : ascii) : bool :=
  Ascii.eqb c (ascii_of_nat 10) || Ascii.eqb c (ascii_of_nat 13).

(** The closing quote and parenthesis right after the captured group. *)
Definition closesKey (s : string) : bool :=
  match s with
  | String q (String p _) => isQuote q && Ascii.eqb p ")"
  | _ => false
  end.

(** Capture group 2, [(.*?[^\\])], from the text after the opening quote. *)
Fixpoint lazyGroup (s : string) : option string :=
  match s with
  | EmptyString => None
  | String c rest =>
      if negb (Ascii.eqb c backslash) && closesKey rest then
        Some (String c EmptyString)
      else if isLineTerminator c then None
      else option_map (String c) (lazyGroup rest)
  end.

Definition matchAtStart (s : string) : option string :=
  match s with
  | String "t" (String "(" (String q rest)) =>
      if isQuote q then lazyGroup rest else None
  | _ => None
  end.

(** [COMMENT_CONTAINS_STATIC_KEY_REGEX.exec(comment)?.[2]]: group 2 of the
    leftmost match.  [.test(comment)] holds exactly when this is defined. *)
Fixpoint COMMENT_CONTAINS_STATIC_KEY_REGEX (comment : string) : option string :=
  match matchAtStart comment with
  | Some group => Some group
  | None =>
      match comment with
      | EmptyString => None
      | String _ rest => COMMENT_CONTAINS_STATIC_KEY_REGEX rest
      end
  end.

(** ** Pass 1: helper functions that take a translator *)

Definition USE_TRANSLATIONS : string := "useTranslations".
Definition GET_TRANSLATIONS : string := "getTranslations".

Record FunctionWithTParam : Type := {
  functionName : string;
  paramName : string;
  keysUsed : list string
}.

(** The test of the inner visitor of Pass 1: a call of the parameter whose
    first argument is a string literal.  The result is the text to push. *)
Definition literalUse (param : string) (bodyNode : Node) : option string :=
  match bodyNode with
  | CallExpression _ (Identifier _ callee) arguments =>
      if callee =? param then
        match first arguments with
        | Some (StringLiteral _ text) => Some text
        | _ => None
        end
      else None
  | _ => None
  end.

(** The inner visitor of Pass 1.  The state is [functionTracker.keysUsed]. *)
Fixpoint visitFunctionBody (param : string) (bodyNode : Node)
    (keys : list string) : list string :=
  let keys :=
    match literalUse param bodyNode with
    | Some text => keys ++ [text]
    | None => keys
    end in
  forEachChild (visitFunctionBody param) bodyNode keys.

(** The tracker Pass 1 registers at a node, if any: the node declares a
    variable initialised with an arrow function whose first parameter is an
    identifier annotated with a function type or a type reference, and the
    walk over the children of the body found a key. *)
Definition trackedFunctionOf (node : Node) : option FunctionWithTParam :=
  match node with
  | VariableDeclaration _ name _
      (Some (ArrowFunction _ (firstParam :: _) body)) =>
      match firstParam with
      | ParameterDeclaration _ (Identifier _ param) (Some type) _ =>
          if isFunctionTypeNode type || isTypeReferenceNode type then
            match name with
            | Identifier _ fname =>
                if truthy fname then
                  let keys :=
                    forEachChild (visitFunctionBody param) body [] in
                  if (0 <? length keys)%nat then
                    Some {| functionName := fname;
                            paramName := param;
                            keysUsed := keys |}
                  else None
                else None
            | _ => None
            end
          else None
      | _ => None
      end
  | _ => None
  end.

(** What the visitor of Pass 1 does at one node, before it goes on to the
    children.  The state is [globalFunctionsWithTParam]. *)
Definition trackFunction (node : Node)
    (registry : list FunctionWithTParam) : list FunctionWithTParam :=
  match trackedFunctionOf node with
  | Some functionTracker => registry ++ [functionTracker]
  | None => registry
  end.

Module Collect.
(** [visit] of [collectFunctionsWithTParam]. *)
Fixpoint visit (node : Node) (registry : list FunctionWithTParam)
    : list FunctionWithTParam :=
  forEachChild visit node (trackFunction node registry).
End Collect.

Definition readSource (fs : FileSystem) (path : string) : Result SourceFile :=
  match fs path with
  | Some sourceFile => Ok sourceFile
  | None => Throw (ENOENT path)
  end.

Definition collectFunctionsWithTParam (fs : FileSystem) (path : string)
    (registry : list FunctionWithTParam) : Result (list FunctionWithTParam) :=
  sourceFile <- readSource fs path ;;
  Ok (eachNode Collect.visit sourceFile registry).

(** ** Pass 2: the namespace stack and the found keys *)

(** [type Namespace = { name; variable; dynamic? }]: one frame of the stack.
    An absent [dynamic] is [false]. *)
Module Namespace.
Record t : Type := {
  name : string;
  variable : string;
  dynamic : bool
}.
End Namespace.

(** The [meta] object of a found key.  [namespace] is absent where the code
    writes [undefined]; an absent [dynamic] is [false]. *)
Module Meta.
Record t : Type := {
  file : string;
  namespace : option string;
  dynamic : bool
}.
End Meta.

Record FoundKey : Type := {
  key : string;
  meta : Meta.t
}.

(** The two variables [getKeys] closes over. *)
Record State : Type := {
  namespaces : list Namespace.t;
  foundKeys : list FoundKey
}.

(** A frame as the acquisition sites build it: [{ name, variable }]. *)
Definition frame (name variable : string) : Namespace.t :=
  {| Namespace.name := name;
     Namespace.variable := variable;
     Namespace.dynamic := false |}.

(** [{ ...namespace, dynamic: true }] *)
Definition asDynamic (namespace : Namespace.t) : Namespace.t :=
  {| Namespace.name := Namespace.name namespace;
     Namespace.variable := Namespace.variable namespace;
     Namespace.dynamic := true |}.

Definition getCurrentNamespaces (range : nat) (st : State)
    : option (list Namespace.t) :=
  if (0 <? length (namespaces st))%nat then
    Some (skipn (length (namespaces st) - range) (namespaces st))
  else None.

Definition getCurrentNamespaceForIdentifier (name : string) (st : State)
    : option Namespace.t :=
  find (fun namespace => Namespace.variable namespace =? name)
       (rev (namespaces st)).

Definition pushNamespace (namespace : Namespace.t) (st : State) : State :=
  {| namespaces := namespaces st ++ [namespace];
     foundKeys := foundKeys st |}.

(** The arrow function [setNamespaceAsDynamic] maps over the stack. *)
Definition markDynamic (name : string) (namespace : Namespace.t)
    : Namespace.t :=
  if Namespace.name namespace =? name then asDynamic namespace else namespace.

Definition setNamespaceAsDynamic (name : string) (st : State) : State :=
  {| namespaces := map (markDynamic name) (namespaces st);
     foundKeys := foundKeys st |}.

Definition removeNamespaces (range : nat) (st : State) : State :=
  if (0 <? length (namespaces st))%nat then
    {| namespaces := firstn (length (namespaces st) - range) (namespaces st);
       foundKeys := foundKeys st |}
  else st.

(** [foundKeys.push(k)] *)
Definition pushKey (k : FoundKey) (st : State) : State :=
  {| namespaces := namespaces st;
     foundKeys := foundKeys st ++ [k] |}.

(** The name the translator is bound to:
    [ts.isIdentifier(node.name) ? node.name.text : 't']. *)
Definition boundVariable (name : Node) : string :=
  match name with
  | Identifier _ text => text
  | _ => "t"
  end.

(** The test both object-literal loops apply to a property: a property
    assignment named [namespace] whose initializer is a string literal. *)
Definition namespaceProperty (property : Node) : option string :=
  match property with
  | PropertyAssignment _ (Identifier _ pname) (StringLiteral _ text) =>
      if pname =? "namespace" then Some text else None
  | _ => None
  end.

(** [var = useTranslations(...)] *)
Definition acquireUseTranslations (name initializer : Node) (st : State)
    : State :=
  match initializer with
  | CallExpression _ (Identifier _ callee) arguments =>
      if callee =? USE_TRANSLATIONS then
        let variable := boundVariable name in
        match first arguments with
        | Some (StringLiteral _ text) => pushNamespace (frame text variable) st
        | Some _ => st
        | None => pushNamespace (frame "" variable) st
        end
      else st
  | _ => st
  end.

(** [var = await getTranslations(...)]; [awaited] is the operand of the
    [await]. *)
Definition acquireGetTranslations (name awaited : Node) (st : State)
    : State :=
  match awaited with
  | CallExpression _ (Identifier _ callee) arguments =>
      if callee =? GET_TRANSLATIONS then
        let variable := boundVariable name in
        match first arguments with
        | Some (ObjectLiteralExpression _ properties) =>
            fold_left
              (fun st property =>
                 match namespaceProperty property with
                 | Some text => pushNamespace (frame text variable) st
                 | None => pushNamespace (frame "" variable) st
                 end)
              properties st
        | Some (StringLiteral _ text) => pushNamespace (frame text variable) st
        | Some _ => st
        | None => pushNamespace (frame "" variable) st
        end
      else st
  | _ => st
  end.

Definition isGetTranslationsCall (argument : Node) : bool :=
  match argument with
  | CallExpression _ (Identifier _ callee) _ => callee =? GET_TRANSLATIONS
  | _ => false
  end.

(** [[.., var, ..] = await f([.., getTranslations(...), ..])].  Indexing the
    binding pattern past its end yields [undefined], on which
    [ts.isBindingElement] throws. *)
Definition acquireFromArray (name awaited : Node) (st : State)
    : Result State :=
  match awaited with
  | CallExpression _ _ (ArrayLiteralExpression _ elements :: _) =>
      match findIndex isGetTranslationsCall elements with
      | None => Ok st
      | Some functionNameIndex =>
          match name with
          | ArrayBindingPattern _ bindings =>
              match nth_error bindings functionNameIndex with
              | None => Throw TypeError
              | Some (BindingElement _ (Identifier _ variable) _) =>
                  let argument :=
                    match nth_error elements functionNameIndex with
                    | Some (CallExpression _ _ arguments) => first arguments
                    | _ => None
                    end in
                  match argument with
                  | Some (ObjectLiteralExpression _ properties) =>
                      Ok (fold_left
                            (fun st property =>
                               match namespaceProperty property with
                               | Some text =>
                                   pushNamespace (frame text variable) st
                               | None => st
                               end)
                            properties st)
                  | Some (StringLiteral _ text) =>
                      Ok (pushNamespace (frame text variable) st)
                  | Some _ => Ok st
                  | None => Ok (pushNamespace (frame "" variable) st)
                  end
              | Some _ => Ok st
              end
          | _ => Ok st
          end
      end
  | _ => Ok st
  end.

(** The whole [ts.isVariableDeclaration(node)] block of [visit]. *)
Definition declareNamespaces (node : Node) (st : State) : Result State :=
  match node with
  | VariableDeclaration _ name _ (Some initializer) =>
      let st := acquireUseTranslations name initializer st in
      match initializer with
      | AwaitExpression _ awaited =>
          let st := acquireGetTranslations name awaited st in
          acquireFromArray name awaited st
      | _ => Ok st
      end
  | _ => Ok st
  end.

(** [foundKeys = []] and [namespaces = []] at the start of [getKeys]. *)
Definition initialState : State := {| namespaces := []; foundKeys := [] |}.

Section GetKeys.
(** The registry as Pass 1 left it, and the path of the file walked. *)
Variable globalFunctionsWithTParam : list FunctionWithTParam.
Variable path : string.

Definition plainKey (namespace keyName : string) : FoundKey :=
  {| key := qualify namespace keyName;
     meta := {| Meta.file := path;
                Meta.namespace := Some namespace;
                Meta.dynamic := false |} |}.

(** [trackedFunction.keysUsed.forEach(...)]: one key per recorded use. *)
Definition pushKeysUsed (namespace : string)
    (trackedFunction : FunctionWithTParam) (st : State) : State :=
  fold_left (fun st keyName => pushKey (plainKey namespace keyName) st)
            (keysUsed trackedFunction) st.

(** Calls of a registered helper: [mySchema(useTranslations('ns'))] and
    [mySchema(t)]. *)
Definition callTrackedFunction (node : Node) (st : State) : State :=
  match node with
  | CallExpression _ (Identifier _ calledFunctionName) arguments =>
      match find (fun f => functionName f =? calledFunctionName)
                 globalFunctionsWithTParam with
      | Some trackedFunction =>
          match arguments with
          | argument :: _ =>
              let st :=
                match argument with
                | CallExpression _ (Identifier _ callee) inner =>
                    if callee =? USE_TRANSLATIONS then
                      match first inner with
                      | Some (StringLiteral _ namespace) =>
                          pushKeysUsed namespace trackedFunction st
                      | _ => st
                      end
                    else st
                | _ => st
                end in
              match argument with
              | Identifier _ variableName =>
                  match getCurrentNamespaceForIdentifier variableName st with
                  | Some namespace =>
                      pushKeysUsed (Namespace.name namespace)
                                   trackedFunction st
                  | None => st
                  end
              | _ => st
              end
          | [] => st
          end
      | None => st
      end
  | _ => st
  end.

(** Inline calls in an expression statement:
    [useTranslations('ns')('one')] and [useTranslations('ns').rich('one')]. *)
Definition inlineCall (node : Node) (st : State) : State :=
  match node with
  | ExpressionStatement _ (CallExpression _ callee callArguments) =>
      let inlineNamespace : option string := None in
      let inlineNamespace :=
        match callee with
        | CallExpression _ (Identifier _ fn) arguments =>
            if fn =? USE_TRANSLATIONS then
              match first arguments with
              | Some (StringLiteral _ text) => Some text
              | _ => inlineNamespace
              end
            else inlineNamespace
        | _ => inlineNamespace
        end in
      match callee with
      | PropertyAccessExpression _
          (CallExpression _ (Identifier _ fn) arguments) _ =>
          if fn =? USE_TRANSLATIONS then
            let inlineNamespace :=
              match first arguments with
              | Some (StringLiteral _ text) => Some text
              | _ => inlineNamespace
              end in
            match first callArguments with
            | Some (StringLiteral _ keyText) =>
                if truthy keyText then
                  pushKey
                    {| key := match inlineNamespace with
                              | Some namespace => qualify namespace keyText
                              | None => keyText
                              end;
                       meta := {| Meta.file := path;
                                  Meta.namespace := inlineNamespace;
                                  Meta.dynamic := false |} |}
                    st
                else st
            | _ => st
            end
          else st
      | _ => st
      end
  | _ => st
  end.

(** The body shared, word for word, by the [t()] block and the [t.*()]
    block.  [key] is the local variable [{ name, identifier }] of [visit],
    kept as a pair. *)
Definition useTranslator (expressionName : string) (arguments : list Node)
    (key : option (string * string)) (st : State)
    : option (string * string) * State :=
  match getCurrentNamespaceForIdentifier expressionName st with
  | Some namespace =>
      match first arguments with
      | Some (StringLiteral _ text) => (Some (text, expressionName), st)
      | Some (Identifier _ _) =>
          (key, setNamespaceAsDynamic (Namespace.name namespace) st)
      | Some (TemplateExpression _ _) =>
          (key, setNamespaceAsDynamic (Namespace.name namespace) st)
      | _ => (key, st)
      end
  | None => (key, st)
  end.

(** [t(...)] *)
Definition translatorCall (node : Node) (key : option (string * string))
    (st : State) : option (string * string) * State :=
  match getCurrentNamespaces 1 st, node with
  | Some _, CallExpression _ (Identifier _ expressionName) arguments =>
      useTranslator expressionName arguments key st
  | _, _ => (key, st)
  end.

(** [t.rich(...)], [t.html(...)] and the like *)
Definition translatorMethodCall (node : Node)
    (key : option (string * string)) (st : State)
    : option (string * string) * State :=
  match getCurrentNamespaces 1 st, node with
  | Some _, CallExpression _
              (PropertyAccessExpression _ (Identifier _ expressionName) _)
              arguments =>
      useTranslator expressionName arguments key st
  | _, _ => (key, st)
  end.

(** [if (key) { ... }] *)
Definition emitKey (key : option (string * string)) (st : State) : State :=
  match key with
  | Some (keyName, identifier) =>
      let namespaceName :=
        match getCurrentNamespaceForIdentifier identifier st with
        | Some namespace => Namespace.name namespace
        | None => ""
        end in
      pushKey (plainKey namespaceName keyName) st
  | None => st
  end.

(** One leading comment.  [namespace[0]?.name] is [undefined] only for an
    empty slice, which [getCurrentNamespaces] never returns. *)
Definition commentKey (st : State) (comment : string) : State :=
  match COMMENT_CONTAINS_STATIC_KEY_REGEX comment with
  | Some commentText =>
      if truthy commentText then
        let namespaceName : option string :=
          match getCurrentNamespaces 1 st with
          | Some namespace => option_map Namespace.name (first namespace)
          | None => Some ""
          end in
        pushKey
          {| key := match namespaceName with
                    | Some namespace => qualify namespace commentText
                    | None => commentText
                    end;
             meta := {| Meta.file := path;
                        Meta.namespace := namespaceName;
                        Meta.dynamic := false |} |}
          st
      else st
  | None => st
  end.

Definition commentKeys (node : Node) (st : State) : State :=
  fold_left commentKey (leadingComments node) st.

Definition placeholder (namespace : Namespace.t) : FoundKey :=
  {| key := Namespace.name namespace;
     meta := {| Meta.file := path;
                Meta.namespace := Some (Namespace.name namespace);
                Meta.dynamic := true |} |}.

(** Everything [visit] does at a node before it walks the children. *)
Definition enter (node : Node) (st : State) : Result State :=
  let key : option (string * string) := None in
  st <- declareNamespaces node st ;;
  let st := callTrackedFunction node st in
  let st := inlineCall node st in
  let '(key, st) := translatorCall node key st in
  let '(key, st) := translatorMethodCall node key st in
  let st := emitKey key st in
  Ok (commentKeys node st).

(** What [visit] does after the children: at a function-like node that
    gained frames, a placeholder for every dynamic one, then the frames
    are dropped. *)
Definition leave (node : Node) (initialNamespacesLength : nat) (st : State)
    : State :=
  if isFunctionLike node
     && (initialNamespacesLength <? length (namespaces st))%nat
  then
    let range := length (namespaces st) - initialNamespacesLength in
    let st :=
      match getCurrentNamespaces range st with
      | Some currentNamespaces =>
          fold_left
            (fun st namespace =>
               if Namespace.dynamic namespace
               then pushKey (placeholder namespace) st
               else st)
            currentNamespaces st
      | None => st
      end in
    removeNamespaces range st
  else st.

(** [visit] of [getKeys].  It is only ever called on a child that
    [ts.forEachChild] found, so its test for [undefined] never fires. *)
Fixpoint visit (node : Node) (st : State) : Result State :=
  let initialNamespacesLength := length (namespaces st) in
  st <- enter node st ;;
  st <- forEachChildM visit node st ;;
  Ok (leave node initialNamespacesLength st).

Definition getKeys (fs : FileSystem) : Result (list FoundKey) :=
  sourceFile <- readSource fs path ;;
  st <- eachNodeM visit sourceFile initialState ;;
  Ok (foundKeys st).
End GetKeys.

(** ** [extract] *)

(** [Array.prototype.forEach] and [flatMap] for a callback that may throw. *)
Fixpoint forEachM {A S : Type} (f : A -> S -> Result S) (l : list A) (s : S)
    : Result S :=
  match l with
  | [] => Ok s
  | x :: rest => s' <- f x s ;; forEachM f rest s'
  end.

Fixpoint flatMapM {A B : Type} (f : A -> Result (list B)) (l : list A)
    : Result (list B) :=
  match l with
  | [] => Ok []
  | x :: rest => ys <- f x ;; zs <- flatMapM f rest ;; Ok (ys ++ zs)
  end.

(** [Array.prototype.sort(comparefn)].  The engine's algorithm is not part of
    the repository; it is modelled by insertion, an element going in front
    of the first one it compares below, which is where V8's binary insertion
    puts it. *)
Fixpoint insertBy {A : Type} (comparefn : A -> A -> Z) (x : A)
    (sorted : list A) : list A :=
  match sorted with
  | [] => [x]
  | y :: rest =>
      if (comparefn x y <? 0)%Z then x :: sorted
      else y :: insertBy comparefn x rest
  end.

Definition sortBy {A : Type} (comparefn : A -> A -> Z) (l : list A) : list A :=
  fold_left (fun sorted x => insertBy comparefn x sorted) l [].

(** [(a, b) => a.key > b.key ? 1 : -1] *)
Definition compareKeys (a b : FoundKey) : Z :=
  if gtb (key a) (key b) then 1%Z else (-1)%Z.

(** The registry is reset, filled by Pass 1 over all files, and then read by
    Pass 2, which does not change it: it is passed along as a value. *)
Definition extract (fs : FileSystem) (filesPaths : list string)
    : Result (list FoundKey) :=
  registry <- forEachM (collectFunctionsWithTParam fs) filesPaths [] ;;
  found <- flatMapM (fun path => getKeys registry path fs) filesPaths ;;
  Ok (sortBy compareKeys found).

(** ** Vocabulary of the statements *)

(** [occurs d n]: [d] is [n] or a descendant of [n]. *)
Inductive occurs (d : Node) : Node -> Prop :=
  | occurs_here : occurs d d
  | occurs_below (n c : Node) :
      In c (childrenOf n) -> occurs d c -> occurs d n.

(** [d] occurs in a source file: in one of its top-level children. *)
Definition occursInFile (d : Node) (sourceFile : SourceFile) : Prop :=
  exists top, In top sourceFile /\ occurs d top.

(** [d] occurs in [n] with no function-like node on the way down, [d]
    included, except possibly [n] itself: nothing [d] pushes is popped
    before [n] is left. *)
Inductive scopedIn (d : Node) : Node -> Prop :=
  | scoped_here : scopedIn d d
  | scoped_below (n c : Node) :
      In c (childrenOf n) -> isFunctionLike c = false ->
      scopedIn d c -> scopedIn d n.

(** A frame keeps its name and its variable, and stays dynamic once it is. *)
Definition stable (a b : Namespace.t) : Prop :=
  Namespace.name a = Namespace.name b /\
  Namespace.variable a = Namespace.variable b /\
  (Namespace.dynamic a = true -> Namespace.dynamic b = true).

(** The stack [new] is the stack [old], frame by frame up to [stable], with
    further frames on top. *)
Definition extends (old new : list Namespace.t) : Prop :=
  exists kept added, new = kept ++ added /\ Forall2 stable old kept.

(** A list that was only appended to: the registry and the found keys. *)
Definition appended {A : Type} (old new : list A) : Prop :=
  exists more, new = old ++ more.

Definition advances (s s' : State) : Prop :=
  extends (namespaces s) (namespaces s') /\
  appended (foundKeys s) (foundKeys s').

(** Ascending order of the keys under ordinal comparison. *)
Definition keyLe (a b : FoundKey) : Prop :=
  String.leb (key a) (key b) = true.

(** *** Syntax without comments

    The trees the TypeScript parser builds for source text that carries no
    comment.  A [const] statement is a [VariableStatement] over a
    [VariableDeclarationList]; a function declaration holds its name and a
    [Block]. *)
Definition ident (text : string) : Node := Identifier [] text.
Definition literal (text : string) : Node := StringLiteral [] text.
Definition call (callee : Node) (arguments : list Node) : Node :=
  CallExpression [] callee arguments.
Definition access (object : Node) (member : string) : Node :=
  PropertyAccessExpression [] object (ident member).
Definition await (operand : Node) : Node := AwaitExpression [] operand.
Definition statement (expression : Node) : Node :=
  ExpressionStatement [] expression.
Definition variableStatement (declaration : Node) : Node :=
  OtherNode [] false [OtherNode [] false [declaration]].
Definition const (name init : Node) : Node :=
  variableStatement (VariableDeclaration [] name None (Some init)).
Definition block (statements : list Node) : Node :=
  OtherNode [] false statements.
Definition functionDeclaration (name : string) (statements : list Node)
    : Node :=
  OtherNode [] true [ident name; block statements].
Definition endOfFile : Node := OtherNode [] false [].

(** A file system holding one file, and one holding two. *)
Definition oneFile (path : string) (sourceFile : SourceFile) : FileSystem :=
  fun p => if p =? path then Some sourceFile else None.

Definition twoFiles (path1 : string) (sourceFile1 : SourceFile)
    (path2 : string) (sourceFile2 : SourceFile) : FileSystem :=
  fun p =>
    if p =? path1 then Some sourceFile1
    else if p =? path2 then Some sourceFile2
    else None.

(** The texts of the [namespace: <string literal>] properties of an object
    literal, in order. *)
Definition namespaceLiterals (properties : list Node) : list string :=
  flat_map (fun property =>
              match namespaceProperty property with
              | Some text => [text]
              | None => []
              end)
           properties.

(** [const <name> = (<param>: T) => { <param>('<key>'); }] *)
Definition helperDeclaration (name param keyText : string) : Node :=
  const (ident name)
    (ArrowFunction []
       [ParameterDeclaration [] (ident param)
          (Some (TypeReferenceNode [] [ident "T"])) None]
       (block [statement (call (ident param) [literal keyText])])).

(** Two files that both define a helper [schema]; the second also calls it:
    [schema(useTranslations('Form'));]. *)
Definition firstSchemaSource : SourceFile :=
  [helperDeclaration "schema" "t" "first"; endOfFile].

Definition lastSchemaSource : SourceFile :=
  [helperDeclaration "schema" "t" "last";
   statement (call (ident "schema")
                [call (ident USE_TRANSLATIONS) [literal "Form"]]);
   endOfFile].

Definition schemaFiles : FileSystem :=
  twoFiles "a.ts" firstSchemaSource "b.ts" lastSchemaSource.

(** The identifier a call goes through as a translator: the callee of
    [t(...)], or the object of [t.rich(...)]. *)
Definition translatorOf (callee : Node) : option string :=
  match callee with
  | Identifier _ text => Some text
  | PropertyAccessExpression _ (Identifier _ text) _ => Some text
  | _ => None
  end.

(** The non-literal keys of the specification: an identifier or an
    interpolated template. *)
Definition isNonLiteralKey (argument : Node) : bool :=
  match argument with
  | Identifier _ _ => true
  | TemplateExpression _ _ => true
  | _ => false
  end.

(** The statements of the dynamic-key example:
    [const t = useTranslations('<NS>'); const key = compute(); t(key);] *)
Definition dynamicSnippet (NS : string) : list Node :=
  [ const (ident "t") (call (ident USE_TRANSLATIONS) [literal NS]);
    const (ident "key") (call (ident "compute") []);
    statement (call (ident "t") [ident "key"]) ].

(** The placeholder record of a dynamic namespace. *)
Definition dynamicPlaceholder (path NS : string) : FoundKey :=
  {| key := NS;
     meta := {| Meta.file := path;
                Meta.namespace := Some NS;
                Meta.dynamic := true |} |}.

(** The stack holds, at depth [depth] or above, a dynamic frame of the
    namespace [NS]. *)
Definition marked (NS : string) (depth : nat) (stack : list Namespace.t)
    : Prop :=
  exists i f,
    depth <= i /\ nth_error stack i = Some f /\
    Namespace.name f = NS /\ Namespace.dynamic f = true.

(** [function Page() { const t = useTranslations('NS');
      const key = compute(); t(key); }] *)
Definition dynamicSource : SourceFile :=
  [functionDeclaration "Page" (dynamicSnippet "NS"); endOfFile].

(** [const schema = (t: T) => z.string(t('required'));] *)
Definition schemaDeclaration : Node :=
  VariableDeclaration [] (ident "schema") None
    (Some (ArrowFunction []
             [ParameterDeclaration [] (ident "t")
                (Some (TypeReferenceNode [] [ident "T"])) None]
             (call (access (ident "z") "string")
                [call (ident "t") [literal "required"]]))).

(** The declaration above, followed by
    [schema(useTranslations('Form'));]. *)
Definition schemaSource : SourceFile :=
  [ variableStatement schemaDeclaration;
    statement (call (ident "schema")
                 [call (ident USE_TRANSLATIONS) [literal "Form"]]);
    endOfFile ].

(** [const schema = (t) => t('required');
     schema(useTranslations('Form'));] *)
Definition untypedSchemaSource : SourceFile :=
  [ const (ident "schema")
      (ArrowFunction [] [ParameterDeclaration [] (ident "t") None None]
         (call (ident "t") [literal "required"]));
    statement (call (ident "schema")
                 [call (ident USE_TRANSLATIONS) [literal "Form"]]);
    endOfFile ].

(** [const schema = (t: T) => t('required');
     schema(useTranslations('Form'));], the body being the call itself. *)
Definition directBodySchemaSource : SourceFile :=
  [ const (ident "schema")
      (ArrowFunction []
         [ParameterDeclaration [] (ident "t")
            (Some (TypeReferenceNode [] [ident "T"])) None]
         (call (ident "t") [literal "required"]));
    statement (call (ident "schema")
                 [call (ident USE_TRANSLATIONS) [literal "Form"]]);
    endOfFile ].

(** [function Page() { useTranslations('ns1')('one'); }] *)
Definition inlineCallSource : SourceFile :=
  [ functionDeclaration "Page"
      [ statement (call (call (ident USE_TRANSLATIONS) [literal "ns1"])
                     [literal "one"]) ];
    endOfFile ].

(** [function Page() { useTranslations('ns1').rich('one'); }] *)
Definition inlineMethodSource : SourceFile :=
  [ functionDeclaration "Page"
      [ statement
          (call (access (call (ident USE_TRANSLATIONS) [literal "ns1"])
                   "rich")
             [literal "one"]) ];
    endOfFile ].

(** *** Sources and stacks of the examples *)

(** A file with two call sites in two scopes, used to exercise the
    statements below:
    [function Outer() { const t = useTranslations('Outer');
       function Inner() { const t = useTranslations('Inner'); t('x'); }
       t('a'); }] *)
Definition shadowingSource : SourceFile :=
  [ functionDeclaration "Outer"
      [ const (ident "t") (call (ident USE_TRANSLATIONS) [literal "Outer"]);
        functionDeclaration "Inner"
          [ const (ident "t")
              (call (ident USE_TRANSLATIONS) [literal "Inner"]);
            statement (call (ident "t") [literal "x"]) ];
        statement (call (ident "t") [literal "a"]) ];
    endOfFile ].

(** [const t = useTranslations(ns)], the argument an identifier. *)
Definition useTranslationsOfIdentifier : Node :=
  VariableDeclaration [] (ident "t") None
    (Some (call (ident USE_TRANSLATIONS) [ident "ns"])).

(** [const t = await getTranslations({ locale: 'en', namespace: 'ns' })] *)
Definition getTranslationsOfObject : Node :=
  VariableDeclaration [] (ident "t") None
    (Some (await (call (ident GET_TRANSLATIONS)
       [ObjectLiteralExpression []
          [PropertyAssignment [] (ident "locale") (literal "en");
           PropertyAssignment [] (ident "namespace") (literal "ns")]]))).

(** [const [data, t] = await all([load(), getTranslations('ns')])], the
    callee a plain function and not [Promise.all]. *)
Definition arrayOfLiteral : Node :=
  VariableDeclaration []
    (ArrayBindingPattern []
       [BindingElement [] (ident "data") None;
        BindingElement [] (ident "t") None])
    None
    (Some (await (call (ident "all")
       [ArrayLiteralExpression []
          [call (ident "load") [];
           call (ident GET_TRANSLATIONS) [literal "ns"]]]))).

(** [const [t] = await Promise.all([getTranslations(ns)])], the argument of
    [getTranslations] an identifier. *)
Definition arrayOfIdentifier : Node :=
  VariableDeclaration []
    (ArrayBindingPattern [] [BindingElement [] (ident "t") None])
    None
    (Some (await (call (access (ident "Promise") "all")
       [ArrayLiteralExpression []
          [call (ident GET_TRANSLATIONS) [ident "ns"]]]))).

(** Two frames of the namespace [NS] under different variables, and one of
    another namespace. *)
Definition sharedNameStack : State :=
  {| namespaces := [frame "NS" "t"; frame "Other" "o"; frame "NS" "u"];
     foundKeys := [] |}.

(** [function Page() { const t = useTranslations('NS'); t(keys.title); }],
    the key a property access. *)
Definition propertyKeySource : SourceFile :=
  [ functionDeclaration "Page"
      [ const (ident "t") (call (ident USE_TRANSLATIONS) [literal "NS"]);
        statement (call (ident "t") [access (ident "keys") "title"]) ];
    endOfFile ].

(** Two records of the registry under one name. *)
Definition firstSchema : FunctionWithTParam :=
  {| functionName := "schema"; paramName := "t"; keysUsed := ["first"] |}.

Definition lastSchema : FunctionWithTParam :=
  {| functionName := "schema"; paramName := "t"; keysUsed := ["last"] |}.

(** [function Page() { const t = useTranslations('NS'); t('k'); }] *)
Definition literalKeySource : SourceFile :=
  [ functionDeclaration "Page"
      [ const (ident "t") (call (ident USE_TRANSLATIONS) [literal "NS"]);
        statement (call (ident "t") [literal "k"]) ];
    endOfFile ].

(** [function Page() { const t = useTranslations(); t('k'); }] *)
Definition bareKeySource : SourceFile :=
  [ functionDeclaration "Page"
      [ const (ident "t") (call (ident USE_TRANSLATIONS) []);
        statement (call (ident "t") [literal "k"]) ];
    endOfFile ].

(** [function Page() { const t = useTranslations('NS');
      // t('a.b.c')
      t(key); }]
    The comment leads the statement, its call and the callee alike: the
    three nodes start at the same position. *)
Definition commentedSource : SourceFile :=
  [ functionDeclaration "Page"
      [ const (ident "t") (call (ident USE_TRANSLATIONS) [literal "NS"]);
        ExpressionStatement ["// t('a.b.c')"]
          (CallExpression ["// t('a.b.c')"]
             (Identifier ["// t('a.b.c')"] "t") [ident "key"]) ];
    endOfFile ].

(** ** Vocabulary of the further properties *)

(** *** Predicates over whole trees *)

(** [p] holds at a node and at every node below it. *)
Fixpoint everywhere (p : Node -> bool) (node : Node) : bool :=
  p node && forEachChild (fun child ok => ok && everywhere p child) node true.

(** The nodes of a tree in the order [ts.forEachChild] reaches them, a node
    before its children. *)
Fixpoint preorder (node : Node) : list Node :=
  node :: forEachChild (fun child before => before ++ preorder child) node [].

(** The binding pattern has no element at the position of the first
    [getTranslations(...)] call of the array: the one case in which
    [ts.isBindingElement] is handed [undefined]. *)
Definition overruns (name awaited : Node) : bool :=
  match awaited, name with
  | CallExpression _ _ (ArrayLiteralExpression _ elements :: _),
    ArrayBindingPattern _ bindings =>
      match findIndex isGetTranslationsCall elements with
      | Some functionNameIndex => (length bindings <=? functionNameIndex)%nat
      | None => false
      end
  | _, _ => false
  end.

(** A declaration [[a, ..] = await f([.., getTranslations(...), ..])] whose
    pattern is too short for the position of the call. *)
Definition patternTooShort (node : Node) : bool :=
  match node with
  | VariableDeclaration _ name _ (Some (AwaitExpression _ awaited)) =>
      overruns name awaited
  | _ => false
  end.

(** No declaration of the tree has a pattern that is too short. *)
Definition wellBound (node : Node) : bool :=
  everywhere (fun n => negb (patternTooShort n)) node.

(** *** What the two passes collect *)

(** The keys a list of nodes adds to [keysUsed], and the records it adds
    to the registry. *)
Definition literalUses (param : string) (nodes : list Node) : list string :=
  flat_map (fun node =>
              match literalUse param node with
              | Some text => [text]
              | None => []
              end)
           nodes.

Definition trackedFunctions (nodes : list Node) : list FunctionWithTParam :=
  flat_map (fun node =>
              match trackedFunctionOf node with
              | Some functionTracker => [functionTracker]
              | None => []
              end)
           nodes.

(** The name of the frame on top of the stack, or the empty string. *)
Definition topNamespace (st : State) : string :=
  Namespace.name (last (namespaces st) (frame "" "")).

(** The static keys held by a list of comments, in order. *)
Definition commentedKeys (comments : list string) : list string :=
  flat_map (fun comment =>
              match COMMENT_CONTAINS_STATIC_KEY_REGEX comment with
              | Some commentText => [commentText]
              | None => []
              end)
           comments.

(** Every character of a string passes a test. *)
Definition allChars (test : ascii -> bool) (s : string) : bool :=
  forallb test (list_ascii_of_string s).

(** The record of an inline call that names no namespace. *)
Definition bareKey (path keyName : string) : FoundKey :=
  {| key := keyName;
     meta := {| Meta.file := path;
                Meta.namespace := None;
                Meta.dynamic := false |} |}.

(** The records [getKeys] builds for the file at [path]: a key qualified by
    the namespace the record names, a key with no namespace at all, and the
    placeholder of a dynamic namespace. *)
Inductive recordOf (path : string) : FoundKey -> Prop :=
  | qualified_record (namespace keyName : string) :
      recordOf path (plainKey path namespace keyName)
  | bare_record (keyName : string) :
      recordOf path (bareKey path keyName)
  | placeholder_record (namespace : string) :
      recordOf path (dynamicPlaceholder path namespace).

(** Where a record of the file at [path] is found: at a call through a
    translator with a string-literal key, at a call of a registered helper,
    at an inline call, at a node led by a comment that holds a key, or on
    leaving a function-like node. *)
Inductive foundAt (registry : list FunctionWithTParam) (path : string)
    (node : Node) : FoundKey -> Prop :=
  | found_call (comments c : list string) (callee : Node) (rest : list Node)
      (text v namespace : string) :
      node = CallExpression comments callee (StringLiteral c text :: rest) ->
      translatorOf callee = Some v ->
      foundAt registry path node (plainKey path namespace text)
  | found_helper (comments c : list string) (argument : Node)
      (rest : list Node) (helper : FunctionWithTParam)
      (calledFunctionName text namespace : string) :
      node = CallExpression comments (Identifier c calledFunctionName)
               (argument :: rest) ->
      find (fun f => functionName f =? calledFunctionName) registry
      = Some helper ->
      In text (keysUsed helper) ->
      foundAt registry path node (plainKey path namespace text)
  | found_inline (c0 c1 c2 c3 c4 c5 c6 : list string) (member : Node)
      (inner rest : list Node) (text namespace : string) :
      node = ExpressionStatement c0
               (CallExpression c1
                  (PropertyAccessExpression c2
                     (CallExpression c3 (Identifier c4 USE_TRANSLATIONS)
                        (StringLiteral c5 namespace :: inner))
                     member)
                  (StringLiteral c6 text :: rest)) ->
      foundAt registry path node (plainKey path namespace text)
  | found_inline_bare (c0 c1 c2 c3 c4 c6 : list string) (member : Node)
      (inner rest : list Node) (text : string) :
      node = ExpressionStatement c0
               (CallExpression c1
                  (PropertyAccessExpression c2
                     (CallExpression c3 (Identifier c4 USE_TRANSLATIONS) inner)
                     member)
                  (StringLiteral c6 text :: rest)) ->
      (forall c namespace, first inner <> Some (StringLiteral c namespace)) ->
      foundAt registry path node (bareKey path text)
  | found_comment (comment text namespace : string) :
      In comment (leadingComments node) ->
      COMMENT_CONTAINS_STATIC_KEY_REGEX comment = Some text ->
      foundAt registry path node (plainKey path namespace text)
  | found_placeholder (namespace : string) :
      isFunctionLike node = true ->
      foundAt registry path node (dynamicPlaceholder path namespace).

(** The found keys grew by records that satisfy [P]. *)
Definition emits (P : FoundKey -> Prop) (s s' : State) : Prop :=
  exists more, foundKeys s' = foundKeys s ++ more /\ Forall P more.

(** *** Acquisitions *)

(** A call of [useTranslations] or [getTranslations] by name.  Every
    acquisition of a translator holds one, and so does every inline call. *)
Definition acquires (node : Node) : bool :=
  match node with
  | CallExpression _ (Identifier _ callee) _ =>
      (callee =? USE_TRANSLATIONS) || (callee =? GET_TRANSLATIONS)
  | _ => false
  end.

(** No such call at the node or below it. *)
Definition inert (node : Node) : bool :=
  everywhere (fun n => negb (acquires n)) node.

(** The stack is as deep as it was, and nothing but marks and new keys
    happened. *)
Definition settled (s s' : State) : Prop :=
  advances s s' /\ length (namespaces s') = length (namespaces s).


(** The name of the frame the object-literal loop of [getTranslations]
    pushes for a property. *)
Definition frameName (property : Node) : string :=
  match namespaceProperty property with
  | Some text => text
  | None => ""
  end.


(** A call of an identifier that names a record of the registry, with at
    least one argument. *)
Definition callsHelper (registry : list FunctionWithTParam) (node : Node)
    : bool :=
  match node with
  | CallExpression _ (Identifier _ calledFunctionName) (_ :: _) =>
      existsb (fun f => functionName f =? calledFunctionName) registry
  | _ => false
  end.

(** *** The example file of the repository

    [translations/codeExamples/next-intl/src/SchemaWithTParam.tsx], as the
    TypeScript parser reads it.  A comment leads every node that starts
    where the comment does: a statement and its [export] keyword, or a
    statement and its declaration list. *)

(** A keyword that is a node of its own: a modifier such as [export] or
    [async], or a keyword type such as [string]. *)
Definition keyword (comments : list string) : Node :=
  OtherNode comments false [].












(** *** Further sources of the examples *)

(** [function Page() {
       const [data] = await Promise.all([load(), getTranslations('ns')]); }],
    the pattern one element short of the position of [getTranslations]. *)
Definition shortPatternDeclaration : Node :=
  VariableDeclaration []
    (ArrayBindingPattern [] [BindingElement [] (ident "data") None])
    None
    (Some (await (call (access (ident "Promise") "all")
       [ArrayLiteralExpression []
          [call (ident "load") [];
           call (ident GET_TRANSLATIONS) [literal "ns"]]]))).

Definition shortPatternSource : SourceFile :=
  [ functionDeclaration "Page" [variableStatement shortPatternDeclaration];
    endOfFile ].



(** [// t('nav.home')
     const links = [home];], a file without translator.  The comment leads
    the statement, its declaration list, the declaration and the name
    alike: the four nodes start at the same position. *)
Definition commentOnlySource : SourceFile :=
  [ OtherNode ["// t('nav.home')"] false
      [ OtherNode ["// t('nav.home')"] false
          [ VariableDeclaration ["// t('nav.home')"]
              (Identifier ["// t('nav.home')"] "links") None
              (Some (ArrayLiteralExpression [] [ident "home"])) ] ];
    endOfFile ].




(** [function Page() { useTranslations().rich('one'); }] *)
Definition inlineBareSource : SourceFile :=
  [ functionDeclaration "Page"
      [ statement
          (call (access (call (ident USE_TRANSLATIONS) []) "rich")
             [literal "one"]) ];
    endOfFile ].

(** [{ namespace: 'ns', locale: 'en' }], the namespace first. *)
Definition namespaceFirstObject : Node :=
  ObjectLiteralExpression []
    [PropertyAssignment [] (ident "namespace") (literal "ns");
     PropertyAssignment [] (ident "locale") (literal "en")].

(** [const t = await getTranslations({ namespace: 'ns', locale: 'en' })] *)
Definition getTranslationsNamespaceFirst : Node :=
  VariableDeclaration [] (ident "t") None
    (Some (await (call (ident GET_TRANSLATIONS) [namespaceFirstObject]))).

(** [async function Page() {
      const t = await getTranslations({ namespace: 'ns', locale: 'en' });
      t('k'); }] *)
Definition namespaceFirstSource : SourceFile :=
  [ OtherNode [] true
      [ keyword []; ident "Page";
        block [ variableStatement getTranslationsNamespaceFirst;
                statement (call (ident "t") [literal "k"]) ] ];
    endOfFile ].

(** [async function Page() {
      const [t] = await Promise.all(
        [getTranslations({ namespace: 'ns', locale: 'en' })]);
      t('k'); }] *)
Definition namespaceFirstInArraySource : SourceFile :=
  [ OtherNode [] true
      [ keyword []; ident "Page";
        block [ variableStatement
                  (VariableDeclaration []
                     (ArrayBindingPattern []
                        [BindingElement [] (ident "t") None])
                     None
                     (Some (await (call (access (ident "Promise") "all")
                              [ArrayLiteralExpression []
                                 [call (ident GET_TRANSLATIONS)
                                    [namespaceFirstObject]]]))));
                statement (call (ident "t") [literal "k"]) ] ];
    endOfFile ].

(** ** Facts about trees and walks *)

Section NodeInduction.
Variable P : Node -> Prop.
Hypothesis step : forall n, Forall P (childrenOf n) -> P n.

Lemma Node_children_ind : forall n, P n.
Proof.
  fix IH 1. intros n. apply step. destruct n; simpl;
    repeat match goal with
      | |- Forall _ [] => constructor
      | |- Forall _ (_ :: _) => constructor; [apply IH|]
      | |- Forall _ (_ ++ _) => apply Forall_app; split
      | |- Forall _ (optional ?o) => destruct o; simpl
      | |- Forall _ ?l =>
          is_var l; induction l;
          [constructor | constructor; [apply IH | assumption]]
      end.
Qed.
End NodeInduction.

Lemma bind_Ok {A B : Type} (m : Result A) (k : A -> Result B) (b : B) :
  bind m k = Ok b -> exists a, m = Ok a /\ k a = Ok b.
Proof.
  destruct m as [a|e]; simpl; intros H; [eauto | discriminate].
Qed.

Lemma Ok_inj {A : Type} (a b : A) : Ok a = Ok b -> a = b.
Proof. now intros [= ->]. Qed.

(** Turns every hypothesis [bind m k = Ok b] into its two halves. *)
Ltac unbind :=
  repeat match goal with
    | H : bind _ _ = Ok _ |- _ =>
        let a := fresh "s" in
        let Ha := fresh "H" in
        apply bind_Ok in H; destruct H as (a & Ha & H)
    | H : Ok _ = Ok _ |- _ => injection H as H
    end.

Lemma eachNode_app {S : Type} (cb : Node -> S -> S) (l1 l2 : list Node) s :
  eachNode cb (l1 ++ l2) s = eachNode cb l2 (eachNode cb l1 s).
Proof.
  revert s; induction l1 as [|c l1 IH]; intros s; simpl; auto.
Qed.

Lemma forEachChild_children {S : Type} (cb : Node -> S -> S) n s :
  forEachChild cb n s = eachNode cb (childrenOf n) s.
Proof.
  destruct n; simpl; try reflexivity;
    repeat match goal with o : option Node |- _ => destruct o end;
    simpl; try reflexivity.
  rewrite eachNode_app; reflexivity.
Qed.

Lemma eachNodeM_app {S : Type} (cb : Node -> S -> Result S) l1 l2 s :
  eachNodeM cb (l1 ++ l2) s = (s1 <- eachNodeM cb l1 s ;; eachNodeM cb l2 s1).
Proof.
  revert s; induction l1 as [|c l1 IH]; intros s; simpl; auto.
  destruct (cb c s); simpl; auto.
Qed.

Lemma forEachChildM_children {S : Type} (cb : Node -> S -> Result S) n s :
  forEachChildM cb n s = eachNodeM cb (childrenOf n) s.
Proof.
  destruct n; simpl; try reflexivity;
    repeat match goal with o : option Node |- _ => destruct o end;
    simpl; try reflexivity;
    repeat match goal with |- context [cb ?c ?s] =>
      destruct (cb c s); simpl; try reflexivity end.
  rewrite eachNodeM_app. destruct (eachNodeM cb parameters s); simpl; auto.
  destruct (cb n value); reflexivity.
Qed.

(** A walk over a list of nodes keeps every reflexive and transitive
    relation its callback keeps. *)
Section WalkInvariant.
Context {S : Type} (R : S -> S -> Prop).
Hypothesis R_refl : forall s, R s s.
Hypothesis R_trans : forall a b c, R a b -> R b c -> R a c.

Lemma eachNode_invariant (cb : Node -> S -> S) (l : list Node) :
  Forall (fun c => forall s, R s (cb c s)) l ->
  forall s, R s (eachNode cb l s).
Proof.
  induction 1 as [|c l Hc _ IH]; intros s; simpl; eauto.
Qed.

Lemma eachNodeM_invariant (cb : Node -> S -> Result S) (l : list Node) :
  Forall (fun c => forall s s', cb c s = Ok s' -> R s s') l ->
  forall s s', eachNodeM cb l s = Ok s' -> R s s'.
Proof.
  induction 1 as [|c l Hc _ IH]; intros s s' H; simpl in H.
  - injection H as <-; auto.
  - unbind; eauto.
Qed.
End WalkInvariant.

Lemma occurs_trans (a b c : Node) : occurs a b -> occurs b c -> occurs a c.
Proof.
  intros Hab Hbc; induction Hbc; auto.
  eapply occurs_below; eauto.
Qed.

Lemma scopedIn_occurs (d n : Node) : scopedIn d n -> occurs d n.
Proof.
  induction 1; [constructor | eapply occurs_below; eauto].
Qed.

(** *** Lists that only grow *)

Lemma appended_refl {A : Type} (l : list A) : appended l l.
Proof. exists []; now rewrite app_nil_r. Qed.

Lemma appended_trans {A : Type} (a b c : list A) :
  appended a b -> appended b c -> appended a c.
Proof.
  intros [x ->] [y ->]; exists (x ++ y); now rewrite app_assoc.
Qed.

Lemma appended_In {A : Type} (a b : list A) (x : A) :
  appended a b -> In x a -> In x b.
Proof. intros [m ->] H; apply in_or_app; auto. Qed.

Lemma appended_snoc {A : Type} (l : list A) (x : A) : appended l (l ++ [x]).
Proof. now exists [x]. Qed.

(** ** Facts about Pass 1 *)

Lemma visitFunctionBody_eq param n keys :
  visitFunctionBody param n keys =
  eachNode (visitFunctionBody param) (childrenOf n)
    (match literalUse param n with
     | Some text => keys ++ [text]
     | None => keys
     end).
Proof.
  rewrite <- forEachChild_children; destruct n; reflexivity.
Qed.

Lemma visitFunctionBody_appended param n :
  forall keys, appended keys (visitFunctionBody param n keys).
Proof.
  induction n as [n IH] using Node_children_ind; intros keys.
  rewrite visitFunctionBody_eq.
  eapply appended_trans;
    [| apply (eachNode_invariant _ (@appended_refl _) (@appended_trans _));
       exact IH].
  destruct (literalUse param n);
    [apply appended_snoc | apply appended_refl].
Qed.

Lemma eachNode_visitFunctionBody_appended param l keys :
  appended keys (eachNode (visitFunctionBody param) l keys).
Proof.
  apply (eachNode_invariant _ (@appended_refl _) (@appended_trans _)).
  apply Forall_forall; intros c _; apply visitFunctionBody_appended.
Qed.

(** A literal use anywhere below a node ends up in the keys. *)
Lemma visitFunctionBody_finds param d n text :
  occurs d n -> literalUse param d = Some text ->
  forall keys, In text (visitFunctionBody param n keys).
Proof.
  intros Hocc Huse; induction Hocc as [|n c Hin Hocc IH]; intros keys;
    rewrite visitFunctionBody_eq.
  - rewrite Huse.
    eapply appended_In; [apply eachNode_visitFunctionBody_appended|].
    apply in_or_app; right; now left.
  - apply in_split in Hin; destruct Hin as (l1 & l2 & ->).
    rewrite eachNode_app; simpl.
    eapply appended_In; [apply eachNode_visitFunctionBody_appended|].
    apply IH.
Qed.

Lemma Collect_visit_eq n registry :
  Collect.visit n registry =
  eachNode Collect.visit (childrenOf n) (trackFunction n registry).
Proof.
  rewrite <- forEachChild_children; destruct n; reflexivity.
Qed.

Lemma trackFunction_appended n registry :
  appended registry (trackFunction n registry).
Proof.
  unfold trackFunction; destruct (trackedFunctionOf n);
    [apply appended_snoc | apply appended_refl].
Qed.

Lemma Collect_visit_appended n :
  forall registry, appended registry (Collect.visit n registry).
Proof.
  induction n as [n IH] using Node_children_ind; intros registry.
  rewrite Collect_visit_eq.
  eapply appended_trans; [apply trackFunction_appended|].
  apply (eachNode_invariant _ (@appended_refl _) (@appended_trans _)).
  exact IH.
Qed.

Lemma eachNode_Collect_appended l registry :
  appended registry (eachNode Collect.visit l registry).
Proof.
  apply (eachNode_invariant _ (@appended_refl _) (@appended_trans _)).
  apply Forall_forall; intros c _; apply Collect_visit_appended.
Qed.

(** Every qualifying declaration in a tree is registered. *)
Lemma Collect_visit_registers d n f :
  occurs d n -> trackedFunctionOf d = Some f ->
  forall registry, In f (Collect.visit n registry).
Proof.
  intros Hocc Hf; induction Hocc as [|n c Hin Hocc IH]; intros registry;
    rewrite Collect_visit_eq.
  - unfold trackFunction; rewrite Hf.
    eapply appended_In; [apply eachNode_Collect_appended|].
    apply in_or_app; right; now left.
  - apply in_split in Hin; destruct Hin as (l1 & l2 & ->).
    rewrite eachNode_app; simpl.
    eapply appended_In; [apply eachNode_Collect_appended|].
    apply IH.
Qed.

(** Every record of the registry comes from a declaration of the tree. *)
Lemma Collect_visit_origin n :
  forall registry f, In f (Collect.visit n registry) ->
  In f registry \/ exists d, occurs d n /\ trackedFunctionOf d = Some f.
Proof.
  induction n as [n IH] using Node_children_ind; intros registry f.
  rewrite Collect_visit_eq.
  assert (walk : forall l, Forall (fun c => forall registry f,
              In f (Collect.visit c registry) ->
              In f registry \/
              exists d, occurs d c /\ trackedFunctionOf d = Some f) l ->
            incl l (childrenOf n) ->
            forall registry, In f (eachNode Collect.visit l registry) ->
            In f registry \/
            exists d, occurs d n /\ trackedFunctionOf d = Some f).
  { induction 1 as [|c l Hc _ IHl]; intros Hincl reg Hin; simpl in Hin; auto.
    apply IHl in Hin; [| intros x Hx; apply Hincl; now right].
    destruct Hin as [Hin|Hin]; auto.
    apply Hc in Hin; destruct Hin as [Hin|(d & Hd & Hf)]; auto.
    right; exists d; split; auto.
    eapply occurs_below; eauto. apply Hincl; now left. }
  intros Hin; apply walk in Hin; auto using incl_refl.
  destruct Hin as [Hin|Hin]; auto.
  unfold trackFunction in Hin.
  destruct (trackedFunctionOf n) as [g|] eqn:Hg; auto.
  apply in_app_or in Hin; destruct Hin as [Hin|[<-|[]]]; auto.
  right; exists n; split; [constructor | assumption].
Qed.

Lemma eachNode_Collect_registers d sourceFile f :
  occursInFile d sourceFile -> trackedFunctionOf d = Some f ->
  forall registry, In f (eachNode Collect.visit sourceFile registry).
Proof.
  intros (top & Hin & Hocc) Hf registry.
  apply in_split in Hin; destruct Hin as (l1 & l2 & ->).
  rewrite eachNode_app; simpl.
  eapply appended_In; [apply eachNode_Collect_appended|].
  eapply Collect_visit_registers; eauto.
Qed.

Lemma eachNode_Collect_origin sourceFile :
  forall registry f, In f (eachNode Collect.visit sourceFile registry) ->
  In f registry \/
  exists d, occursInFile d sourceFile /\ trackedFunctionOf d = Some f.
Proof.
  induction sourceFile as [|top rest IH]; intros registry f Hin; simpl in Hin;
    auto.
  apply IH in Hin; destruct Hin as [Hin|(d & (t & Ht & Hd) & Hf)].
  - apply Collect_visit_origin in Hin; destruct Hin as [|(d & Hd & Hf)]; auto.
    right; exists d; split; auto. exists top; split; [now left | auto].
  - right; exists d; split; auto. exists t; split; [now right | auto].
Qed.

(** The registry after Pass 1 over all files. *)
Lemma collect_appended fs paths :
  forall registry registry',
  forEachM (collectFunctionsWithTParam fs) paths registry = Ok registry' ->
  appended registry registry'.
Proof.
  induction paths as [|p paths IH]; intros registry registry' H; simpl in H.
  - injection H as <-; apply appended_refl.
  - unbind. unfold collectFunctionsWithTParam in H0; unbind; subst.
    eapply appended_trans; [apply eachNode_Collect_appended | eauto].
Qed.

Lemma collect_registers fs paths p sourceFile d f :
  In p paths -> fs p = Some sourceFile -> occursInFile d sourceFile ->
  trackedFunctionOf d = Some f ->
  forall registry registry',
  forEachM (collectFunctionsWithTParam fs) paths registry = Ok registry' ->
  In f registry'.
Proof.
  intros Hp Hfs Hd Hf; induction paths as [|q paths IH];
    intros registry registry' H; simpl in H; [contradiction|].
  unbind. unfold collectFunctionsWithTParam, readSource in H0.
  destruct Hp as [->|Hp].
  - rewrite Hfs in H0; simpl in H0; injection H0 as <-.
    eapply appended_In; [eapply collect_appended; eauto|].
    eapply eachNode_Collect_registers; eauto.
  - eapply IH; eauto.
Qed.

Lemma collect_origin fs paths :
  forall registry registry' f,
  forEachM (collectFunctionsWithTParam fs) paths registry = Ok registry' ->
  In f registry' ->
  In f registry \/
  exists p sourceFile d,
    In p paths /\ fs p = Some sourceFile /\ occursInFile d sourceFile /\
    trackedFunctionOf d = Some f.
Proof.
  induction paths as [|q paths IH]; intros registry registry' f H Hin;
    simpl in H.
  - injection H as <-; auto.
  - unbind. eapply IH in H; eauto.
    destruct H as [H|(p & src & d & Hp & Hfs & Hd & Hf)].
    + unfold collectFunctionsWithTParam, readSource in H0.
      destruct (fs q) as [src|] eqn:Hq; simpl in H0; [|discriminate].
      injection H0 as <-.
      apply eachNode_Collect_origin in H.
      destruct H as [H|(d & Hd & Hf)]; auto.
      right; exists q, src, d; simpl; auto.
    + right; exists p, src, d; simpl; auto.
Qed.

(** ** Facts about the namespace stack *)

Lemma stable_refl a : stable a a.
Proof. repeat split; auto. Qed.

Lemma stable_trans a b c : stable a b -> stable b c -> stable a c.
Proof.
  intros (? & ? & ?) (? & ? & ?); repeat split; try congruence; auto.
Qed.

Lemma Forall2_stable_refl l : Forall2 stable l l.
Proof. induction l; constructor; auto using stable_refl. Qed.

Lemma Forall2_stable_trans a :
  forall b c, Forall2 stable a b -> Forall2 stable b c -> Forall2 stable a c.
Proof.
  induction a as [|x a IH]; intros b c Hab Hbc; inversion Hab; subst;
    inversion Hbc; subst; constructor; eauto using stable_trans.
Qed.

Lemma extends_refl l : extends l l.
Proof.
  exists l, []; split; [now rewrite app_nil_r | apply Forall2_stable_refl].
Qed.

Lemma extends_trans a b c : extends a b -> extends b c -> extends a c.
Proof.
  intros (kb & ab & -> & Hab) (kc & ac & -> & Hbc).
  apply Forall2_app_inv_l in Hbc; destruct Hbc as (k1 & k2 & H1 & H2 & ->).
  exists k1, (k2 ++ ac); split; [now rewrite app_assoc|].
  eapply Forall2_stable_trans; eauto.
Qed.

Lemma extends_push l f : extends l (l ++ [f]).
Proof. exists l, [f]; split; auto using Forall2_stable_refl. Qed.

Lemma extends_length old new : extends old new -> length old <= length new.
Proof.
  intros (k & a & -> & H); apply Forall2_length in H.
  rewrite length_app; lia.
Qed.

(** A frame of the old stack is still there, at the same index. *)
Lemma extends_nth old new i f :
  extends old new -> nth_error old i = Some f ->
  exists g, nth_error new i = Some g /\ stable f g.
Proof.
  intros (k & a & -> & H); revert i; induction H as [|x y l l' Hxy _ IH];
    intros [|i] Hi; simpl in *; try discriminate.
  - injection Hi as <-; eauto.
  - apply IH; auto.
Qed.

Lemma stable_markDynamic name f : stable f (markDynamic name f).
Proof.
  unfold markDynamic; destruct (Namespace.name f =? name);
    repeat split; auto.
Qed.

Lemma extends_markDynamic name l : extends l (map (markDynamic name) l).
Proof.
  exists (map (markDynamic name) l), []; split; [now rewrite app_nil_r|].
  induction l; simpl; constructor; auto using stable_markDynamic.
Qed.

Lemma advances_refl s : advances s s.
Proof. split; [apply extends_refl | apply appended_refl]. Qed.

Lemma advances_trans a b c : advances a b -> advances b c -> advances a c.
Proof.
  intros [? ?] [? ?]; split; eauto using extends_trans, appended_trans.
Qed.

Lemma pushNamespace_advances f s : advances s (pushNamespace f s).
Proof. split; simpl; [apply extends_push | apply appended_refl]. Qed.

Lemma setNamespaceAsDynamic_advances name s :
  advances s (setNamespaceAsDynamic name s).
Proof.
  split; simpl; [apply (extends_markDynamic name) | apply appended_refl].
Qed.

Lemma pushKey_advances k s : advances s (pushKey k s).
Proof. split; simpl; [apply extends_refl | apply appended_snoc]. Qed.

Lemma fold_left_advances {A : Type} (f : State -> A -> State) (l : list A) :
  (forall s a, advances s (f s a)) ->
  forall s, advances s (fold_left f l s).
Proof.
  intros Hf; induction l as [|a l IH]; intros s; simpl;
    eauto using advances_refl, advances_trans.
Qed.

Create HintDb stack.

#[local] Hint Resolve advances_refl pushNamespace_advances
  setNamespaceAsDynamic_advances pushKey_advances : stack.

Lemma acquireUseTranslations_advances name initializer s :
  advances s (acquireUseTranslations name initializer s).
Proof.
  unfold acquireUseTranslations.
  repeat match goal with
    | |- advances _ (match ?x with _ => _ end) => destruct x
    | |- advances _ (if ?x then _ else _) => destruct x
    end; auto with stack.
Qed.

Lemma acquireGetTranslations_advances name awaited s :
  advances s (acquireGetTranslations name awaited s).
Proof.
  unfold acquireGetTranslations.
  repeat match goal with
    | |- advances _ (fold_left _ _ _) =>
        apply fold_left_advances; intros ? ?
    | |- advances _ (match ?x with _ => _ end) => destruct x
    | |- advances _ (if ?x then _ else _) => destruct x
    end; auto with stack.
Qed.

Lemma acquireFromArray_advances name awaited s s' :
  acquireFromArray name awaited s = Ok s' -> advances s s'.
Proof.
  unfold acquireFromArray.
  repeat match goal with
    | |- Ok _ = Ok _ -> _ => intros [= <-]
    | |- Throw _ = Ok _ -> _ => discriminate
    | |- advances _ (fold_left _ _ _) =>
        apply fold_left_advances; intros ? ?
    | |- advances _ (match ?x with _ => _ end) => destruct x
    | |- (match ?x with _ => _ end) = _ -> _ => destruct x
    | |- (let _ := _ in _) = _ -> _ => cbv zeta
    end; auto with stack.
Qed.

Lemma declareNamespaces_advances n s s' :
  declareNamespaces n s = Ok s' -> advances s s'.
Proof.
  unfold declareNamespaces.
  destruct n; try (intros [= <-]; auto with stack).
  destruct initializer as [init|]; [|intros [= <-]; auto with stack].
  cbv zeta.
  destruct init.
  all: try (intros H%Ok_inj; subst s';
            apply acquireUseTranslations_advances).
  intros H; apply acquireFromArray_advances in H.
  eapply advances_trans; [|exact H].
  eapply advances_trans;
    [apply acquireUseTranslations_advances
    |apply acquireGetTranslations_advances].
Qed.

(** ** Facts about the steps of [visit] *)

Lemma pushKeysUsed_spec path namespace f s :
  pushKeysUsed path namespace f s =
  {| namespaces := namespaces s;
     foundKeys := foundKeys s ++ map (plainKey path namespace) (keysUsed f) |}.
Proof.
  unfold pushKeysUsed; generalize (keysUsed f) as l; intros l; revert s.
  induction l as [|k l IH]; intros s; simpl.
  - rewrite app_nil_r; now destruct s.
  - rewrite IH; simpl; now rewrite <- app_assoc.
Qed.

Lemma pushKeysUsed_advances path namespace f s :
  advances s (pushKeysUsed path namespace f s).
Proof.
  rewrite pushKeysUsed_spec; split; simpl;
    [apply extends_refl | eexists; reflexivity].
Qed.

#[local] Hint Resolve pushKeysUsed_advances : stack.

(** Case analysis down a step that only pushes or marks. *)
Ltac steps :=
  repeat match goal with
    | |- advances _ (fold_left _ _ _) =>
        apply fold_left_advances; intros ? ?
    | |- advances _ (let _ := _ in _) => cbv zeta
    | |- advances ?s (match ?x with _ => _ end) => destruct x
    | |- advances ?s (if ?x then _ else _) => destruct x
    | |- advances _ (snd (match ?x with _ => _ end)) => destruct x
    | |- advances _ (snd (if ?x then _ else _)) => destruct x
    | |- advances _ (snd (_, _)) => simpl
    end; auto with stack.

Lemma callTrackedFunction_advances registry path n s :
  advances s (callTrackedFunction registry path n s).
Proof.
  unfold callTrackedFunction.
  destruct n; auto with stack.
  destruct n; auto with stack.
  destruct (find _ registry) as [f|]; auto with stack.
  destruct arguments as [|argument rest]; auto with stack.
  cbv zeta.
  match goal with |- advances _ (match _ with
    | Identifier _ v => match ?g (?st) with _ => _ end | _ => _ end) =>
    assert (H1 : advances s st) by steps;
    eapply advances_trans with (b := st); [exact H1|]
  end.
  destruct argument; auto with stack.
  match goal with |- advances _ (match ?x with _ => _ end) => destruct x end;
    auto with stack.
Qed.

Lemma inlineCall_advances path n s : advances s (inlineCall path n s).
Proof. unfold inlineCall; steps. Qed.

Lemma useTranslator_advances name arguments key s :
  advances s (snd (useTranslator name arguments key s)).
Proof. unfold useTranslator; steps. Qed.

Lemma translatorCall_advances n key s :
  advances s (snd (translatorCall n key s)).
Proof.
  unfold translatorCall.
  destruct (getCurrentNamespaces 1 s); auto with stack.
  destruct n; auto with stack. destruct n; auto with stack.
  apply useTranslator_advances.
Qed.

Lemma translatorMethodCall_advances n key s :
  advances s (snd (translatorMethodCall n key s)).
Proof.
  unfold translatorMethodCall.
  destruct (getCurrentNamespaces 1 s); auto with stack.
  destruct n; auto with stack. destruct n; auto with stack.
  destruct n1; auto with stack.
  apply useTranslator_advances.
Qed.

Lemma emitKey_advances path key s : advances s (emitKey path key s).
Proof. unfold emitKey; steps. Qed.

Lemma commentKey_advances path s comment :
  advances s (commentKey path s comment).
Proof. unfold commentKey; steps. Qed.

Lemma commentKeys_advances path n s : advances s (commentKeys path n s).
Proof.
  unfold commentKeys; apply fold_left_advances; intros;
    apply commentKey_advances.
Qed.

Lemma enter_advances registry path n s s' :
  enter registry path n s = Ok s' -> advances s s'.
Proof.
  unfold enter; intros H; unbind.
  apply declareNamespaces_advances in H0.
  destruct (translatorCall n None _) as [k1 s1] eqn:E1.
  destruct (translatorMethodCall n k1 s1) as [k2 s2] eqn:E2.
  apply Ok_inj in H; subst s'.
  eapply advances_trans; [exact H0|].
  eapply advances_trans; [apply (callTrackedFunction_advances registry path)|].
  eapply advances_trans; [apply (inlineCall_advances path)|].
  eapply advances_trans;
    [apply (translatorCall_advances n None) | rewrite E1; simpl].
  eapply advances_trans;
    [apply (translatorMethodCall_advances n k1) | rewrite E2; simpl].
  eapply advances_trans;
    [apply (emitKey_advances path) | apply commentKeys_advances].
Qed.

Lemma placeholders_spec path l s :
  fold_left
    (fun st namespace =>
       if Namespace.dynamic namespace
       then pushKey (placeholder path namespace) st
       else st)
    l s =
  {| namespaces := namespaces s;
     foundKeys :=
       foundKeys s ++ map (placeholder path) (filter Namespace.dynamic l) |}.
Proof.
  revert s; induction l as [|f l IH]; intros s; simpl.
  - rewrite app_nil_r; now destruct s.
  - rewrite IH; destruct (Namespace.dynamic f); simpl; auto.
    now rewrite <- app_assoc.
Qed.

(** [leave] at a stack that is [kept], as deep as the stack was on entry,
    under the frames [added] since. *)
Lemma leave_spec path n k s kept added :
  namespaces s = kept ++ added -> length kept = k ->
  leave path n k s =
  if isFunctionLike n then
    {| namespaces := kept;
       foundKeys :=
         foundKeys s ++ map (placeholder path) (filter Namespace.dynamic added)
    |}
  else s.
Proof.
  intros Hns Hk; unfold leave.
  destruct (isFunctionLike n); simpl; auto.
  assert (Hlen : length (namespaces s) = k + length added)
    by (rewrite Hns, length_app; lia).
  destruct (k <? length (namespaces s))%nat eqn:Hlt.
  - apply Nat.ltb_lt in Hlt.
    unfold getCurrentNamespaces, removeNamespaces.
    assert (H0 : (0 <? length (namespaces s))%nat = true)
      by (apply Nat.ltb_lt; lia).
    rewrite H0, placeholders_spec; simpl; rewrite H0.
    replace (length (namespaces s) - (length (namespaces s) - k)) with k
      by lia.
    rewrite Hns, <- Hk, skipn_app, firstn_app, skipn_all, firstn_all.
    rewrite Nat.sub_diag; simpl; now rewrite app_nil_r.
  - apply Nat.ltb_ge in Hlt.
    assert (added = []) by (apply length_zero_iff_nil; lia); subst added.
    destruct s as [ns ks]; simpl in *; subst ns.
    now rewrite !app_nil_r.
Qed.

Lemma visit_eq registry path n s :
  visit registry path n s =
  (s1 <- enter registry path n s ;;
   s2 <- eachNodeM (visit registry path) (childrenOf n) s1 ;;
   Ok (leave path n (length (namespaces s)) s2)).
Proof.
  transitivity
    (s1 <- enter registry path n s ;;
     s2 <- forEachChildM (visit registry path) n s1 ;;
     Ok (leave path n (length (namespaces s)) s2)).
  - destruct n; reflexivity.
  - destruct (enter registry path n s); simpl; auto.
    now rewrite forEachChildM_children.
Qed.

(** The invariant of the walk: the stack is only extended and marked, keys
    are only appended, and a function-like node leaves the stack as deep as
    it found it. *)
Lemma visit_advances registry path n :
  forall s s', visit registry path n s = Ok s' ->
  advances s s' /\
  (isFunctionLike n = true ->
   length (namespaces s') = length (namespaces s)).
Proof.
  induction n as [n IH] using Node_children_ind; intros s s' H.
  rewrite visit_eq in H; unbind; subst s'.
  apply enter_advances in H0.
  assert (H12 : advances s0 s1).
  { revert H1; apply (eachNodeM_invariant _ advances_refl advances_trans).
    eapply Forall_impl; [|exact IH]. intros c Hc a b Hab; now apply Hc. }
  assert (H02 : advances s s1) by eauto using advances_trans.
  destruct H02 as [(kept & added & Hns & Hst) Hkeys].
  pose proof (Forall2_length Hst) as Hlen.
  rewrite (leave_spec path n _ _ _ _ Hns (eq_sym Hlen)).
  destruct (isFunctionLike n); simpl.
  - split; [split; simpl | auto].
    + exists kept, []; now rewrite app_nil_r.
    + eapply appended_trans; [exact Hkeys | eexists; reflexivity].
  - split; [split; auto | discriminate].
    exists kept, added; auto.
Qed.

Lemma eachNodeM_visit_advances registry path l s s' :
  eachNodeM (visit registry path) l s = Ok s' -> advances s s'.
Proof.
  apply (eachNodeM_invariant _ advances_refl advances_trans).
  apply Forall_forall; intros c _ a b H.
  now apply visit_advances in H.
Qed.

(** Every node of a tree is visited, and what has been found by the end of
    its visit is still there at the end of the walk. *)
Lemma visit_reaches registry path d n :
  occurs d n ->
  forall s s', visit registry path n s = Ok s' ->
  exists sd sd',
    visit registry path d sd = Ok sd' /\
    appended (foundKeys sd') (foundKeys s').
Proof.
  induction 1 as [|n c Hin Hocc IH]; intros s s' H.
  - exists s, s'; split; [assumption | apply appended_refl].
  - rewrite visit_eq in H.
    apply bind_Ok in H; destruct H as (s1 & Henter & H).
    apply bind_Ok in H; destruct H as (s2 & Hkids & H).
    apply Ok_inj in H; subst s'.
    apply in_split in Hin; destruct Hin as (l1 & l2 & Hl).
    pose proof Hkids as Hall.
    rewrite Hl, eachNodeM_app in Hkids; simpl in Hkids.
    apply bind_Ok in Hkids; destruct Hkids as (sa & Hl1 & Hkids).
    apply bind_Ok in Hkids; destruct Hkids as (sb & Hc & Hl2).
    destruct (IH _ _ Hc) as (sd & sd' & Hd & Hk).
    exists sd, sd'; split; auto.
    eapply appended_trans; [exact Hk|].
    eapply appended_trans;
      [apply (proj2 (eachNodeM_visit_advances _ _ _ _ _ Hl2))|].
    assert (E : advances s s2).
    { eapply advances_trans; [eapply enter_advances; eauto|].
      eapply eachNodeM_visit_advances; eauto. }
    destruct E as [(kept & added & Hns & Hst) _].
    rewrite (leave_spec path n _ _ _ _ Hns (eq_sym (Forall2_length Hst))).
    destruct (isFunctionLike n); simpl;
      [eexists; reflexivity | apply appended_refl].
Qed.

Lemma eachNodeM_visit_reaches registry path top sourceFile :
  In top sourceFile ->
  forall s s', eachNodeM (visit registry path) sourceFile s = Ok s' ->
  exists sa sb,
    visit registry path top sa = Ok sb /\
    appended (foundKeys sb) (foundKeys s').
Proof.
  intros Hin s s' H.
  apply in_split in Hin; destruct Hin as (l1 & l2 & ->).
  rewrite eachNodeM_app in H; simpl in H.
  apply bind_Ok in H; destruct H as (sa & _ & H).
  apply bind_Ok in H; destruct H as (sb & Htop & Hl2).
  exists sa, sb; split; auto.
  apply (proj2 (eachNodeM_visit_advances _ _ _ _ _ Hl2)).
Qed.

(** A node of a file is visited, and what its visit has found is in the
    keys of the file. *)
Lemma getKeys_reaches registry path fs d sourceFile keys :
  getKeys registry path fs = Ok keys ->
  fs path = Some sourceFile -> occursInFile d sourceFile ->
  exists sd sd',
    visit registry path d sd = Ok sd' /\ appended (foundKeys sd') keys.
Proof.
  unfold getKeys, readSource; intros H Hfs (top & Hin & Hocc).
  rewrite Hfs in H; simpl in H.
  apply bind_Ok in H; destruct H as (st & Hwalk & H).
  apply Ok_inj in H; subst keys.
  destruct (eachNodeM_visit_reaches _ _ _ _ Hin _ _ Hwalk)
    as (sa & sb & Htop & Hk).
  destruct (visit_reaches _ _ _ _ Hocc _ _ Htop) as (sd & sd' & Hd & Hk').
  exists sd, sd'; split; eauto using appended_trans.
Qed.

(** ** Facts about [extract] *)

Lemma flatMapM_In {A B : Type} (f : A -> Result (list B)) (l : list A) :
  forall out x, flatMapM f l = Ok out -> In x l ->
  exists ys, f x = Ok ys /\ incl ys out.
Proof.
  induction l as [|a l IH]; intros out x H Hin; simpl in *; [contradiction|].
  apply bind_Ok in H; destruct H as (ys & Hys & H).
  apply bind_Ok in H; destruct H as (zs & Hzs & H).
  apply Ok_inj in H; subst out.
  destruct Hin as [->|Hin].
  - exists ys; split; auto using incl_appl, incl_refl.
  - destruct (IH _ _ Hzs Hin) as (ws & Hws & Hincl).
    exists ws; split; auto using incl_appr.
Qed.

Lemma insertBy_Permutation {A : Type} (comparefn : A -> A -> Z) x l :
  Permutation (insertBy comparefn x l) (x :: l).
Proof.
  induction l as [|y l IH]; simpl; auto.
  destruct (comparefn x y <? 0)%Z; auto.
  eapply Permutation_trans; [apply perm_skip, IH | apply perm_swap].
Qed.

Lemma sortBy_Permutation {A : Type} (comparefn : A -> A -> Z) l :
  Permutation (sortBy comparefn l) l.
Proof.
  unfold sortBy.
  assert (H : forall acc,
    Permutation (fold_left (fun sorted x => insertBy comparefn x sorted) l acc)
                (acc ++ l)).
  { induction l as [|x l IH]; intros acc; simpl.
    - now rewrite app_nil_r.
    - eapply Permutation_trans; [apply IH|].
      eapply Permutation_trans;
        [apply Permutation_app_tail, insertBy_Permutation|].
      apply Permutation_middle. }
  apply (H []).
Qed.

Lemma compareKeys_below a b :
  (compareKeys a b <? 0)%Z = true -> keyLe a b.
Proof.
  unfold compareKeys, gtb, keyLe, String.ltb, String.leb.
  rewrite (String.compare_antisym (key a) (key b)).
  destruct (String.compare (key b) (key a)); simpl; auto; discriminate.
Qed.

Lemma compareKeys_above a b :
  (compareKeys a b <? 0)%Z = false -> keyLe b a.
Proof.
  unfold compareKeys, gtb, keyLe, String.ltb, String.leb.
  destruct (String.compare (key b) (key a)); simpl; auto; discriminate.
Qed.

Lemma insertBy_Sorted x l :
  Sorted keyLe l -> Sorted keyLe (insertBy compareKeys x l).
Proof.
  induction 1 as [|y l Hs IH Hhd]; simpl; [repeat constructor|].
  destruct (compareKeys x y <? 0)%Z eqn:Hc.
  - constructor; [constructor; auto|].
    constructor; now apply compareKeys_below.
  - constructor; auto.
    destruct l as [|z l]; simpl.
    + constructor; now apply compareKeys_above.
    + destruct (compareKeys x z <? 0)%Z; constructor.
      * now apply compareKeys_above.
      * now inversion Hhd.
Qed.

Lemma sortBy_Sorted l : Sorted keyLe (sortBy compareKeys l).
Proof.
  unfold sortBy.
  assert (H : forall acc, Sorted keyLe acc ->
    Sorted keyLe
      (fold_left (fun sorted x => insertBy compareKeys x sorted) l acc)).
  { induction l as [|x l IH]; intros acc Hacc; simpl; auto.
    apply IH, insertBy_Sorted, Hacc. }
  apply H; constructor.
Qed.

Lemma Sorted_adjacent {A : Type} (R : A -> A -> Prop) (l : list A) :
  Sorted R l ->
  forall i a b, nth_error l i = Some a -> nth_error l (S i) = Some b -> R a b.
Proof.
  induction 1 as [|x l Hs IH Hhd]; intros i a b Ha Hb.
  - destruct i; discriminate.
  - destruct i as [|i]; simpl in *.
    + injection Ha as <-. destruct l; [discriminate|].
      injection Hb as <-. now inversion Hhd.
    + eapply IH; eauto.
Qed.

(** What a successful [extract] is made of. *)
Lemma extract_Ok fs filesPaths result :
  extract fs filesPaths = Ok result ->
  exists registry found,
    forEachM (collectFunctionsWithTParam fs) filesPaths [] = Ok registry /\
    flatMapM (fun path => getKeys registry path fs) filesPaths = Ok found /\
    result = sortBy compareKeys found.
Proof.
  unfold extract; intros H.
  apply bind_Ok in H; destruct H as (registry & Hreg & H).
  apply bind_Ok in H; destruct H as (found & Hfound & H).
  apply Ok_inj in H; eauto.
Qed.

(** The keys of every file are in the result. *)
Lemma extract_keys fs filesPaths result registry p :
  extract fs filesPaths = Ok result ->
  forEachM (collectFunctionsWithTParam fs) filesPaths [] = Ok registry ->
  In p filesPaths ->
  exists keys, getKeys registry p fs = Ok keys /\ incl keys result.
Proof.
  intros H Hreg Hp.
  apply extract_Ok in H; destruct H as (reg & found & Hreg' & Hfound & ->).
  rewrite Hreg in Hreg'; apply Ok_inj in Hreg'; subst reg.
  destruct (flatMapM_In _ _ _ _ Hfound Hp) as (keys & Hkeys & Hincl).
  exists keys; split; auto.
  intros k Hk; apply Hincl in Hk.
  eapply Permutation_in; [symmetry; apply sortBy_Permutation | exact Hk].
Qed.

(** ** Runs of the parser *)

Example regex_finds_key :
  COMMENT_CONTAINS_STATIC_KEY_REGEX "// t('some.static.key')" =
  Some "some.static.key".
Proof. reflexivity. Qed.

Example regex_needs_key :
  COMMENT_CONTAINS_STATIC_KEY_REGEX "// t('')" = None /\
  COMMENT_CONTAINS_STATIC_KEY_REGEX "// the title" = None.
Proof. split; reflexivity. Qed.

Example literalKeySource_keys :
  extract (oneFile "page.tsx" literalKeySource) ["page.tsx"] =
  Ok [plainKey "page.tsx" "NS" "k"] /\
  key (plainKey "page.tsx" "NS" "k") = "NS.k".
Proof. split; vm_compute; reflexivity. Qed.

Example bareKeySource_keys :
  extract (oneFile "page.tsx" bareKeySource) ["page.tsx"] =
  Ok [plainKey "page.tsx" "" "k"] /\
  key (plainKey "page.tsx" "" "k") = "k".
Proof. split; vm_compute; reflexivity. Qed.

(** The key of a comment is found once for every node the comment leads,
    and the dynamic call adds the placeholder. *)
Example commentedSource_keys :
  extract (oneFile "page.tsx" commentedSource) ["page.tsx"] =
  Ok [dynamicPlaceholder "page.tsx" "NS";
      plainKey "page.tsx" "NS" "a.b.c";
      plainKey "page.tsx" "NS" "a.b.c";
      plainKey "page.tsx" "NS" "a.b.c"].
Proof. vm_compute; reflexivity. Qed.

(** * The specified properties *)

(** ** Ordering of the result *)

Example shadowingSource_keys :
  extract (oneFile "page.tsx" shadowingSource) ["page.tsx"] =
  Ok [plainKey "page.tsx" "Inner" "x"; plainKey "page.tsx" "Outer" "a"].
Proof. vm_compute; reflexivity. Qed.

(** C8.  Whenever [extract] returns, the sequence it returns is in ascending
    order of [key] under ordinal string comparison: the key of every element
    is less than or equal to the key of the element that follows it. *)
Theorem extract_sorted (fs : FileSystem) (filesPaths : list string)
    (result : list FoundKey) :
  extract fs filesPaths = Ok result ->
  forall i a b,
    nth_error result i = Some a -> nth_error result (S i) = Some b ->
    (key a <=? key b)%string = true.
Proof.
  intros H; apply extract_Ok in H; destruct H as (_ & found & _ & _ & ->).
  apply (Sorted_adjacent keyLe), sortBy_Sorted.
Qed.

Lemma extract_sorted_witness :
  extract (oneFile "page.tsx" shadowingSource) ["page.tsx"] =
    Ok [plainKey "page.tsx" "Inner" "x"; plainKey "page.tsx" "Outer" "a"] /\
  ("Inner.x" <=? "Outer.a")%string = true.
Proof.
  split; [vm_compute; reflexivity|].
  exact (extract_sorted (oneFile "page.tsx" shadowingSource) ["page.tsx"]
           _ shadowingSource_keys 0
           (plainKey "page.tsx" "Inner" "x") (plainKey "page.tsx" "Outer" "a")
           eq_refl eq_refl).
Defined.

(** ** Acquisition of a translator *)

Lemma commentKeys_namespaces path n s :
  namespaces (commentKeys path n s) = namespaces s.
Proof.
  unfold commentKeys; generalize (leadingComments n) as l; intros l.
  revert s; induction l as [|c l IH]; intros s; simpl; auto.
  rewrite IH; unfold commentKey.
  destruct (COMMENT_CONTAINS_STATIC_KEY_REGEX c); auto.
  destruct (truthy _); auto.
Qed.

(** At a variable declaration only the declaration block and the comments
    do anything. *)
Lemma enter_VariableDeclaration registry path comments name type init s :
  enter registry path (VariableDeclaration comments name type init) s =
  (s1 <- declareNamespaces (VariableDeclaration comments name type init) s ;;
   Ok (commentKeys path (VariableDeclaration comments name type init) s1)).
Proof.
  unfold enter.
  destruct (declareNamespaces _ s) as [s1|e]; simpl; auto.
  unfold translatorCall, translatorMethodCall.
  destruct (getCurrentNamespaces 1 s1) eqn:E; simpl; rewrite ?E; reflexivity.
Qed.

Lemma object_frames (variable : string) (properties : list Node) s :
  namespaces
    (fold_left
       (fun st property =>
          match namespaceProperty property with
          | Some text => pushNamespace (frame text variable) st
          | None => pushNamespace (frame "" variable) st
          end)
       properties s) =
  namespaces s ++
  map (fun property =>
         frame (match namespaceProperty property with
                | Some text => text
                | None => ""
                end)
               variable)
      properties.
Proof.
  revert s; induction properties as [|p l IH]; intros s; simpl.
  - now rewrite app_nil_r.
  - rewrite IH; destruct (namespaceProperty p); simpl;
      now rewrite <- app_assoc.
Qed.

(** C3, as the code has it.  A declaration [var = useTranslations(arg)] whose
    argument is present and not a string literal pushes no frame, and so
    does [var = await getTranslations(arg)] when the argument is not an
    object or array literal either.  The frame with the empty name is
    pushed when the argument is absent. *)
Theorem acquisition_without_literal (registry : list FunctionWithTParam)
    (path : string) (comments c0 c1 c2 : list string) (name : Node)
    (type : option Node) (arg : Node) (rest : list Node) (s : State) :
  isStringLiteral arg = false ->
  (exists s',
     enter registry path
       (VariableDeclaration comments name type
          (Some (CallExpression c1 (Identifier c2 USE_TRANSLATIONS)
                   (arg :: rest)))) s = Ok s' /\
     namespaces s' = namespaces s) /\
  (isObjectLiteralExpression arg = false ->
   isArrayLiteralExpression arg = false ->
   exists s',
     enter registry path
       (VariableDeclaration comments name type
          (Some (AwaitExpression c0
                   (CallExpression c1 (Identifier c2 GET_TRANSLATIONS)
                      (arg :: rest))))) s = Ok s' /\
     namespaces s' = namespaces s) /\
  (exists s',
     enter registry path
       (VariableDeclaration comments name type
          (Some (CallExpression c1 (Identifier c2 USE_TRANSLATIONS) []))) s
     = Ok s' /\
     namespaces s' = namespaces s ++ [frame "" (boundVariable name)]) /\
  (exists s',
     enter registry path
       (VariableDeclaration comments name type
          (Some (AwaitExpression c0
                   (CallExpression c1 (Identifier c2 GET_TRANSLATIONS) []))))
       s = Ok s' /\
     namespaces s' = namespaces s ++ [frame "" (boundVariable name)]).
Proof.
  intros Hlit; destruct arg; simpl in Hlit; try discriminate;
    repeat split; try intros Hobj Harr; try discriminate;
    rewrite enter_VariableDeclaration; simpl;
    eexists; (split; [reflexivity|]);
    rewrite commentKeys_namespaces; reflexivity.
Qed.

Lemma acquisition_without_literal_witness :
  isStringLiteral (ident "ns") = false /\
  exists s',
    enter [] "page.tsx" useTranslationsOfIdentifier initialState = Ok s' /\
    namespaces s' = namespaces initialState.
Proof.
  split; [reflexivity|].
  exact (proj1 (acquisition_without_literal [] "page.tsx" [] [] [] []
                  (ident "t") None (ident "ns") [] initialState eq_refl)).
Defined.

(** C3 as stated fails: after the whole visit of
    [t = useTranslations(ns)] the stack is still empty, with no frame of
    the empty name on it. *)
Lemma acquisition_pushes_no_empty_frame :
  visit [] "page.tsx" useTranslationsOfIdentifier initialState =
    Ok initialState /\
  ~ In (frame "" "t") (namespaces initialState).
Proof. split; [vm_compute; reflexivity | intros []]. Qed.

(** [var = await getTranslations({ ... })] pushes one frame for every
    property of the object literal, in order: under the text of the literal
    for a property assignment [namespace: <literal>], and under the empty
    name for every other property. *)
Theorem getTranslations_object_frames (registry : list FunctionWithTParam)
    (path : string) (comments c0 c1 c2 c3 : list string) (name : Node)
    (type : option Node) (properties rest : list Node) (s : State) :
  exists s',
    enter registry path
      (VariableDeclaration comments name type
         (Some (AwaitExpression c0
                  (CallExpression c1 (Identifier c2 GET_TRANSLATIONS)
                     (ObjectLiteralExpression c3 properties :: rest))))) s
    = Ok s' /\
    namespaces s' =
    namespaces s ++
    map (fun property =>
           frame (match namespaceProperty property with
                  | Some text => text
                  | None => ""
                  end)
                 (boundVariable name))
        properties.
Proof.
  rewrite enter_VariableDeclaration; simpl.
  eexists; split; [reflexivity|].
  rewrite commentKeys_namespaces; apply object_frames.
Qed.

(** C6, what the code does.  The loop over the properties of the object
    literal has an [else] that pushes a frame with the empty name for every
    property that is not [namespace: <literal>], which the same loop of the
    array-destructured form does not have.  For
    [getTranslations({ locale: 'en', namespace: 'ns' })] two frames are
    pushed, the first of them for [locale].  With the namespace first,
    [getTranslations({ namespace: 'ns', locale: 'en' })], the frame of
    [locale] is the last one, the translator resolves to the empty
    namespace, and [t('k')] yields the key [k], not [ns.k].  Through
    [await Promise.all([...])] the same call pushes the one frame of the
    namespace and the key is [ns.k]. *)
Theorem getTranslations_object_other_property :
  visit [] "page.tsx" getTranslationsOfObject initialState =
    Ok {| namespaces := [frame "" "t"; frame "ns" "t"]; foundKeys := [] |} /\
  visit [] "page.tsx" getTranslationsNamespaceFirst initialState =
    Ok {| namespaces := [frame "ns" "t"; frame "" "t"]; foundKeys := [] |} /\
  extract (oneFile "page.tsx" namespaceFirstSource) ["page.tsx"] =
    Ok [plainKey "page.tsx" "" "k"] /\
  key (plainKey "page.tsx" "" "k") = "k" /\
  extract (oneFile "page.tsx" namespaceFirstInArraySource) ["page.tsx"] =
    Ok [plainKey "page.tsx" "ns" "k"].
Proof. repeat split; vm_compute; reflexivity. Qed.

Lemma array_object_frames (variable : string) (properties : list Node) s :
  namespaces
    (fold_left
       (fun st property =>
          match namespaceProperty property with
          | Some text => pushNamespace (frame text variable) st
          | None => st
          end)
       properties s) =
  namespaces s ++
  map (fun text => frame text variable) (namespaceLiterals properties).
Proof.
  revert s; induction properties as [|p l IH]; intros s; simpl.
  - now rewrite app_nil_r.
  - rewrite IH; destruct (namespaceProperty p); simpl; auto.
    now rewrite <- app_assoc.
Qed.

Lemma acquireGetTranslations_array name comments callee c elements rest s :
  acquireGetTranslations name
    (CallExpression comments callee (ArrayLiteralExpression c elements :: rest))
    s = s.
Proof.
  unfold acquireGetTranslations.
  destruct callee; auto.
  destruct (text =? GET_TRANSLATIONS); reflexivity.
Qed.

(** C9, as the code has it.  The callee of the awaited call is never looked
    at.  When its first argument is an array literal, [i] is the position
    of the first [getTranslations(...)] element in it, and the binding
    pattern has a binding element named by an identifier at [i], the frames
    pushed for that identifier follow the argument of the element: the
    empty name when it is absent, its text when it is a string literal, one
    frame per [namespace: <literal>] property when it is an object literal,
    and no frame otherwise. *)
Theorem array_destructured_acquisition (registry : list FunctionWithTParam)
    (path : string) (comments cb c0 c1 c2 c3 c4 c5 : list string)
    (callee : Node) (elements rest bindings : list Node) (type : option Node)
    (i : nat) (variable : string) (init : option Node) (f : Node)
    (args : list Node) (s : State) :
  findIndex isGetTranslationsCall elements = Some i ->
  nth_error bindings i = Some (BindingElement c3 (Identifier c4 variable) init) ->
  nth_error elements i = Some (CallExpression c5 f args) ->
  exists s',
    enter registry path
      (VariableDeclaration comments (ArrayBindingPattern cb bindings) type
         (Some (AwaitExpression c0
                  (CallExpression c1 callee
                     (ArrayLiteralExpression c2 elements :: rest))))) s
    = Ok s' /\
    namespaces s' =
    namespaces s ++
    match first args with
    | None => [frame "" variable]
    | Some (StringLiteral _ text) => [frame text variable]
    | Some (ObjectLiteralExpression _ properties) =>
        map (fun text => frame text variable) (namespaceLiterals properties)
    | Some _ => []
    end.
Proof.
  intros Hi Hb He.
  rewrite enter_VariableDeclaration.
  unfold declareNamespaces, acquireUseTranslations.
  rewrite acquireGetTranslations_array.
  unfold acquireFromArray; rewrite Hi, Hb, He.
  destruct (first args) as [arg|]; [destruct arg|]; simpl;
    eexists; (split; [reflexivity|]);
    rewrite commentKeys_namespaces; simpl;
    rewrite ?app_nil_r; auto using array_object_frames.
Qed.

Lemma array_destructured_acquisition_witness :
  findIndex isGetTranslationsCall
    [call (ident "load") []; call (ident GET_TRANSLATIONS) [literal "ns"]]
  = Some 1 /\
  exists s',
    enter [] "page.tsx" arrayOfLiteral initialState = Ok s' /\
    namespaces s' = [frame "ns" "t"].
Proof.
  split; [reflexivity|].
  exact (array_destructured_acquisition [] "page.tsx" [] [] [] [] [] [] [] []
           (ident "all")
           [call (ident "load") []; call (ident GET_TRANSLATIONS) [literal "ns"]]
           []
           [BindingElement [] (ident "data") None;
            BindingElement [] (ident "t") None]
           None 1 "t" None (ident GET_TRANSLATIONS) [literal "ns"]
           initialState eq_refl eq_refl eq_refl).
Defined.

(** C9 as stated fails: the array holds a [getTranslations(...)] element and
    the pattern a variable at its position, and no frame is pushed. *)
Lemma array_destructured_without_frame :
  visit [] "page.tsx" arrayOfIdentifier initialState = Ok initialState /\
  namespaces initialState = [].
Proof. split; [vm_compute; reflexivity | reflexivity]. Qed.

(** ** Helper functions that take a translator *)

Lemma find_first_registered (fname : string)
    (before after : list FunctionWithTParam) (winner : FunctionWithTParam) :
  functionName winner = fname ->
  (forall g, In g before -> functionName g <> fname) ->
  find (fun g => functionName g =? fname) (before ++ winner :: after) =
  Some winner.
Proof.
  intros Hw Hb; induction before as [|g before IH]; simpl.
  - now rewrite Hw, String.eqb_refl.
  - destruct (functionName g =? fname) eqn:E.
    + apply String.eqb_eq in E; exfalso; apply (Hb g); simpl; auto.
    + apply IH; intros h Hh; apply Hb; simpl; auto.
Qed.

(** C4, as the code has it.  When several records of the registry carry the
    name that is called, the call is resolved with the one registered
    first: the keys pushed are the keys of that record, under the namespace
    of the inline [useTranslations(<literal>)] argument, or of the frame an
    identifier argument resolves to. *)
Theorem first_registration_wins (registry : list FunctionWithTParam)
    (path : string) (before after : list FunctionWithTParam)
    (winner : FunctionWithTParam) (fname : string)
    (comments c1 : list string) (rest : list Node) (s : State) :
  registry = before ++ winner :: after ->
  functionName winner = fname ->
  (forall g, In g before -> functionName g <> fname) ->
  (forall c2 c3 c4 namespace inner,
     callTrackedFunction registry path
       (CallExpression comments (Identifier c1 fname)
          (CallExpression c2 (Identifier c3 USE_TRANSLATIONS)
             (StringLiteral c4 namespace :: inner) :: rest)) s =
     {| namespaces := namespaces s;
        foundKeys :=
          foundKeys s ++ map (plainKey path namespace) (keysUsed winner) |})
  /\
  (forall c2 variableName bound,
     getCurrentNamespaceForIdentifier variableName s = Some bound ->
     callTrackedFunction registry path
       (CallExpression comments (Identifier c1 fname)
          (Identifier c2 variableName :: rest)) s =
     {| namespaces := namespaces s;
        foundKeys :=
          foundKeys s ++
          map (plainKey path (Namespace.name bound)) (keysUsed winner) |}).
Proof.
  intros -> Hw Hb; split; intros; unfold callTrackedFunction;
    rewrite (find_first_registered fname before after winner Hw Hb); simpl.
  - apply pushKeysUsed_spec.
  - rewrite H; apply pushKeysUsed_spec.
Qed.

Lemma first_registration_wins_witness :
  functionName firstSchema = functionName lastSchema /\
  callTrackedFunction [firstSchema; lastSchema] "b.ts"
    (call (ident "schema") [call (ident USE_TRANSLATIONS) [literal "Form"]])
    initialState =
  {| namespaces := []; foundKeys := [plainKey "b.ts" "Form" "first"] |}.
Proof.
  split; [reflexivity|].
  exact (proj1
    (first_registration_wins [firstSchema; lastSchema] "b.ts" [] [lastSchema]
       firstSchema "schema" [] [] [] initialState eq_refl eq_refl
       (fun g (H : In g []) => match H with end))
    [] [] [] "Form" []).
Defined.

(** C4 as stated fails: [schema] is registered from [a.ts] and then from
    [b.ts]; the call in [b.ts] yields the key of the record registered
    first, and not the key of the one registered last. *)
Lemma last_registration_does_not_win :
  forEachM (collectFunctionsWithTParam schemaFiles) ["a.ts"; "b.ts"] [] =
    Ok [firstSchema; lastSchema] /\
  extract schemaFiles ["a.ts"; "b.ts"] =
    Ok [plainKey "b.ts" "Form" "first"] /\
  ~ In (plainKey "b.ts" "Form" "last") [plainKey "b.ts" "Form" "first"].
Proof.
  repeat split; try (vm_compute; reflexivity).
  intros [H|[]]; discriminate H.
Qed.

(** ** Calls through a translator *)

Lemma callTrackedFunction_namespaces registry path n s :
  namespaces (callTrackedFunction registry path n s) = namespaces s.
Proof.
  unfold callTrackedFunction.
  repeat match goal with
    | |- namespaces (pushKeysUsed _ _ _ _) = _ =>
        rewrite pushKeysUsed_spec; simpl
    | |- namespaces (let _ := _ in _) = _ => cbv zeta
    | |- namespaces (match ?x with _ => _ end) = _ => destruct x
    | |- namespaces (if ?x then _ else _) = _ => destruct x
    end; auto.
Qed.


(** Resolution and the test for a non-empty stack read the stack only. *)
Lemma resolve_namespaces name s1 s2 :
  namespaces s1 = namespaces s2 ->
  getCurrentNamespaceForIdentifier name s1 =
  getCurrentNamespaceForIdentifier name s2.
Proof. unfold getCurrentNamespaceForIdentifier; now intros ->. Qed.

Lemma current_namespaces range s1 s2 :
  namespaces s1 = namespaces s2 ->
  getCurrentNamespaces range s1 = getCurrentNamespaces range s2.
Proof. unfold getCurrentNamespaces; now intros ->. Qed.

Lemma resolved_nonempty name s bound :
  getCurrentNamespaceForIdentifier name s = Some bound ->
  exists l, getCurrentNamespaces 1 s = Some l.
Proof.
  unfold getCurrentNamespaceForIdentifier, getCurrentNamespaces.
  destruct (namespaces s); simpl; [discriminate | eauto].
Qed.

(** A call through a translator with a non-literal key: the stack is
    marked under the name of the frame the translator resolves to. *)
Lemma enter_dynamic_call registry path comments callee arg rest s v bound :
  translatorOf callee = Some v ->
  isNonLiteralKey arg = true ->
  getCurrentNamespaceForIdentifier v s = Some bound ->
  exists s',
    enter registry path (CallExpression comments callee (arg :: rest)) s
    = Ok s' /\
    namespaces s' = map (markDynamic (Namespace.name bound)) (namespaces s).
Proof.
  intros Hv Harg Hres; unfold enter.
  simpl declareNamespaces. cbn [bind].
  set (s1 := callTrackedFunction registry path _ s).
  assert (Hns : namespaces s1 = namespaces s)
    by apply callTrackedFunction_namespaces.
  rewrite <- (resolve_namespaces v s1 s Hns) in Hres.
  destruct (resolved_nonempty _ _ _ Hres) as (l & Hl).
  simpl inlineCall.
  unfold translatorCall, translatorMethodCall; rewrite Hl.
  assert (Hl' : getCurrentNamespaces 1 (setNamespaceAsDynamic (Namespace.name bound) s1) = Some (map (markDynamic (Namespace.name bound)) l)).
  { revert Hl; unfold getCurrentNamespaces; simpl; rewrite length_map.
    destruct (0 <? length (namespaces s1))%nat; [|discriminate].
    intros [= <-]. now rewrite skipn_map. }
  destruct callee as [c v'| | | |c obj nm| | | | | | | | | | | | |];
    try discriminate.
  - injection Hv as ->. unfold useTranslator; rewrite Hres; simpl.
    destruct arg; try discriminate; simpl; rewrite Hl'; simpl;
      eexists; (split; [reflexivity|]);
      rewrite commentKeys_namespaces; simpl; now rewrite Hns.
  - destruct obj; try discriminate. injection Hv as ->.
    unfold useTranslator; rewrite Hres; simpl.
    destruct arg; try discriminate; simpl; rewrite Hl; simpl;
      eexists; (split; [reflexivity|]);
      rewrite commentKeys_namespaces; simpl; now rewrite Hns.
Qed.

Lemma markDynamic_fields name f :
  Namespace.name (markDynamic name f) = Namespace.name f /\
  Namespace.variable (markDynamic name f) = Namespace.variable f /\
  Namespace.dynamic (markDynamic name f) =
  Namespace.dynamic f || (Namespace.name f =? name).
Proof.
  unfold markDynamic; destruct (Namespace.name f =? name); simpl;
    repeat split; auto using orb_true_r, orb_false_r.
Qed.

(** C10.  When a call through a translator variable,
    [v(arg)] or [v.method(arg)], has an identifier or a template expression
    for its key, every frame of the stack whose name is the name of the
    frame [v] resolves to becomes dynamic, whatever variable it is bound
    to; every other frame keeps its flag; all frames keep their name and
    variable.  And over the visit of any node, every frame that was on the
    stack is still at its index with the same name and variable, and
    dynamic if it was. *)
Theorem dynamic_marking_by_name (registry : list FunctionWithTParam)
    (path : string) (comments : list string) (callee arg : Node)
    (rest : list Node) (s : State) (v : string) (bound : Namespace.t) :
  translatorOf callee = Some v ->
  isNonLiteralKey arg = true ->
  getCurrentNamespaceForIdentifier v s = Some bound ->
  (exists s',
     enter registry path (CallExpression comments callee (arg :: rest)) s
     = Ok s' /\
     length (namespaces s') = length (namespaces s) /\
     forall i f, nth_error (namespaces s) i = Some f ->
       exists g,
         nth_error (namespaces s') i = Some g /\
         Namespace.name g = Namespace.name f /\
         Namespace.variable g = Namespace.variable f /\
         Namespace.dynamic g =
         Namespace.dynamic f || (Namespace.name f =? Namespace.name bound))
  /\
  (forall n s0 s1, visit registry path n s0 = Ok s1 ->
     forall i f, nth_error (namespaces s0) i = Some f ->
       exists g,
         nth_error (namespaces s1) i = Some g /\
         Namespace.name g = Namespace.name f /\
         Namespace.variable g = Namespace.variable f /\
         (Namespace.dynamic f = true -> Namespace.dynamic g = true)).
Proof.
  intros Hv Harg Hres; split.
  - destruct (enter_dynamic_call registry path comments callee arg rest s
                v bound Hv Harg Hres) as (s' & Henter & Hns).
    exists s'; split; [exact Henter|]; rewrite Hns; split.
    + apply length_map.
    + intros i f Hf; exists (markDynamic (Namespace.name bound) f).
      rewrite nth_error_map, Hf; split; [reflexivity|].
      apply markDynamic_fields.
  - intros n s0 s1 Hvisit i f Hf.
    apply visit_advances in Hvisit; destruct Hvisit as [[Hext _] _].
    destruct (extends_nth _ _ _ _ Hext Hf) as (g & Hg & Hn & Hvar & Hdyn).
    exists g; auto.
Qed.

Lemma dynamic_marking_by_name_witness :
  translatorOf (ident "u") = Some "u" /\
  isNonLiteralKey (ident "key") = true /\
  getCurrentNamespaceForIdentifier "u" sharedNameStack
  = Some (frame "NS" "u") /\
  exists s',
    enter [] "page.tsx" (call (ident "u") [ident "key"]) sharedNameStack
    = Ok s' /\
    namespaces s' =
    [asDynamic (frame "NS" "t"); frame "Other" "o";
     asDynamic (frame "NS" "u")].
Proof.
  repeat (split; [reflexivity|]).
  destruct (proj1 (dynamic_marking_by_name [] "page.tsx" [] (ident "u")
                     (ident "key") [] sharedNameStack "u" (frame "NS" "u")
                     eq_refl eq_refl eq_refl))
    as (s' & Henter & _ & _).
  exists s'; split; [exact Henter|].
  vm_compute in Henter; injection Henter as <-; reflexivity.
Defined.

(** The marking is set off by an identifier or a template expression and
    by nothing else: after [t(keys.title)], a key that is a property
    access, the frame of [t] is not dynamic, and a function that makes this
    call yields no placeholder. *)
Lemma dynamic_marking_skips_other_keys :
  visit [] "page.tsx" (call (ident "t") [access (ident "keys") "title"])
    {| namespaces := [frame "NS" "t"]; foundKeys := [] |} =
    Ok {| namespaces := [frame "NS" "t"]; foundKeys := [] |} /\
  Namespace.dynamic (frame "NS" "t") = false /\
  extract (oneFile "page.tsx" propertyKeySource) ["page.tsx"] = Ok [].
Proof. repeat split; vm_compute; reflexivity. Qed.

(** ** Visits of plain syntax *)

Lemma leave_not_functionLike path n k s :
  isFunctionLike n = false -> leave path n k s = s.
Proof. unfold leave; now intros ->. Qed.

Lemma bind_Ok_r {A : Type} (m : Result A) : (x <- m ;; Ok x) = m.
Proof. now destruct m. Qed.

Lemma visit_Identifier registry path text s :
  visit registry path (Identifier [] text) s = Ok s.
Proof.
  rewrite visit_eq; unfold enter, translatorCall, translatorMethodCall; simpl.
  destruct (getCurrentNamespaces 1 s) eqn:E; simpl; rewrite ?E; reflexivity.
Qed.

Lemma visit_StringLiteral registry path text s :
  visit registry path (StringLiteral [] text) s = Ok s.
Proof.
  rewrite visit_eq; unfold enter, translatorCall, translatorMethodCall; simpl.
  destruct (getCurrentNamespaces 1 s) eqn:E; simpl; rewrite ?E; reflexivity.
Qed.

(** A node of a kind the parser does not know, without comments and not
    function-like, is only walked through. *)
Lemma visit_OtherNode registry path members s :
  visit registry path (OtherNode [] false members) s =
  eachNodeM (visit registry path) members s.
Proof.
  rewrite visit_eq; unfold enter, translatorCall, translatorMethodCall; simpl.
  destruct (getCurrentNamespaces 1 s) eqn:E; simpl; rewrite ?E; simpl;
    apply bind_Ok_r.
Qed.

Lemma emitKey_namespaces path key s :
  namespaces (emitKey path key s) = namespaces s.
Proof. unfold emitKey; destruct key as [[? ?]|]; reflexivity. Qed.

(** A call whose first argument is absent or a string literal leaves the
    stack as it is. *)
Lemma visit_static_call registry path callee args s s' :
  args = [] \/ (exists text, args = [literal text]) ->
  visit registry path (call (ident callee) args) s = Ok s' ->
  namespaces s' = namespaces s.
Proof.
  intros Hargs H; rewrite visit_eq in H.
  apply bind_Ok in H; destruct H as (s1 & Henter & H).
  assert (H1 : namespaces s1 = namespaces s).
  { revert Henter; unfold enter; simpl declareNamespaces; cbn [bind].
    set (s0 := callTrackedFunction _ _ _ s).
    assert (H0 : namespaces s0 = namespaces s)
      by apply callTrackedFunction_namespaces.
    simpl inlineCall.
    unfold translatorCall, translatorMethodCall, useTranslator.
    destruct Hargs as [->|(text & ->)]; simpl;
      destruct (getCurrentNamespaces 1 s0) eqn:E; simpl;
      try destruct (getCurrentNamespaceForIdentifier callee s0);
      simpl; rewrite ?E; simpl; intros [= <-];
      rewrite ?emitKey_namespaces; simpl; assumption. }
  assert (H2 : eachNodeM (visit registry path)
                 (childrenOf (call (ident callee) args)) s1 = Ok s1).
  { destruct Hargs as [->|(text & ->)]; unfold call, ident, literal;
      cbn [childrenOf eachNodeM];
      rewrite visit_Identifier; cbn [bind]; rewrite ?visit_StringLiteral;
      reflexivity. }
  rewrite H2 in H; simpl in H; apply Ok_inj in H; subst s'.
  now rewrite leave_not_functionLike.
Qed.


(** Outside function-like nodes nothing happens after the children. *)
Lemma visit_plain registry path n s :
  isFunctionLike n = false ->
  visit registry path n s =
  (s1 <- enter registry path n s ;;
   eachNodeM (visit registry path) (childrenOf n) s1).
Proof.
  intros Hn; rewrite visit_eq.
  destruct (enter registry path n s) as [s1|]; simpl; auto.
  destruct (eachNodeM _ _ s1) as [s2|]; simpl; auto.
  now rewrite leave_not_functionLike.
Qed.

Lemma visit_variableStatement registry path declaration s :
  visit registry path (variableStatement declaration) s =
  visit registry path declaration s.
Proof.
  unfold variableStatement.
  rewrite visit_OtherNode; cbn [eachNodeM]; rewrite bind_Ok_r.
  rewrite visit_OtherNode; cbn [eachNodeM]; now rewrite bind_Ok_r.
Qed.

(** A declaration [<v> = <callee>(<args>)] whose arguments are absent or one
    string literal: what the declaration block pushes stays on top. *)
Lemma visit_const_call registry path v callee args s s' :
  args = [] \/ (exists text, args = [literal text]) ->
  visit registry path (const (ident v) (call (ident callee) args)) s = Ok s' ->
  exists s1,
    declareNamespaces
      (VariableDeclaration [] (ident v) None
         (Some (call (ident callee) args))) s = Ok s1 /\
    namespaces s' = namespaces s1.
Proof.
  intros Hargs; unfold const.
  rewrite visit_variableStatement, visit_plain by reflexivity.
  intros H; apply bind_Ok in H; destruct H as (s1 & Henter & H).
  rewrite enter_VariableDeclaration in Henter.
  apply bind_Ok in Henter; destruct Henter as (s0 & Hdecl & Henter).
  apply Ok_inj in Henter; subst s1.
  exists s0; split; [exact Hdecl|].
  cbn [childrenOf optional app eachNodeM commentKeys leadingComments fold_left]
    in H.
  unfold ident at 1 in H; rewrite visit_Identifier in H; cbn [bind] in H.
  rewrite bind_Ok_r in H.
  now apply visit_static_call in H.
Qed.

(** [const <v> = useTranslations('<NS>');] pushes its frame on top. *)
Lemma visit_const_useTranslations registry path v NS s s' :
  visit registry path
    (const (ident v) (call (ident USE_TRANSLATIONS) [literal NS])) s = Ok s' ->
  namespaces s' = namespaces s ++ [frame NS v].
Proof.
  intros H; apply visit_const_call in H; [|right; eauto].
  destruct H as (s1 & Hdecl & ->).
  simpl in Hdecl; apply Ok_inj in Hdecl; now subst s1.
Qed.

(** [const key = compute();] leaves the stack as it is. *)
Lemma visit_const_compute registry path s s' :
  visit registry path (const (ident "key") (call (ident "compute") [])) s
  = Ok s' ->
  namespaces s' = namespaces s.
Proof.
  intros H; apply visit_const_call in H; [|left; eauto].
  destruct H as (s1 & Hdecl & ->).
  simpl in Hdecl; apply Ok_inj in Hdecl; now subst s1.
Qed.

Lemma resolve_top v f below keys :
  Namespace.variable f = v ->
  getCurrentNamespaceForIdentifier v
    {| namespaces := below ++ [f]; foundKeys := keys |} = Some f.
Proof.
  intros Hf; unfold getCurrentNamespaceForIdentifier; simpl.
  rewrite rev_app_distr; simpl.
  apply String.eqb_eq in Hf; now rewrite Hf.
Qed.

(** [t(key);] with [t] resolving to [bound]: the stack is marked. *)
Lemma visit_dynamic_statement registry path v k s s' bound :
  getCurrentNamespaceForIdentifier v s = Some bound ->
  visit registry path (statement (call (ident v) [ident k])) s = Ok s' ->
  namespaces s' = map (markDynamic (Namespace.name bound)) (namespaces s).
Proof.
  intros Hres; unfold statement; rewrite visit_plain by reflexivity.
  intros H; apply bind_Ok in H; destruct H as (s1 & Henter & H).
  assert (s1 = s).
  { revert Henter; unfold enter, translatorCall, translatorMethodCall; simpl.
    destruct (getCurrentNamespaces 1 s) eqn:E; simpl; rewrite ?E;
      now intros [= <-]. }
  subst s1. cbn [childrenOf eachNodeM] in H.
  rewrite bind_Ok_r, visit_plain in H by reflexivity.
  apply bind_Ok in H; destruct H as (s1 & Hcall & H).
  destruct (enter_dynamic_call registry path [] (ident v) (ident k) [] s v
              bound eq_refl eq_refl Hres) as (s2 & Hcall' & Hns).
  unfold call in Hcall; rewrite Hcall' in Hcall; apply Ok_inj in Hcall; subst s2.
  unfold call, ident in H; cbn [childrenOf eachNodeM] in H.
  rewrite visit_Identifier in H; cbn [bind] in H.
  rewrite visit_Identifier in H; cbn [bind] in H.
  apply Ok_inj in H; now subst s'.
Qed.

(** The three statements together: the frame of [NS] is on top, dynamic,
    over the marked stack. *)
Lemma visit_dynamicSnippet registry path NS s s' :
  eachNodeM (visit registry path) (dynamicSnippet NS) s = Ok s' ->
  namespaces s' =
  map (markDynamic NS) (namespaces s) ++ [asDynamic (frame NS "t")].
Proof.
  unfold dynamicSnippet; cbn [eachNodeM]; intros H.
  apply bind_Ok in H; destruct H as (s1 & H1 & H).
  apply bind_Ok in H; destruct H as (s2 & H2 & H).
  apply bind_Ok in H; destruct H as (s3 & H3 & H).
  apply Ok_inj in H; subst s3.
  apply visit_const_useTranslations in H1.
  apply visit_const_compute in H2; rewrite H1 in H2.
  apply (visit_dynamic_statement _ _ _ _ _ _ (frame NS "t")) in H3.
  - rewrite H3, H2, map_app; simpl; unfold markDynamic at 2; simpl.
    now rewrite String.eqb_refl.
  - destruct s2 as [ns2 keys2]; simpl in H2; subst ns2.
    now apply resolve_top.
Qed.

Lemma find_rev_last {A : Type} (p : A -> bool) (below above : list A) (f : A) :
  p f = true -> (forall g, In g above -> p g = false) ->
  find p (rev (below ++ f :: above)) = Some f.
Proof.
  intros Hf Habove; rewrite rev_app_distr; simpl; rewrite <- app_assoc; simpl.
  assert (H : forall l, (forall g, In g l -> p g = false) ->
                        find p (l ++ f :: rev below) = Some f).
  { induction l as [|g l IH]; intros Hl; simpl.
    - now rewrite Hf.
    - rewrite (Hl g) by (now left). apply IH; intros h Hh; apply Hl; now right. }
  apply H; intros g Hg; apply Habove; now apply in_rev.
Qed.

Lemma resolve_last v below above f keys :
  Namespace.variable f = v ->
  (forall g, In g above -> Namespace.variable g <> v) ->
  getCurrentNamespaceForIdentifier v
    {| namespaces := below ++ f :: above; foundKeys := keys |} = Some f.
Proof.
  intros Hf Habove; unfold getCurrentNamespaceForIdentifier; simpl.
  apply find_rev_last.
  - now apply String.eqb_eq.
  - intros g Hg; apply String.eqb_neq; auto.
Qed.

Lemma callTrackedFunction_literal registry path comments callee c text rest s :
  callTrackedFunction registry path
    (CallExpression comments callee (StringLiteral c text :: rest)) s = s.
Proof.
  unfold callTrackedFunction. destruct callee; auto.
  destruct (find _ registry); reflexivity.
Qed.

(** ** The dynamic-key example *)

Lemma marked_extends NS depth old new :
  marked NS depth old -> extends old new -> marked NS depth new.
Proof.
  intros (i & f & Hi & Hf & Hn & Hd) Hext.
  destruct (extends_nth _ _ _ _ Hext Hf) as (g & Hg & Hgn & _ & Hgd).
  exists i, g; repeat split; auto; congruence.
Qed.

Lemma marked_le NS depth depth' stack :
  depth' <= depth -> marked NS depth stack -> marked NS depth' stack.
Proof.
  intros Hle (i & f & Hi & H); exists i, f; split; [lia | exact H].
Qed.

(** Once the statements of the example have been visited below [n], with no
    function-like node in between, the dynamic frame is on the stack when
    the children of [n] are done. *)
Lemma descend_marks registry path NS B before after :
  childrenOf B = before ++ dynamicSnippet NS ++ after ->
  forall n, scopedIn B n ->
  forall s s2,
    (s1 <- enter registry path n s ;;
     eachNodeM (visit registry path) (childrenOf n) s1) = Ok s2 ->
    marked NS (length (namespaces s)) (namespaces s2).
Proof.
  intros HB n Hscope; induction Hscope as [|n c Hin Hc Hscope IH];
    intros s s2 H;
    apply bind_Ok in H; destruct H as (s1 & Henter & H);
    apply enter_advances in Henter; destruct Henter as [Henter _];
    pose proof (extends_length _ _ Henter) as Hlen.
  - rewrite HB, eachNodeM_app in H.
    apply bind_Ok in H; destruct H as (sa & Hbefore & H).
    rewrite (eachNodeM_app _ (dynamicSnippet NS) after) in H.
    apply bind_Ok in H; destruct H as (sb & Hsnippet & Hafter).
    apply eachNodeM_visit_advances in Hbefore; destruct Hbefore as [Hbefore _].
    apply eachNodeM_visit_advances in Hafter; destruct Hafter as [Hafter _].
    apply visit_dynamicSnippet in Hsnippet.
    apply extends_length in Hbefore.
    eapply marked_extends; [|exact Hafter].
    exists (length (namespaces sa)), (asDynamic (frame NS "t")).
    repeat split; [lia|].
    rewrite Hsnippet, nth_error_app2 by (rewrite length_map; lia).
    now rewrite length_map, Nat.sub_diag.
  - apply in_split in Hin; destruct Hin as (l1 & l2 & Hl).
    rewrite Hl, eachNodeM_app in H; simpl in H.
    apply bind_Ok in H; destruct H as (sa & Hl1 & H).
    apply bind_Ok in H; destruct H as (sb & Hvisit & Hl2).
    apply eachNodeM_visit_advances in Hl1; destruct Hl1 as [Hl1 _].
    apply eachNodeM_visit_advances in Hl2; destruct Hl2 as [Hl2 _].
    apply extends_length in Hl1.
    rewrite visit_plain in Hvisit by exact Hc.
    apply IH in Hvisit.
    eapply marked_extends; [|exact Hl2].
    eapply marked_le; [|exact Hvisit]. lia.
Qed.

(** The function-like node that holds the example emits the placeholder
    when it is left. *)
Lemma visit_scope_exit registry path NS B before after F s s' :
  childrenOf B = before ++ dynamicSnippet NS ++ after ->
  scopedIn B F -> isFunctionLike F = true ->
  visit registry path F s = Ok s' ->
  exists s2 kept added,
    (s1 <- enter registry path F s ;;
     eachNodeM (visit registry path) (childrenOf F) s1) = Ok s2 /\
    namespaces s2 = kept ++ added /\
    length kept = length (namespaces s) /\
    s' = {| namespaces := kept;
            foundKeys := foundKeys s2 ++
                         map (placeholder path)
                             (filter Namespace.dynamic added) |} /\
    In (dynamicPlaceholder path NS)
       (map (placeholder path) (filter Namespace.dynamic added)).
Proof.
  intros HB Hscope HF H; rewrite visit_eq in H.
  destruct (enter registry path F s) as [s1|] eqn:Henter; [|discriminate].
  cbn [bind] in H.
  destruct (eachNodeM _ _ s1) as [s2|] eqn:Hkids; [|discriminate].
  cbn [bind] in H; apply Ok_inj in H.
  assert (Hdescend : (s1 <- enter registry path F s ;;
            eachNodeM (visit registry path) (childrenOf F) s1) = Ok s2)
    by (rewrite Henter; exact Hkids).
  pose proof (descend_marks registry path NS B before after HB F Hscope
                s s2 Hdescend) as (i & f & Hi & Hf & Hn & Hd).
  assert (Hadv : advances s s2).
  { eapply advances_trans; [eapply enter_advances; eauto|].
    eapply eachNodeM_visit_advances; eauto. }
  destruct Hadv as [(kept & added & Hns & Hst) _].
  pose proof (Forall2_length Hst) as Hlen.
  rewrite (leave_spec path F _ _ _ _ Hns (eq_sym Hlen)), HF in H.
  exists s2, kept, added; repeat split; auto.
  rewrite Hns, nth_error_app2 in Hf by lia.
  apply nth_error_In in Hf.
  apply in_map_iff; exists f; split.
  - unfold placeholder, dynamicPlaceholder; now rewrite Hn.
  - apply filter_In; auto.
Qed.

(** The call [t(key)] itself adds no key, unless [t] also names a registered
    helper. *)
Lemma visit_dynamic_statement_keys registry path s s' :
  find (fun f => functionName f =? "t") registry = None ->
  visit registry path (statement (call (ident "t") [ident "key"])) s = Ok s' ->
  foundKeys s' = foundKeys s.
Proof.
  intros Hreg; unfold statement; rewrite visit_plain by reflexivity.
  intros H; apply bind_Ok in H; destruct H as (s1 & Henter & H).
  assert (s1 = s).
  { revert Henter; unfold enter, translatorCall, translatorMethodCall; simpl.
    destruct (getCurrentNamespaces 1 s) eqn:E; simpl; rewrite ?E;
      now intros [= <-]. }
  subst s1. cbn [childrenOf eachNodeM] in H.
  rewrite bind_Ok_r, visit_plain in H by reflexivity.
  apply bind_Ok in H; destruct H as (s1 & Hcall & H).
  unfold call, ident in H; cbn [childrenOf eachNodeM] in H.
  rewrite visit_Identifier in H; cbn [bind] in H.
  rewrite visit_Identifier in H; cbn [bind] in H.
  apply Ok_inj in H; subst s'.
  revert Hcall; unfold enter, call, ident; simpl declareNamespaces; cbn [bind].
  unfold callTrackedFunction; rewrite Hreg; simpl inlineCall.
  unfold translatorCall, translatorMethodCall, useTranslator.
  destruct (getCurrentNamespaces 1 s) eqn:E; simpl;
    [destruct (getCurrentNamespaceForIdentifier "t" s); simpl|];
    rewrite ?E; simpl;
    repeat match goal with
      | |- context [getCurrentNamespaces 1 ?x] =>
          destruct (getCurrentNamespaces 1 x); simpl
      end;
    now intros [= <-].
Qed.

Example dynamicSource_keys :
  extract (oneFile "page.tsx" dynamicSource) ["page.tsx"] =
  Ok [dynamicPlaceholder "page.tsx" "NS"].
Proof. vm_compute; reflexivity. Qed.

(** C5, as the code has it.  When the three statements
    [const t = useTranslations('NS'); const key = compute(); t(key);] stand
    in a node [B] that lies in a function-like node [F], with no other
    function-like node between the two, the result of [extract] holds the
    placeholder of [NS] with [dynamic = true]; the visit of [F] adds it
    after the children of [F] are done, when [F] is left; and the visit of
    the statement [t(key);] adds no key, provided [t] does not also name a
    registered helper. *)
Theorem dynamic_placeholder_at_scope_exit (fs : FileSystem)
    (filesPaths : list string) (result : list FoundKey) (path : string)
    (sourceFile : SourceFile) (F B : Node) (before after : list Node)
    (NS : string) :
  extract fs filesPaths = Ok result ->
  In path filesPaths -> fs path = Some sourceFile ->
  occursInFile F sourceFile -> isFunctionLike F = true -> scopedIn B F ->
  childrenOf B = before ++ dynamicSnippet NS ++ after ->
  In (dynamicPlaceholder path NS) result /\
  (forall registry s s',
     visit registry path F s = Ok s' ->
     exists s2 atExit,
       (s1 <- enter registry path F s ;;
        eachNodeM (visit registry path) (childrenOf F) s1) = Ok s2 /\
       foundKeys s' = foundKeys s2 ++ atExit /\
       In (dynamicPlaceholder path NS) atExit) /\
  (forall registry s s',
     find (fun f => functionName f =? "t") registry = None ->
     visit registry path (statement (call (ident "t") [ident "key"])) s
     = Ok s' ->
     foundKeys s' = foundKeys s).
Proof.
  intros Hextract Hpath Hfs HF Hlike Hscope HB.
  assert (Hexit : forall registry s s',
     visit registry path F s = Ok s' ->
     exists s2 atExit,
       (s1 <- enter registry path F s ;;
        eachNodeM (visit registry path) (childrenOf F) s1) = Ok s2 /\
       foundKeys s' = foundKeys s2 ++ atExit /\
       In (dynamicPlaceholder path NS) atExit).
  { intros registry s s' Hvisit.
    destruct (visit_scope_exit registry path NS B before after F s s'
                HB Hscope Hlike Hvisit)
      as (s2 & kept & added & Hdescend & _ & _ & -> & Hin).
    exists s2, (map (placeholder path) (filter Namespace.dynamic added)).
    auto. }
  split; [|split; [exact Hexit|]];
    [|intros registry s s'; apply visit_dynamic_statement_keys].
  pose proof Hextract as Hparts.
  apply extract_Ok in Hparts; destruct Hparts as (registry & _ & Hreg & _).
  destruct (extract_keys fs filesPaths result registry path Hextract Hreg Hpath)
    as (keys & Hkeys & Hincl).
  destruct (getKeys_reaches registry path fs F sourceFile keys Hkeys Hfs HF)
    as (sd & sd' & Hvisit & Happ).
  apply Hincl; eapply appended_In; [exact Happ|].
  destruct (Hexit _ _ _ Hvisit) as (s2 & atExit & _ & -> & Hin).
  apply in_or_app; now right.
Qed.

Lemma dynamic_placeholder_at_scope_exit_witness :
  extract (oneFile "page.tsx" dynamicSource) ["page.tsx"] =
    Ok [dynamicPlaceholder "page.tsx" "NS"] /\
  isFunctionLike (functionDeclaration "Page" (dynamicSnippet "NS")) = true /\
  scopedIn (block (dynamicSnippet "NS"))
           (functionDeclaration "Page" (dynamicSnippet "NS")) /\
  In (dynamicPlaceholder "page.tsx" "NS") [dynamicPlaceholder "page.tsx" "NS"].
Proof.
  assert (Hscope : scopedIn (block (dynamicSnippet "NS"))
                     (functionDeclaration "Page" (dynamicSnippet "NS"))).
  { eapply scoped_below;
      [right; left; reflexivity | reflexivity | constructor]. }
  split; [vm_compute; reflexivity|].
  split; [reflexivity|]; split; [exact Hscope|].
  refine (proj1 (dynamic_placeholder_at_scope_exit
            (oneFile "page.tsx" dynamicSource) ["page.tsx"] _ "page.tsx"
            dynamicSource (functionDeclaration "Page" (dynamicSnippet "NS"))
            (block (dynamicSnippet "NS")) [] [] "NS"
            dynamicSource_keys _ eq_refl _ eq_refl Hscope eq_refl)).
  - now left.
  - exists (functionDeclaration "Page" (dynamicSnippet "NS")); split;
      [now left | constructor].
Defined.

(** C5 as stated fails: with the three statements at the top level of the
    file no function-like node is ever left, and nothing is emitted. *)
Lemma dynamic_placeholder_needs_scope :
  extract (oneFile "page.tsx" (dynamicSnippet "NS" ++ [endOfFile]))
          ["page.tsx"] = Ok [] /\
  ~ In (dynamicPlaceholder "page.tsx" "NS") [].
Proof. split; [vm_compute; reflexivity | intros []]. Qed.

(** ** Shadowing *)

(** The call site [v('x')] with [v] resolving to [bound]: one key, under the
    name of [bound]. *)
Lemma visit_literal_call registry path v x s bound :
  getCurrentNamespaceForIdentifier v s = Some bound ->
  visit registry path (call (ident v) [literal x]) s =
  Ok {| namespaces := namespaces s;
        foundKeys := foundKeys s ++ [plainKey path (Namespace.name bound) x] |}.
Proof.
  intros Hres.
  destruct (resolved_nonempty _ _ _ Hres) as (l & Hcur).
  unfold call, ident, literal.
  rewrite visit_plain by reflexivity; unfold enter.
  simpl declareNamespaces; cbn [bind].
  rewrite callTrackedFunction_literal; simpl inlineCall.
  unfold translatorCall, translatorMethodCall; rewrite Hcur.
  unfold useTranslator; rewrite Hres; simpl first; cbv iota beta.
  rewrite Hcur; unfold emitKey; rewrite Hres.
  cbn [bind childrenOf eachNodeM commentKeys leadingComments fold_left].
  rewrite visit_Identifier; cbn [bind].
  rewrite visit_StringLiteral; reflexivity.
Qed.

(** An expression statement whose expression is a call of an identifier
    does nothing of its own. *)
Lemma visit_statement_call registry path f args s :
  visit registry path (statement (call (ident f) args)) s =
  visit registry path (call (ident f) args) s.
Proof.
  unfold statement; rewrite visit_plain by reflexivity.
  assert (Henter : enter registry path
            (ExpressionStatement [] (call (ident f) args)) s = Ok s).
  { unfold enter, translatorCall, translatorMethodCall; simpl.
    destruct (getCurrentNamespaces 1 s) eqn:E; simpl; rewrite ?E;
      reflexivity. }
  rewrite Henter; cbn [bind childrenOf eachNodeM]; apply bind_Ok_r.
Qed.

(** C7.  Resolution takes the frame pushed last among those bound to the
    identifier.  With a frame of [Outer] for [v] on the stack and a frame
    of [Inner] for [v] above it, and no later frame for [v], the call site
    [v('x')] resolves to the frame of [Inner] and emits the key of [Inner]
    and [x], and nothing else.  And after
    [const v = useTranslations('Inner')] in a nested scope, whatever the
    outer scopes left on the stack, the call [v('x')] emits that key. *)
Theorem shadowing (registry : list FunctionWithTParam) (path : string)
    (v outer inner x : string) (below between above : list Namespace.t)
    (keys : list FoundKey) (outerDynamic innerDynamic : bool) :
  (forall g, In g above -> Namespace.variable g <> v) ->
  let outerFrame :=
    {| Namespace.name := outer; Namespace.variable := v;
       Namespace.dynamic := outerDynamic |} in
  let innerFrame :=
    {| Namespace.name := inner; Namespace.variable := v;
       Namespace.dynamic := innerDynamic |} in
  let stack := below ++ outerFrame :: between ++ innerFrame :: above in
  let s := {| namespaces := stack; foundKeys := keys |} in
  getCurrentNamespaceForIdentifier v s = Some innerFrame /\
  visit registry path (call (ident v) [literal x]) s =
    Ok {| namespaces := stack;
          foundKeys := keys ++ [plainKey path inner x] |} /\
  (forall s0 s1,
     eachNodeM (visit registry path)
       [ const (ident v) (call (ident USE_TRANSLATIONS) [literal inner]);
         statement (call (ident v) [literal x]) ] s0 = Ok s1 ->
     namespaces s1 = namespaces s0 ++ [frame inner v] /\
     exists earlier, foundKeys s1 = earlier ++ [plainKey path inner x]).
Proof.
  intros Habove outerFrame innerFrame stack s.
  assert (Hres : getCurrentNamespaceForIdentifier v s = Some innerFrame).
  { unfold s, stack; rewrite app_comm_cons, app_assoc.
    now apply resolve_last. }
  split; [exact Hres|]; split.
  - now rewrite (visit_literal_call registry path v x s innerFrame Hres).
  - intros s0 s1 H; cbn [eachNodeM] in H.
    apply bind_Ok in H; destruct H as (sa & Hconst & H).
    rewrite bind_Ok_r, visit_statement_call in H.
    apply visit_const_useTranslations in Hconst.
    rewrite (visit_literal_call registry path v x sa (frame inner v)) in H.
    + apply Ok_inj in H; subst s1; simpl; eauto.
    + destruct sa as [nsa ksa]; simpl in Hconst; subst nsa.
      now apply resolve_top.
Qed.

Lemma shadowing_witness :
  (forall g, In g [] -> Namespace.variable g <> "t") /\
  visit [] "page.tsx" (call (ident "t") [literal "x"])
    {| namespaces := [frame "Outer" "t"; frame "Inner" "t"];
       foundKeys := [] |} =
  Ok {| namespaces := [frame "Outer" "t"; frame "Inner" "t"];
        foundKeys := [plainKey "page.tsx" "Inner" "x"] |} /\
  key (plainKey "page.tsx" "Inner" "x") = "Inner.x".
Proof.
  assert (Habove : forall g, In g [] -> Namespace.variable g <> "t")
    by (intros g []).
  split; [exact Habove|]; split; [|reflexivity].
  exact (proj1 (proj2 (shadowing [] "page.tsx" "t" "Outer" "Inner" "x"
                         [] [] [] [] false false Habove))).
Defined.

(** ** Helper indirection *)

(** What a visit has found once the node is entered is still there when the
    visit ends. *)
Lemma visit_keeps_entered registry path n s s' :
  visit registry path n s = Ok s' ->
  exists s1, enter registry path n s = Ok s1 /\
             appended (foundKeys s1) (foundKeys s').
Proof.
  intros H; pose proof H as Hvisit; rewrite visit_eq in H.
  apply bind_Ok in H; destruct H as (s1 & Henter & H).
  apply bind_Ok in H; destruct H as (s2 & Hkids & H).
  apply Ok_inj in H; subst s'.
  exists s1; split; auto.
  eapply appended_trans;
    [apply (proj2 (eachNodeM_visit_advances _ _ _ _ _ Hkids))|].
  assert (E : advances s s2).
  { eapply advances_trans; [eapply enter_advances; eauto|].
    eapply eachNodeM_visit_advances; eauto. }
  destruct E as [(kept & added & Hns & Hst) _].
  rewrite (leave_spec path n _ _ _ _ Hns (eq_sym (Forall2_length Hst))).
  destruct (isFunctionLike n); simpl;
    [eexists; reflexivity | apply appended_refl].
Qed.

(** At a call node, what the registry block pushes is in the keys of the
    entered state. *)
Lemma enter_keeps_tracked registry path comments callee args s s1 :
  enter registry path (CallExpression comments callee args) s = Ok s1 ->
  appended
    (foundKeys
       (callTrackedFunction registry path
          (CallExpression comments callee args) s))
    (foundKeys s1).
Proof.
  unfold enter; simpl declareNamespaces; cbn [bind].
  set (node := CallExpression comments callee args).
  set (s0 := callTrackedFunction registry path node s).
  destruct (translatorCall node None _) as [k1 sa] eqn:E1.
  destruct (translatorMethodCall node k1 sa) as [k2 sb] eqn:E2.
  intros H; apply Ok_inj in H; subst s1.
  pose proof (inlineCall_advances path node s0) as [_ A1].
  pose proof (translatorCall_advances node None (inlineCall path node s0))
    as [_ A2]; rewrite E1 in A2; simpl in A2.
  pose proof (translatorMethodCall_advances node k1 sa) as [_ A3];
    rewrite E2 in A3; simpl in A3.
  pose proof (emitKey_advances path k2 sb) as [_ A4].
  pose proof (commentKeys_advances path node (emitKey path k2 sb)) as [_ A5].
  eauto using appended_trans.
Qed.

(** The keys of a qualifying declaration hold every literal use below a
    child of the body. *)
Lemma trackedFunctionOf_accepts comments c1 c2 c3 c4 fname param annotation
    type init params body child useSite keyText :
  truthy fname = true ->
  isFunctionTypeNode annotation || isTypeReferenceNode annotation = true ->
  In child (childrenOf body) -> occurs useSite child ->
  literalUse param useSite = Some keyText ->
  exists f,
    trackedFunctionOf
      (VariableDeclaration comments (Identifier c1 fname) type
         (Some (ArrowFunction c2
                  (ParameterDeclaration c3 (Identifier c4 param)
                     (Some annotation) init :: params)
                  body))) = Some f /\
    functionName f = fname /\ In keyText (keysUsed f).
Proof.
  intros Hname Hann Hchild Huse Hlit; unfold trackedFunctionOf.
  rewrite Hann, Hname; cbv zeta.
  assert (Hin : In keyText
            (forEachChild (visitFunctionBody param) body [])).
  { rewrite forEachChild_children.
    apply in_split in Hchild; destruct Hchild as (l1 & l2 & ->).
    rewrite eachNode_app; simpl.
    eapply appended_In; [apply eachNode_visitFunctionBody_appended|].
    eapply visitFunctionBody_finds; eauto. }
  destruct (forEachChild (visitFunctionBody param) body []) as [|k keys];
    [contradiction|].
  simpl; eexists; repeat split; simpl; auto.
Qed.

(** X30.  A declaration [fname = (param: <annotation>) => <body>] is
    registered when the annotation is a function type or a type reference
    and a call [param('<key>')] lies below a child of the body.  When it is
    the only declaration in the file set that registers a helper under
    [fname], a call [fname(useTranslations('<namespace>'))] anywhere in the
    file set puts the key qualified by the namespace into the result. *)
Theorem helper_indirection (fs : FileSystem) (filesPaths : list string)
    (result : list FoundKey) (fname param keyText namespace : string)
    (helperPath usePath : string) (helperSource useSource : SourceFile)
    (comments c1 c2 c3 c4 u1 u2 u3 u4 u5 : list string)
    (annotation body child useSite : Node) (type init : option Node)
    (params inner rest : list Node) :
  let declaration :=
    VariableDeclaration comments (Identifier c1 fname) type
      (Some (ArrowFunction c2
               (ParameterDeclaration c3 (Identifier c4 param)
                  (Some annotation) init :: params)
               body)) in
  let use :=
    CallExpression u1 (Identifier u2 fname)
      (CallExpression u3 (Identifier u4 USE_TRANSLATIONS)
         (StringLiteral u5 namespace :: inner) :: rest) in
  extract fs filesPaths = Ok result ->
  In helperPath filesPaths -> fs helperPath = Some helperSource ->
  occursInFile declaration helperSource ->
  truthy fname = true ->
  isFunctionTypeNode annotation || isTypeReferenceNode annotation = true ->
  In child (childrenOf body) -> occurs useSite child ->
  literalUse param useSite = Some keyText ->
  (forall p source d f,
     In p filesPaths -> fs p = Some source -> occursInFile d source ->
     trackedFunctionOf d = Some f -> functionName f = fname ->
     d = declaration) ->
  In usePath filesPaths -> fs usePath = Some useSource ->
  occursInFile use useSource ->
  In (plainKey usePath namespace keyText) result.
Proof.
  intros declaration use Hextract HhelperPath HhelperFs Hdecl Hname Hann
    Hchild Huse Hlit Honly HusePath HuseFs Hcall.
  destruct (trackedFunctionOf_accepts comments c1 c2 c3 c4 fname param
              annotation type init params body child useSite keyText
              Hname Hann Hchild Huse Hlit) as (f & Hf & Hfname & Hkey).
  fold declaration in Hf.
  pose proof Hextract as Hparts.
  apply extract_Ok in Hparts; destruct Hparts as (registry & _ & Hreg & _).
  (* the record of the declaration is the one the call finds *)
  assert (Hfind : find (fun g => functionName g =? fname) registry = Some f).
  { pose proof (collect_registers fs filesPaths helperPath helperSource
                  declaration f HhelperPath HhelperFs Hdecl Hf [] registry
                  Hreg) as Hin.
    destruct (find (fun g => functionName g =? fname) registry) as [g|] eqn:E.
    - apply find_some in E; destruct E as (Hg & Hgname).
      apply String.eqb_eq in Hgname.
      destruct (collect_origin fs filesPaths [] registry g Hreg Hg)
        as [[]|(p & source & d & Hp & Hsrc & Hd & Hdg)].
      rewrite (Honly p source d g Hp Hsrc Hd Hdg Hgname) in Hdg.
      congruence.
    - apply (find_none _ _ E) in Hin.
      rewrite Hfname, String.eqb_refl in Hin; discriminate. }
  destruct (extract_keys fs filesPaths result registry usePath Hextract Hreg
              HusePath) as (keys & Hkeys & Hincl).
  destruct (getKeys_reaches registry usePath fs use useSource keys Hkeys
              HuseFs Hcall) as (sd & sd' & Hvisit & Happ).
  apply Hincl; eapply appended_In; [exact Happ|].
  destruct (visit_keeps_entered _ _ _ _ _ Hvisit) as (s1 & Henter & Hkept).
  eapply appended_In; [exact Hkept|].
  eapply appended_In; [eapply enter_keeps_tracked; exact Henter|].
  unfold callTrackedFunction; rewrite Hfind; simpl.
  rewrite pushKeysUsed_spec; simpl.
  apply in_or_app; right; apply in_map; exact Hkey.
Qed.

Example schemaSource_keys :
  extract (oneFile "form.ts" schemaSource) ["form.ts"] =
  Ok [plainKey "form.ts" "Form" "required"].
Proof. vm_compute; reflexivity. Qed.

(** Goes through the nodes of a concrete tree. *)
Ltac explore :=
  repeat match goal with
    | H : occursInFile _ _ |- _ => destruct H as (? & ? & ?)
    | H : occurs _ ?n |- _ =>
        tryif is_var n then fail else (inversion H; clear H; subst)
    | H : In _ (childrenOf _) |- _ =>
        progress cbn [childrenOf optional app] in H
    | H : In _ (_ :: _) |- _ => destruct H as [H|H]; [subst|]
    | H : In _ [] |- _ => destruct H
    | H : _ \/ _ |- _ => destruct H as [H|H]; [subst|]
    | H : False |- _ => destruct H
    end.

Lemma helper_indirection_witness :
  extract (oneFile "form.ts" schemaSource) ["form.ts"] =
    Ok [plainKey "form.ts" "Form" "required"] /\
  In (plainKey "form.ts" "Form" "required")
     [plainKey "form.ts" "Form" "required"] /\
  key (plainKey "form.ts" "Form" "required") = "Form.required".
Proof.
  split; [vm_compute; reflexivity|]; split; [|reflexivity].
  apply (helper_indirection (oneFile "form.ts" schemaSource) ["form.ts"]
           [plainKey "form.ts" "Form" "required"]
           "schema" "t" "required" "Form" "form.ts" "form.ts"
           schemaSource schemaSource [] [] [] [] [] [] [] [] [] []
           (TypeReferenceNode [] [ident "T"])
           (call (access (ident "z") "string")
              [call (ident "t") [literal "required"]])
           (call (ident "t") [literal "required"])
           (call (ident "t") [literal "required"])
           None None [] [] []).
  - exact schemaSource_keys.
  - now left.
  - reflexivity.
  - exists (variableStatement schemaDeclaration); split; [now left|].
    eapply occurs_below; [now left|].
    eapply occurs_below; [now left|]. constructor.
  - reflexivity.
  - reflexivity.
  - right; now left.
  - constructor.
  - reflexivity.
  - intros p source d f [<-|[]] [= <-] Hd Hf _.
    cbv [schemaSource schemaDeclaration variableStatement statement call
         access ident literal endOfFile] in Hd.
    explore; simpl in Hf; first [discriminate Hf | reflexivity].
  - now left.
  - reflexivity.
  - exists (statement (call (ident "schema")
              [call (ident USE_TRANSLATIONS) [literal "Form"]])); split;
      [right; now left|].
    eapply occurs_below; [now left|]. constructor.
Defined.

(** A helper whose parameter carries no type annotation is not registered:
    the guard on [firstParam.type] is explicit, and the call yields no
    key. *)
Lemma helper_without_annotation :
  extract (oneFile "form.ts" untypedSchemaSource) ["form.ts"] = Ok [] /\
  ~ In (plainKey "form.ts" "Form" "required") [].
Proof. split; [vm_compute; reflexivity | intros []]. Qed.

(** C2, what the code does.  Take the helper of the claim with the type
    annotation that registration asks for,
    [const schema = (t: T) => t('required')].  Pass 1 hands the children of
    the arrow body to its inner visitor and never the body itself, so a
    call of the parameter that is the whole body is not seen: whatever the
    name, the parameter, the annotation and the key, no key is recorded
    and the helper is not registered.  [schema(useTranslations('Form'))]
    then yields no key, where the claim has [Form.required].  The same
    helper with the call one level down,
    [(t: T) => z.string(t('required'))], does yield [Form.required]. *)
Theorem helper_body_call_is_missed :
  (forall (comments c1 c2 c3 c4 c5 c6 c7 : list string)
          (fname param keyText : string) (annotation : Node)
          (type init : option Node) (params : list Node),
     trackedFunctionOf
       (VariableDeclaration comments (Identifier c1 fname) type
          (Some (ArrowFunction c2
                   (ParameterDeclaration c3 (Identifier c4 param)
                      (Some annotation) init :: params)
                   (CallExpression c5 (Identifier c6 param)
                      [StringLiteral c7 keyText]))))
     = None) /\
  extract (oneFile "form.ts" directBodySchemaSource) ["form.ts"] = Ok [] /\
  extract (oneFile "form.ts" schemaSource) ["form.ts"] =
    Ok [plainKey "form.ts" "Form" "required"].
Proof.
  split; [|split; vm_compute; reflexivity].
  intros; simpl.
  destruct (isFunctionTypeNode annotation || isTypeReferenceNode annotation);
    [|reflexivity].
  destruct (truthy fname); reflexivity.
Qed.

(** ** Inline calls *)

(** The method shape does emit its key, whatever the stack holds. *)
Lemma inline_method_call_emits path c0 c1 c2 c3 c4 c5 member namespace keyText
    inner rest s :
  truthy keyText = true ->
  inlineCall path
    (ExpressionStatement c0
       (CallExpression c1
          (PropertyAccessExpression c2
             (CallExpression c3 (Identifier c4 USE_TRANSLATIONS)
                (StringLiteral c5 namespace :: inner))
             member)
          (StringLiteral c5 keyText :: rest))) s =
  pushKey (plainKey path namespace keyText) s.
Proof. intros Hkey; simpl; now rewrite Hkey. Qed.

(** The direct shape: nothing is found, on any stack that binds no
    variable called [useTranslations]. *)
Lemma visit_inline_direct_call registry path namespace keyText s :
  getCurrentNamespaceForIdentifier USE_TRANSLATIONS s = None ->
  visit registry path
    (statement (call (call (ident USE_TRANSLATIONS) [literal namespace])
                  [literal keyText])) s = Ok s.
Proof.
  intros Hres; unfold statement, call, ident, literal.
  assert (Hskip : forall n,
            (forall c e a, n <> CallExpression c e a) ->
            translatorCall n None s = (None, s) /\
            translatorMethodCall n None s = (None, s)).
  { intros n Hn; unfold translatorCall, translatorMethodCall.
    destruct (getCurrentNamespaces 1 s); auto.
    destruct n; auto. exfalso; eapply Hn; reflexivity. }
  rewrite visit_plain by reflexivity.
  assert (E1 : enter registry path
            (ExpressionStatement []
               (CallExpression []
                  (CallExpression [] (Identifier [] USE_TRANSLATIONS)
                     [StringLiteral [] namespace])
                  [StringLiteral [] keyText])) s = Ok s).
  { unfold enter; simpl declareNamespaces; cbn [bind].
    simpl callTrackedFunction; simpl inlineCall.
    destruct (Hskip (ExpressionStatement []
               (CallExpression []
                  (CallExpression [] (Identifier [] USE_TRANSLATIONS)
                     [StringLiteral [] namespace])
                  [StringLiteral [] keyText]))) as [-> ->];
      [discriminate | reflexivity]. }
  rewrite E1; cbn [bind childrenOf eachNodeM]; rewrite bind_Ok_r.
  rewrite visit_plain by reflexivity.
  assert (E2 : enter registry path
               (CallExpression []
                  (CallExpression [] (Identifier [] USE_TRANSLATIONS)
                     [StringLiteral [] namespace])
                  [StringLiteral [] keyText]) s = Ok s).
  { unfold enter; simpl declareNamespaces; cbn [bind].
    simpl callTrackedFunction; simpl inlineCall.
    unfold translatorCall, translatorMethodCall.
    destruct (getCurrentNamespaces 1 s) eqn:E; simpl; rewrite ?E;
      reflexivity. }
  rewrite E2; cbn [bind childrenOf eachNodeM].
  rewrite visit_plain by reflexivity.
  assert (E3 : enter registry path
                  (CallExpression [] (Identifier [] USE_TRANSLATIONS)
                     [StringLiteral [] namespace]) s = Ok s).
  { unfold enter; simpl declareNamespaces; cbn [bind].
    rewrite callTrackedFunction_literal; simpl inlineCall.
    unfold translatorCall, translatorMethodCall, useTranslator.
    rewrite Hres.
    destruct (getCurrentNamespaces 1 s) eqn:E; simpl; rewrite ?E;
      reflexivity. }
  rewrite E3; cbn [bind childrenOf eachNodeM].
  rewrite visit_Identifier; cbn [bind].
  rewrite visit_StringLiteral; cbn [bind].
  now rewrite visit_StringLiteral.
Qed.

(** C1, what the code does.  For [useTranslations('ns1')('one');] the block
    for inline calls stores the namespace and pushes nothing, and no later
    block sees the statement: for every registry, namespace and key the
    visit from the initial state finds no key, and [extract] returns the
    empty list for a file that makes this call in a function.  The method
    shape [useTranslations('ns1').rich('one');] does yield [ns1.one]. *)
Theorem inline_direct_call_emits_nothing :
  (forall registry path namespace keyText,
     visit registry path
       (statement (call (call (ident USE_TRANSLATIONS) [literal namespace])
                     [literal keyText]))
       initialState = Ok initialState) /\
  extract (oneFile "page.tsx" inlineCallSource) ["page.tsx"] = Ok [] /\
  extract (oneFile "page.tsx" inlineMethodSource) ["page.tsx"] =
    Ok [plainKey "page.tsx" "ns1" "one"].
Proof.
  split; [|split; vm_compute; reflexivity].
  intros registry path namespace keyText.
  now apply visit_inline_direct_call.
Qed.

(** * Further properties of the parser *)

(** ** Whole trees *)

Lemma forEachChild_all (f : Node -> bool) n :
  forEachChild (fun child ok => ok && f child) n true =
  forallb f (childrenOf n).
Proof.
  rewrite forEachChild_children.
  assert (H : forall l b, eachNode (fun child ok => ok && f child) l b =
                          b && forallb f l).
  { induction l as [|c l IH]; intros b; simpl.
    - now rewrite andb_true_r.
    - now rewrite IH, andb_assoc. }
  now rewrite H.
Qed.

Lemma everywhere_eq p n :
  everywhere p n = p n && forallb (everywhere p) (childrenOf n).
Proof.
  rewrite <- forEachChild_all; destruct n; reflexivity.
Qed.

Lemma everywhere_occurs p n :
  everywhere p n = true <-> forall d, occurs d n -> p d = true.
Proof.
  split.
  - intros H d Hocc; induction Hocc as [|n c Hin Hocc IH].
    + rewrite everywhere_eq in H; now apply andb_prop in H.
    + apply IH. rewrite everywhere_eq in H; apply andb_prop in H.
      destruct H as [_ H]; rewrite forallb_forall in H; auto.
  - induction n as [n IH] using Node_children_ind; intros H.
    rewrite everywhere_eq; apply andb_true_intro; split.
    + apply H; constructor.
    + apply forallb_forall; intros c Hc.
      rewrite Forall_forall in IH; apply IH; auto.
      intros d Hd; apply H; eapply occurs_below; eauto.
Qed.

Lemma everywhere_child p n c :
  everywhere p n = true -> In c (childrenOf n) -> everywhere p c = true.
Proof.
  rewrite everywhere_eq; intros H Hc; apply andb_prop in H.
  destruct H as [_ H]; rewrite forallb_forall in H; auto.
Qed.

Lemma everywhere_here p n : everywhere p n = true -> p n = true.
Proof. rewrite everywhere_eq; intros H; now apply andb_prop in H. Qed.

Lemma preorder_eq n : preorder n = n :: flat_map preorder (childrenOf n).
Proof.
  assert (H : forall l acc,
            eachNode (fun child before => before ++ preorder child) l acc =
            acc ++ flat_map preorder l).
  { induction l as [|c l IH]; intros acc; simpl.
    - now rewrite app_nil_r.
    - now rewrite IH, app_assoc. }
  specialize (H (childrenOf n) []); simpl in H.
  rewrite <- H, <- forEachChild_children.
  destruct n; reflexivity.
Qed.

Lemma preorder_occurs d n : In d (preorder n) <-> occurs d n.
Proof.
  split.
  - revert d; induction n as [n IH] using Node_children_ind; intros d.
    rewrite preorder_eq; intros [<-|H]; [constructor|].
    apply in_flat_map in H; destruct H as (c & Hc & Hd).
    rewrite Forall_forall in IH.
    eapply occurs_below; eauto.
  - induction 1 as [|n c Hin Hocc IH]; rewrite preorder_eq.
    + now left.
    + right; apply in_flat_map; eauto.
Qed.

Lemma everywhere_impl (p q : Node -> bool) n :
  (forall d, p d = true -> q d = true) ->
  everywhere p n = true -> everywhere q n = true.
Proof.
  intros Hpq H; apply everywhere_occurs; intros d Hd.
  apply Hpq; revert d Hd; now apply everywhere_occurs.
Qed.

Lemma occurs_child c n : In c (childrenOf n) -> occurs c n.
Proof. intros H; eapply occurs_below; [exact H | constructor]. Qed.

(** ** What makes the parser throw *)

Lemma acquireFromArray_outcome name awaited s :
  if overruns name awaited
  then acquireFromArray name awaited s = Throw TypeError
  else exists s', acquireFromArray name awaited s = Ok s'.
Proof.
  unfold overruns, acquireFromArray.
  destruct awaited; try (destruct name; eauto; fail); eauto.
  destruct arguments as [|a rest]; [destruct name; eauto|].
  destruct a; try (destruct name; eauto; fail).
  destruct (findIndex isGetTranslationsCall elements) as [i|];
    [|destruct name; eauto].
  destruct name; eauto.
  destruct (nth_error elements0 i) as [b|] eqn:E.
  - assert (Hlt : (length elements0 <=? i)%nat = false).
    { apply Nat.leb_gt, nth_error_Some; congruence. }
    rewrite Hlt.
    destruct b; eauto. destruct b; eauto.
    destruct (nth_error elements i) as [e|]; eauto.
    destruct e; eauto.
    destruct (first arguments) as [a|]; eauto.
    destruct a; eauto.
  - apply nth_error_None in E. apply Nat.leb_le in E; now rewrite E.
Qed.

Lemma declareNamespaces_outcome n s :
  if patternTooShort n
  then declareNamespaces n s = Throw TypeError
  else exists s', declareNamespaces n s = Ok s'.
Proof.
  unfold patternTooShort, declareNamespaces.
  destruct n; eauto.
  destruct initializer as [init|]; eauto.
  destruct init; eauto.
  cbv zeta.
  set (s1 := acquireGetTranslations _ _ _).
  pose proof (acquireFromArray_outcome n init s1) as H.
  destruct (overruns n init); auto.
Qed.

Lemma enter_outcome registry path n s :
  if patternTooShort n
  then enter registry path n s = Throw TypeError
  else exists s', enter registry path n s = Ok s'.
Proof.
  pose proof (declareNamespaces_outcome n s) as H; unfold enter.
  destruct (patternTooShort n).
  - now rewrite H.
  - destruct H as (s1 & ->); cbn [bind].
    destruct (translatorCall n None _) as [k1 sa].
    destruct (translatorMethodCall n k1 sa) as [k2 sb]; eauto.
Qed.

(** The only exception a visit raises is the [TypeError]. *)
Lemma visit_Throw registry path n :
  forall s e, visit registry path n s = Throw e -> e = TypeError.
Proof.
  induction n as [n IH] using Node_children_ind; intros s e.
  rewrite visit_eq.
  pose proof (enter_outcome registry path n s) as Henter.
  destruct (patternTooShort n).
  - rewrite Henter; simpl; congruence.
  - destruct Henter as (s1 & ->); cbn [bind].
    assert (walk : forall l, Forall (fun c => forall s e,
                visit registry path c s = Throw e -> e = TypeError) l ->
              forall s e, eachNodeM (visit registry path) l s = Throw e ->
                          e = TypeError).
    { induction 1 as [|c l Hc _ IHl]; intros a x; simpl; [discriminate|].
      destruct (visit registry path c a) eqn:E; simpl; eauto.
      intros [= <-]; eauto. }
    destruct (eachNodeM _ (childrenOf n) s1) eqn:E; simpl; [discriminate|].
    intros [= <-]; eapply walk; eauto.
Qed.

Lemma eachNodeM_visit_Throw registry path l :
  forall s e, eachNodeM (visit registry path) l s = Throw e -> e = TypeError.
Proof.
  induction l as [|c l IH]; intros s e; simpl; [discriminate|].
  destruct (visit registry path c s) eqn:E; simpl; eauto.
  intros [= <-]; eapply visit_Throw; eauto.
Qed.

(** A declaration with a pattern that is too short, anywhere in a tree,
    makes the visit of the tree throw. *)
Lemma visit_throws registry path d n :
  occurs d n -> patternTooShort d = true ->
  forall s, visit registry path n s = Throw TypeError.
Proof.
  intros Hocc Hd; induction Hocc as [|n c Hin Hocc IH]; intros s;
    rewrite visit_eq.
  - pose proof (enter_outcome registry path d s) as H; rewrite Hd in H.
    now rewrite H.
  - destruct (enter registry path n s) as [s1|e] eqn:Henter; cbn [bind].
    + apply in_split in Hin; destruct Hin as (l1 & l2 & ->).
      rewrite eachNodeM_app.
      destruct (eachNodeM _ l1 s1) as [sa|e] eqn:H1; cbn [bind].
      * simpl; now rewrite IH.
      * now rewrite (eachNodeM_visit_Throw _ _ _ _ _ H1).
    + pose proof (enter_outcome registry path n s) as H.
      destruct (patternTooShort n); [congruence|].
      destruct H as (s' & H); congruence.
Qed.

Lemma eachNodeM_visit_throws registry path d l :
  occursInFile d l -> patternTooShort d = true ->
  forall s, eachNodeM (visit registry path) l s = Throw TypeError.
Proof.
  intros (top & Hin & Hocc) Hd s.
  apply in_split in Hin; destruct Hin as (l1 & l2 & ->).
  rewrite eachNodeM_app.
  destruct (eachNodeM _ l1 s) as [sa|e] eqn:H1; cbn [bind].
  - simpl; now rewrite (visit_throws registry path d top Hocc Hd).
  - now rewrite (eachNodeM_visit_Throw _ _ _ _ _ H1).
Qed.

(** Pass 1 fails on the first path that cannot be read, and only there. *)
Lemma collect_readable fs paths :
  (forall p, In p paths -> fs p <> None) ->
  forall registry, exists registry',
    forEachM (collectFunctionsWithTParam fs) paths registry = Ok registry'.
Proof.
  induction paths as [|p paths IH]; intros Hall registry; simpl; eauto.
  unfold collectFunctionsWithTParam at 1, readSource.
  destruct (fs p) as [src|] eqn:E;
    [|exfalso; apply (Hall p); simpl; auto].
  cbn [bind]; apply IH; intros q Hq; apply Hall; now right.
Qed.

Lemma collect_unreadable fs before p after :
  (forall q, In q before -> fs q <> None) -> fs p = None ->
  forall registry,
    forEachM (collectFunctionsWithTParam fs) (before ++ p :: after) registry =
    Throw (ENOENT p).
Proof.
  intros Hbefore Hp; induction before as [|q before IH]; intros registry;
    simpl.
  - unfold collectFunctionsWithTParam, readSource; now rewrite Hp.
  - unfold collectFunctionsWithTParam at 1, readSource.
    destruct (fs q) as [src|] eqn:E;
      [|exfalso; apply (Hbefore q); simpl; auto].
    cbn [bind]; apply IH; intros r Hr; apply Hbefore; now right.
Qed.

Lemma getKeys_outcome registry path fs sourceFile :
  fs path = Some sourceFile ->
  (forall e, getKeys registry path fs = Throw e -> e = TypeError) /\
  (forall d, occursInFile d sourceFile -> patternTooShort d = true ->
   getKeys registry path fs = Throw TypeError).
Proof.
  intros Hfs; unfold getKeys, readSource; rewrite Hfs; cbn [bind].
  split.
  - intros e.
    destruct (eachNodeM _ sourceFile initialState) eqn:E; cbn [bind];
      [discriminate|].
    intros [= <-]; eapply eachNodeM_visit_Throw; eauto.
  - intros d Hd Hshort.
    now rewrite (eachNodeM_visit_throws registry path d _ Hd Hshort).
Qed.

Lemma visit_Ok_wellBound registry path n :
  forall s s', visit registry path n s = Ok s' -> wellBound n = true.
Proof.
  unfold wellBound.
  induction n as [n IH] using Node_children_ind; intros s s' H.
  rewrite visit_eq in H.
  apply bind_Ok in H; destruct H as (s1 & Henter & H).
  apply bind_Ok in H; destruct H as (s2 & Hkids & _).
  rewrite everywhere_eq; apply andb_true_intro; split.
  - pose proof (enter_outcome registry path n s) as Hout.
    destruct (patternTooShort n); [congruence | reflexivity].
  - clear Henter. revert s1 Hkids; induction IH as [|c l Hc _ IHl];
      intros s1 Hkids; simpl in *; auto.
    apply bind_Ok in Hkids; destruct Hkids as (sa & Hvisit & Hrest).
    apply andb_true_intro; split; eauto.
Qed.

Lemma eachNodeM_visit_Ok_wellBound registry path l :
  forall s s', eachNodeM (visit registry path) l s = Ok s' ->
  forallb wellBound l = true.
Proof.
  induction l as [|c l IH]; intros s s' H; simpl in *; auto.
  apply bind_Ok in H; destruct H as (sa & Hvisit & Hrest).
  apply andb_true_intro; split; eauto using visit_Ok_wellBound.
Qed.

Lemma flatMapM_throws {A B : Type} (f : A -> Result (list B)) (l : list A)
    (e : Exception) (x : A) :
  (forall y e', In y l -> f y = Throw e' -> e' = e) ->
  In x l -> f x = Throw e -> flatMapM f l = Throw e.
Proof.
  induction l as [|y l IH]; intros Hall Hin Hx; simpl; [contradiction|].
  destruct (f y) as [ys|e'] eqn:Hy; cbn [bind].
  - destruct Hin as [->|Hin]; [congruence|].
    rewrite IH; auto. intros z e' Hz; apply Hall; now right.
  - now rewrite (Hall y e' (or_introl eq_refl) Hy).
Qed.

(** X1.  [extract] reads every file in Pass 1 before it looks for any key:
    when a path cannot be read it throws the error of [readFileSync] for the
    first such path, whatever the other files hold. *)
Theorem extract_unreadable_path (fs : FileSystem)
    (before after : list string) (path : string) :
  (forall p, In p before -> fs p <> None) -> fs path = None ->
  extract fs (before ++ path :: after) = Throw (ENOENT path).
Proof.
  intros Hbefore Hpath; unfold extract.
  now rewrite (collect_unreadable fs before path after Hbefore Hpath).
Qed.

Lemma extract_unreadable_path_witness :
  oneFile "page.tsx" literalKeySource "page.tsx" <> None /\
  oneFile "page.tsx" literalKeySource "gone.tsx" = None /\
  extract (oneFile "page.tsx" literalKeySource) ["page.tsx"; "gone.tsx"] =
  Throw (ENOENT "gone.tsx").
Proof.
  split; [discriminate|]; split; [reflexivity|].
  apply (extract_unreadable_path (oneFile "page.tsx" literalKeySource)
           ["page.tsx"] [] "gone.tsx").
  - intros p [<-|[]]; discriminate.
  - reflexivity.
Defined.

(** X2.  [extract] returns a result only when every path can be read and
    no file holds a declaration
    [[a, ..] = await f([.., getTranslations(...), ..])] whose binding
    pattern ends before the position of the first [getTranslations(...)]
    element: both conditions are necessary for a result. *)
Theorem extract_returns_only_if (fs : FileSystem)
    (filesPaths : list string) (result : list FoundKey) :
  extract fs filesPaths = Ok result ->
  forall p, In p filesPaths ->
    exists sourceFile,
      fs p = Some sourceFile /\ forallb wellBound sourceFile = true.
Proof.
  intros H p Hp.
  apply extract_Ok in H; destruct H as (registry & found & _ & Hfound & _).
  destruct (flatMapM_In _ _ _ _ Hfound Hp) as (keys & Hkeys & _).
  unfold getKeys, readSource in Hkeys.
  destruct (fs p) as [sourceFile|]; [|discriminate].
  cbn [bind] in Hkeys.
  apply bind_Ok in Hkeys; destruct Hkeys as (st & Hwalk & _).
  exists sourceFile; split; auto.
  eapply eachNodeM_visit_Ok_wellBound; eauto.
Qed.

(** X3.  When every path can be read and some file holds, at any depth, a
    declaration whose binding pattern is too short for the position of
    [getTranslations(...)] in the awaited array, [extract] throws a
    [TypeError] and returns no key of any file. *)
Theorem extract_pattern_too_short (fs : FileSystem)
    (filesPaths : list string) (path : string) (sourceFile : SourceFile)
    (declaration : Node) :
  (forall p, In p filesPaths -> fs p <> None) ->
  In path filesPaths -> fs path = Some sourceFile ->
  occursInFile declaration sourceFile ->
  patternTooShort declaration = true ->
  extract fs filesPaths = Throw TypeError.
Proof.
  intros Hall Hpath Hfs Hocc Hshort; unfold extract.
  destruct (collect_readable fs filesPaths Hall []) as (registry & ->).
  cbn [bind].
  rewrite (flatMapM_throws (fun p => getKeys registry p fs) filesPaths
             TypeError path); auto.
  - intros p e Hp He.
    destruct (fs p) as [src|] eqn:Hsrc; [|exfalso; now apply (Hall p)].
    now apply (proj1 (getKeys_outcome registry p fs src Hsrc)).
  - now apply (proj2 (getKeys_outcome registry path fs sourceFile Hfs)
                 declaration).
Qed.

Lemma extract_pattern_too_short_witness :
  patternTooShort shortPatternDeclaration = true /\
  extract (oneFile "page.tsx" shortPatternSource) ["page.tsx"] =
  Throw TypeError.
Proof.
  split; [reflexivity|].
  apply (extract_pattern_too_short (oneFile "page.tsx" shortPatternSource)
           ["page.tsx"] "page.tsx" shortPatternSource
           shortPatternDeclaration).
  - intros p [<-|[]]; discriminate.
  - now left.
  - reflexivity.
  - exists (functionDeclaration "Page"
              [variableStatement shortPatternDeclaration]).
    split; [now left|].
    eapply occurs_below; [right; left; reflexivity|].
    eapply occurs_below; [left; reflexivity|].
    eapply occurs_below; [left; reflexivity|].
    eapply occurs_below; [left; reflexivity|]. constructor.
  - reflexivity.
Defined.

Lemma extract_returns_only_if_witness :
  extract (oneFile "page.tsx" literalKeySource) ["page.tsx"] =
    Ok [plainKey "page.tsx" "NS" "k"] /\
  exists sourceFile,
    oneFile "page.tsx" literalKeySource "page.tsx" = Some sourceFile /\
    forallb wellBound sourceFile = true.
Proof.
  assert (H : extract (oneFile "page.tsx" literalKeySource) ["page.tsx"] =
              Ok [plainKey "page.tsx" "NS" "k"])
    by (vm_compute; reflexivity).
  split; [exact H|].
  apply (extract_returns_only_if (oneFile "page.tsx" literalKeySource)
           ["page.tsx"] [plainKey "page.tsx" "NS" "k"] H "page.tsx").
  now left.
Defined.

(** ** Pass 1 in document order *)

(** A visitor that adds what it finds at a node and goes on to the children
    collects along the pre-order. *)
Section Collector.
Context {A : Type} (found : Node -> list A) (walk : Node -> list A -> list A).
Hypothesis walk_eq : forall n acc,
  walk n acc = eachNode walk (childrenOf n) (acc ++ found n).

Lemma collector_preorder n :
  forall acc, walk n acc = acc ++ flat_map found (preorder n).
Proof.
  induction n as [n IH] using Node_children_ind; intros acc.
  rewrite walk_eq, preorder_eq; simpl.
  rewrite app_assoc; generalize (acc ++ found n) as start.
  induction IH as [|c l Hc _ IHl]; intros start; simpl.
  - now rewrite app_nil_r.
  - now rewrite Hc, IHl, flat_map_app, app_assoc.
Qed.

Lemma collector_nodes l :
  forall acc,
    eachNode walk l acc = acc ++ flat_map found (flat_map preorder l).
Proof.
  induction l as [|c l IH]; intros acc; simpl.
  - now rewrite app_nil_r.
  - now rewrite collector_preorder, IH, flat_map_app, app_assoc.
Qed.
End Collector.

(** X4.  The inner visitor of Pass 1 records the first string-literal
    argument of every call of the parameter, in document order, duplicates
    kept, and nothing else; what was recorded before stays in front. *)
Theorem keysUsed_in_document_order (param : string) (bodyNode : Node)
    (keys : list string) :
  visitFunctionBody param bodyNode keys =
  keys ++ literalUses param (preorder bodyNode).
Proof.
  unfold literalUses.
  apply (collector_preorder
           (fun node => match literalUse param node with
                        | Some text => [text]
                        | None => []
                        end)
           (visitFunctionBody param)).
  intros n acc; rewrite visitFunctionBody_eq.
  destruct (literalUse param n); now rewrite ?app_nil_r.
Qed.

Lemma Collect_visit_preorder (node : Node)
    (registry : list FunctionWithTParam) :
  Collect.visit node registry =
  registry ++ trackedFunctions (preorder node).
Proof.
  unfold trackedFunctions.
  apply (collector_preorder
           (fun node => match trackedFunctionOf node with
                        | Some functionTracker => [functionTracker]
                        | None => []
                        end)
           Collect.visit).
  intros n acc; rewrite Collect_visit_eq; unfold trackFunction.
  destruct (trackedFunctionOf n); now rewrite ?app_nil_r.
Qed.

Lemma eachNode_Collect_preorder (sourceFile : SourceFile)
    (registry : list FunctionWithTParam) :
  eachNode Collect.visit sourceFile registry =
  registry ++ trackedFunctions (flat_map preorder sourceFile).
Proof.
  revert registry; induction sourceFile as [|n l IH]; intros registry; simpl.
  - now rewrite app_nil_r.
  - rewrite IH, Collect_visit_preorder.
    unfold trackedFunctions; now rewrite flat_map_app, app_assoc.
Qed.

(** X5.  Pass 1 appends to the registry one record for every qualifying
    declaration, at any depth: file after file in the order of the paths,
    and in document order within a file.  The records registered before
    stay in front, and none is replaced or merged. *)
Theorem registry_in_document_order (fs : FileSystem)
    (filesPaths : list string) (sources : list SourceFile)
    (registry : list FunctionWithTParam) :
  Forall2 (fun path sourceFile => fs path = Some sourceFile)
          filesPaths sources ->
  forEachM (collectFunctionsWithTParam fs) filesPaths registry =
  Ok (registry ++
      flat_map (fun sourceFile =>
                  trackedFunctions (flat_map preorder sourceFile))
               sources).
Proof.
  intros H; revert registry.
  induction H as [|path sourceFile paths sources Hfs _ IH]; intros registry;
    simpl.
  - now rewrite app_nil_r.
  - unfold collectFunctionsWithTParam at 1, readSource; rewrite Hfs.
    cbn [bind]; rewrite IH, eachNode_Collect_preorder.
    now rewrite app_assoc.
Qed.

Lemma registry_in_document_order_witness :
  Forall2 (fun path sourceFile => schemaFiles path = Some sourceFile)
          ["a.ts"; "b.ts"] [firstSchemaSource; lastSchemaSource] /\
  forEachM (collectFunctionsWithTParam schemaFiles) ["a.ts"; "b.ts"] [] =
  Ok [firstSchema; lastSchema].
Proof.
  assert (H : Forall2 (fun path sourceFile =>
                         schemaFiles path = Some sourceFile)
                ["a.ts"; "b.ts"] [firstSchemaSource; lastSchemaSource])
    by (repeat constructor).
  split; [exact H|].
  exact (registry_in_document_order schemaFiles ["a.ts"; "b.ts"]
           [firstSchemaSource; lastSchemaSource] [] H).
Defined.

(** X6.  After Pass 1 over a set of files the registry holds exactly the
    records of the qualifying declarations of those files: every such
    declaration, wherever it stands in its file, is registered, and every
    record comes from one. *)
Theorem registry_holds_the_helpers (fs : FileSystem)
    (filesPaths : list string) (registry : list FunctionWithTParam) :
  forEachM (collectFunctionsWithTParam fs) filesPaths [] = Ok registry ->
  forall f,
    In f registry <->
    exists path sourceFile declaration,
      In path filesPaths /\ fs path = Some sourceFile /\
      occursInFile declaration sourceFile /\
      trackedFunctionOf declaration = Some f.
Proof.
  intros Hreg f; split.
  - intros Hin.
    destruct (collect_origin fs filesPaths [] registry f Hreg Hin)
      as [[]|H]; exact H.
  - intros (p & src & d & Hp & Hsrc & Hd & Hf).
    eapply collect_registers; eauto.
Qed.

Lemma registry_holds_the_helpers_witness :
  forEachM (collectFunctionsWithTParam (oneFile "form.ts" schemaSource))
    ["form.ts"] [] =
  Ok [{| functionName := "schema"; paramName := "t";
         keysUsed := ["required"] |}] /\
  exists path sourceFile declaration,
    In path ["form.ts"] /\
    oneFile "form.ts" schemaSource path = Some sourceFile /\
    occursInFile declaration sourceFile /\
    trackedFunctionOf declaration =
    Some {| functionName := "schema"; paramName := "t";
            keysUsed := ["required"] |}.
Proof.
  assert (Hreg : forEachM
            (collectFunctionsWithTParam (oneFile "form.ts" schemaSource))
            ["form.ts"] [] =
          Ok [{| functionName := "schema"; paramName := "t";
                 keysUsed := ["required"] |}]) by reflexivity.
  split; [exact Hreg|].
  exact (proj1 (registry_holds_the_helpers
           (oneFile "form.ts" schemaSource) ["form.ts"] _ Hreg
           {| functionName := "schema"; paramName := "t";
              keysUsed := ["required"] |}) (or_introl eq_refl)).
Defined.

(** X7.  Every record of the registry has a name that is not empty and at
    least one key: a helper whose body calls its parameter with no string
    literal is not registered. *)
Theorem registered_helper_has_keys (fs : FileSystem)
    (filesPaths : list string) (registry : list FunctionWithTParam)
    (f : FunctionWithTParam) :
  forEachM (collectFunctionsWithTParam fs) filesPaths [] = Ok registry ->
  In f registry ->
  functionName f <> "" /\ keysUsed f <> [].
Proof.
  intros Hreg Hin.
  destruct (collect_origin fs filesPaths [] registry f Hreg Hin)
    as [[]|(p & src & d & _ & _ & _ & Hf)].
  unfold trackedFunctionOf in Hf.
  repeat match type of Hf with
    | match ?x with _ => _ end = _ => destruct x eqn:?; try discriminate
    | (if ?x then _ else _) = _ => destruct x eqn:?; try discriminate
    end.
  cbv zeta in Hf.
  repeat match type of Hf with
    | match ?x with _ => _ end = _ => destruct x eqn:?; try discriminate
    | (if ?x then _ else _) = _ => destruct x eqn:?; try discriminate
    end.
  injection Hf as <-; simpl; split.
  - intros ->; discriminate.
  - intros E; rewrite E in *; discriminate.
Qed.

Lemma registered_helper_has_keys_witness :
  forEachM (collectFunctionsWithTParam (oneFile "form.ts" schemaSource))
    ["form.ts"] [] =
  Ok [{| functionName := "schema"; paramName := "t";
         keysUsed := ["required"] |}] /\
  "schema" <> "" /\ ["required"] <> @nil string.
Proof.
  assert (Hreg : forEachM
            (collectFunctionsWithTParam (oneFile "form.ts" schemaSource))
            ["form.ts"] [] =
          Ok [{| functionName := "schema"; paramName := "t";
                 keysUsed := ["required"] |}]) by reflexivity.
  split; [exact Hreg|].
  exact (registered_helper_has_keys (oneFile "form.ts" schemaSource)
           ["form.ts"] _ _ Hreg (or_introl eq_refl)).
Defined.

(** X8.  The keys of a registered helper are the string-literal uses of
    its parameter below the children of the arrow body, in document order:
    the body node itself is not looked at, so a helper whose body is the
    call [t('<key>')] alone records no key for it. *)
Theorem helper_keys_lie_below_the_body (comments c : list string)
    (name body : Node) (type : option Node) (parameters : list Node)
    (f : FunctionWithTParam) :
  trackedFunctionOf
    (VariableDeclaration comments name type
       (Some (ArrowFunction c parameters body))) = Some f ->
  keysUsed f =
  literalUses (paramName f) (flat_map preorder (childrenOf body)).
Proof.
  assert (Hkeys : forall param,
            forEachChild (visitFunctionBody param) body [] =
            literalUses param (flat_map preorder (childrenOf body))).
  { intros param; rewrite forEachChild_children; unfold literalUses.
    apply (collector_nodes
             (fun node => match literalUse param node with
                          | Some text => [text]
                          | None => []
                          end)
             (visitFunctionBody param)).
    intros n acc; rewrite visitFunctionBody_eq.
    destruct (literalUse param n); now rewrite ?app_nil_r. }
  unfold trackedFunctionOf.
  repeat match goal with
    | |- match ?x with _ => _ end = _ -> _ => destruct x; try discriminate
    | |- (if ?x then _ else _) = _ -> _ => destruct x; try discriminate
    | |- (let _ := _ in _) = _ -> _ => cbv zeta
    end.
  intros [= <-]; simpl; apply Hkeys.
Qed.

Lemma helper_keys_lie_below_the_body_witness :
  trackedFunctionOf schemaDeclaration =
    Some {| functionName := "schema"; paramName := "t";
            keysUsed := ["required"] |} /\
  ["required"] =
  literalUses "t"
    (flat_map preorder
       (childrenOf (call (access (ident "z") "string")
                      [call (ident "t") [literal "required"]]))).
Proof.
  split; [reflexivity|].
  exact (helper_keys_lie_below_the_body [] [] (ident "schema")
           (call (access (ident "z") "string")
              [call (ident "t") [literal "required"]])
           None
           [ParameterDeclaration [] (ident "t")
              (Some (TypeReferenceNode [] [ident "T"])) None]
           {| functionName := "schema"; paramName := "t";
              keysUsed := ["required"] |} eq_refl).
Defined.

(** ** The static-key comment pattern *)

Lemma matchAtStart_inv s group :
  matchAtStart s = Some group ->
  exists opening rest,
    s = String "t" (String "(" (String opening rest)) /\
    isQuote opening = true /\ lazyGroup rest = Some group.
Proof.
  unfold matchAtStart.
  destruct s as [|a s]; [discriminate|].
  destruct a as [b0 b1 b2 b3 b4 b5 b6 b7].
  destruct b0; try discriminate. destruct b1; try discriminate.
  destruct b2; try discriminate. destruct b3; try discriminate.
  destruct b4; try discriminate. destruct b5; try discriminate.
  destruct b6; try discriminate. destruct b7; try discriminate.
  destruct s as [|a s]; [discriminate|].
  destruct a as [b0 b1 b2 b3 b4 b5 b6 b7].
  destruct b0; try discriminate. destruct b1; try discriminate.
  destruct b2; try discriminate. destruct b3; try discriminate.
  destruct b4; try discriminate. destruct b5; try discriminate.
  destruct b6; try discriminate. destruct b7; try discriminate.
  destruct s as [|q rest]; [discriminate|].
  destruct (isQuote q) eqn:Hq; [|discriminate].
  intros H; exists q, rest; auto.
Qed.

Lemma closesKey_inv s :
  closesKey s = true ->
  exists closing after,
    s = String closing (String ")" after) /\ isQuote closing = true.
Proof.
  destruct s as [|q s]; [discriminate|].
  destruct s as [|p after]; [discriminate|]; simpl.
  intros H; apply andb_prop in H; destruct H as [Hq Hp].
  apply Ascii.eqb_eq in Hp; subst p; eauto.
Qed.

Lemma lazyGroup_inv s :
  forall group, lazyGroup s = Some group ->
  exists body final closing after,
    s = (body ++ String final (String closing (String ")" after)))%string /\
    group = (body ++ String final "")%string /\
    isQuote closing = true /\ final <> backslash /\
    allChars (fun c => negb (isLineTerminator c)) body = true.
Proof.
  induction s as [|c rest IH]; intros group; simpl; [discriminate|].
  destruct (negb (Ascii.eqb c backslash) && closesKey rest) eqn:Hstop.
  - intros [= <-]. apply andb_prop in Hstop; destruct Hstop as [Hc Hclose].
    destruct (closesKey_inv _ Hclose) as (closing & after & -> & Hq).
    exists ""%string, c, closing, after; repeat split; auto.
    apply negb_true_iff, Ascii.eqb_neq in Hc; exact Hc.
  - destruct (isLineTerminator c) eqn:Hline; [discriminate|].
    destruct (lazyGroup rest) as [g|]; [|discriminate].
    intros [= <-].
    destruct (IH g eq_refl)
      as (body & final & closing & after & -> & -> & Hq & Hfinal & Hbody).
    exists (String c body), final, closing, after; repeat split; auto.
    unfold allChars in *; simpl; now rewrite Hline.
Qed.

Lemma regex_inv comment :
  forall group, COMMENT_CONTAINS_STATIC_KEY_REGEX comment = Some group ->
  exists before matched,
    comment = (before ++ matched)%string /\
    matchAtStart matched = Some group.
Proof.
  induction comment as [|c rest IH]; intros group H.
  - simpl in H; discriminate.
  - cbn [COMMENT_CONTAINS_STATIC_KEY_REGEX] in H.
    destruct (matchAtStart (String c rest)) as [g|] eqn:E.
    + injection H as <-. exists ""%string, (String c rest); auto.
    + destruct (IH _ H) as (before & matched & -> & Hm).
      exists (String c before), matched; auto.
Qed.

Lemma regex_shape (comment group : string) :
  COMMENT_CONTAINS_STATIC_KEY_REGEX comment = Some group ->
  exists before opening body final closing after,
    comment =
    (before ++
     String "t" (String "(" (String opening
       (body ++ String final (String closing (String ")" after))))))%string /\
    group = (body ++ String final "")%string /\
    isQuote opening = true /\ isQuote closing = true /\
    final <> backslash /\
    allChars (fun c => negb (isLineTerminator c)) body = true.
Proof.
  intros H.
  destruct (regex_inv _ _ H) as (before & matched & -> & Hm).
  destruct (matchAtStart_inv _ _ Hm) as (opening & rest & -> & Hopen & Hg).
  destruct (lazyGroup_inv _ _ Hg)
    as (body & final & closing & after & -> & -> & Hclose & Hfinal & Hbody).
  exists before, opening, body, final, closing, after; repeat split; auto.
Qed.

Lemma regex_key_not_empty comment group :
  COMMENT_CONTAINS_STATIC_KEY_REGEX comment = Some group ->
  truthy group = true.
Proof.
  intros H.
  destruct (regex_shape comment group H)
    as (_ & _ & body & final & _ & _ & _ & -> & _).
  now destruct body.
Qed.

(** X9.  The key a comment yields is written in the comment: it stands
    between [t(], a quote character, and a quote character followed by a
    closing parenthesis; it is not empty, it does not end with a backslash,
    and no line break lies before its last character.  The two quote
    characters need not be the same. *)
Theorem comment_key_is_written (comment group : string) :
  COMMENT_CONTAINS_STATIC_KEY_REGEX comment = Some group ->
  group <> ""%string /\
  exists before opening body final closing after,
    comment =
    (before ++
     String "t" (String "(" (String opening
       (body ++ String final (String closing (String ")" after))))))%string /\
    group = (body ++ String final "")%string /\
    isQuote opening = true /\ isQuote closing = true /\
    final <> backslash /\
    allChars (fun c => negb (isLineTerminator c)) body = true.
Proof.
  intros H; split; [|now apply regex_shape].
  apply regex_key_not_empty in H; intros ->; discriminate.
Qed.

Lemma comment_key_is_written_witness :
  COMMENT_CONTAINS_STATIC_KEY_REGEX "// t('some.static.key')" =
    Some "some.static.key" /\
  exists before opening body final closing after,
    "// t('some.static.key')" =
    (before ++
     String "t" (String "(" (String opening
       (body ++ String final (String closing (String ")" after))))))%string /\
    "some.static.key" = (body ++ String final "")%string /\
    isQuote opening = true /\ isQuote closing = true /\
    final <> backslash /\
    allChars (fun c => negb (isLineTerminator c)) body = true.
Proof.
  split; [reflexivity|].
  exact (proj2 (comment_key_is_written "// t('some.static.key')"
                  "some.static.key" eq_refl)).
Defined.

(** The lazy group stops at the first character that is followed by a
    quote and a closing parenthesis. *)
Lemma lazyGroup_finds body :
  forall final closing after,
  allChars (fun c => negb (isQuote c) && negb (isLineTerminator c)) body
  = true ->
  final <> backslash -> isQuote closing = true ->
  lazyGroup (body ++ String final (String closing (String ")" after)))
  = Some (body ++ String final "")%string.
Proof.
  induction body as [|c body IH]; intros final closing after Hbody Hfinal Hq;
    simpl.
  - apply Ascii.eqb_neq in Hfinal; rewrite Hfinal, Hq; reflexivity.
  - unfold allChars in Hbody; simpl in Hbody.
    apply andb_prop in Hbody; destruct Hbody as [Hc Hbody].
    apply andb_prop in Hc; destruct Hc as [Hcq Hcl].
    apply negb_true_iff in Hcq, Hcl.
    assert (Hstop : closesKey
              (body ++ String final (String closing (String ")" after)))
              = false).
    { destruct body as [|d body]; simpl.
      - destruct (isQuote final); simpl; auto.
        apply Ascii.eqb_neq; intros ->; discriminate.
      - unfold allChars in Hbody; simpl in Hbody.
        apply andb_prop in Hbody; destruct Hbody as [Hd _].
        apply andb_prop in Hd; destruct Hd as [Hd _].
        apply negb_true_iff in Hd.
        destruct body; simpl; now rewrite Hd. }
    rewrite Hstop, andb_false_r, Hcl.
    now rewrite (IH final closing after Hbody Hfinal Hq).
Qed.

Lemma regex_skips before :
  forall rest,
  allChars (fun c => negb (Ascii.eqb c "(")) before = true ->
  COMMENT_CONTAINS_STATIC_KEY_REGEX
    (before ++ String "t" (String "(" rest)) =
  COMMENT_CONTAINS_STATIC_KEY_REGEX (String "t" (String "(" rest)).
Proof.
  induction before as [|c before IH]; intros rest Hbefore; [reflexivity|].
  unfold allChars in Hbefore; simpl in Hbefore.
  apply andb_prop in Hbefore; destruct Hbefore as [Hc Hbefore].
  change ((String c before ++ String "t" (String "(" rest))%string)
    with (String c (before ++ String "t" (String "(" rest))%string).
  cbn [COMMENT_CONTAINS_STATIC_KEY_REGEX].
  destruct (matchAtStart
              (String c (before ++ String "t" (String "(" rest))%string))
    as [g|] eqn:E.
  - exfalso.
    destruct (matchAtStart_inv _ _ E) as (q & r & Hshape & _).
    injection Hshape as -> Hrest.
    destruct before as [|d before]; simpl in Hrest.
    + discriminate Hrest.
    + injection Hrest as -> _.
      unfold allChars in Hbefore; simpl in Hbefore; discriminate.
  - now apply IH.
Qed.

(** X10.  A comment that holds [t('<key>')], in either kind of quote, after
    a text without an opening parenthesis, yields that key, when the key
    holds no quote character and no line break before its last character
    and does not end with a backslash.  What follows the closing
    parenthesis does not matter. *)
Theorem comment_key_round_trip (before body after : string)
    (opening final closing : ascii) :
  allChars (fun c => negb (Ascii.eqb c "(")) before = true ->
  isQuote opening = true -> isQuote closing = true ->
  allChars (fun c => negb (isQuote c) && negb (isLineTerminator c)) body
  = true ->
  final <> backslash ->
  COMMENT_CONTAINS_STATIC_KEY_REGEX
    (before ++
     String "t" (String "(" (String opening
       (body ++ String final (String closing (String ")" after))))))%string
  = Some (body ++ String final "")%string.
Proof.
  intros Hbefore Hopen Hclose Hbody Hfinal.
  rewrite regex_skips by exact Hbefore.
  cbn [COMMENT_CONTAINS_STATIC_KEY_REGEX].
  unfold matchAtStart; rewrite Hopen.
  now rewrite (lazyGroup_finds body final closing after Hbody Hfinal Hclose).
Qed.

Lemma comment_key_round_trip_witness :
  allChars (fun c => negb (Ascii.eqb c "(")) "// keys: " = true /\
  allChars (fun c => negb (isQuote c) && negb (isLineTerminator c))
    "some.static.ke" = true /\
  COMMENT_CONTAINS_STATIC_KEY_REGEX "// keys: t('some.static.key'), t('b')"
  = Some "some.static.key".
Proof.
  split; [reflexivity|]; split; [reflexivity|].
  apply (comment_key_round_trip "// keys: " "some.static.ke" ", t('b')"
           "'" "y" "'"); try reflexivity.
  discriminate.
Defined.

(** ** Keys of comments *)

Lemma top_slice st :
  namespaces st <> [] ->
  getCurrentNamespaces 1 st = Some [last (namespaces st) (frame "" "")].
Proof.
  unfold getCurrentNamespaces.
  destruct (namespaces st) as [|f l] eqn:E using rev_ind; [congruence|].
  clear IHl; intros _.
  rewrite length_app; simpl.
  replace (length l + 1 - 1) with (length l) by lia.
  rewrite skipn_app, skipn_all, Nat.sub_diag, last_last; simpl.
  replace (0 <? length l + 1)%nat with true
    by (symmetry; apply Nat.ltb_lt; lia).
  reflexivity.
Qed.

Lemma commentKey_spec path st comment :
  commentKey path st comment =
  match COMMENT_CONTAINS_STATIC_KEY_REGEX comment with
  | Some commentText => pushKey (plainKey path (topNamespace st) commentText) st
  | None => st
  end.
Proof.
  unfold commentKey.
  destruct (COMMENT_CONTAINS_STATIC_KEY_REGEX comment) as [k|] eqn:E; auto.
  rewrite (regex_key_not_empty _ _ E).
  unfold topNamespace.
  destruct (namespaces st) as [|f l] eqn:Hns.
  - unfold getCurrentNamespaces; rewrite Hns; reflexivity.
  - rewrite top_slice by (rewrite Hns; discriminate).
    rewrite Hns; reflexivity.
Qed.

Lemma commentKeys_spec path node st :
  commentKeys path node st =
  {| namespaces := namespaces st;
     foundKeys :=
       foundKeys st ++
       map (plainKey path (topNamespace st))
           (commentedKeys (leadingComments node)) |}.
Proof.
  unfold commentKeys, commentedKeys.
  generalize (leadingComments node) as l; intros l; revert st.
  induction l as [|c l IH]; intros st; simpl.
  - rewrite app_nil_r; now destruct st.
  - rewrite IH, commentKey_spec.
    destruct (COMMENT_CONTAINS_STATIC_KEY_REGEX c); simpl.
    + unfold topNamespace; simpl; now rewrite <- app_assoc.
    + reflexivity.
Qed.

(** X11.  Every leading comment of a node that holds a static key adds one
    record, in the order of the comments.  The key is qualified by the
    namespace of the frame on top of the stack, whatever variable that
    frame is bound to, and stays bare when the stack is empty; the stack is
    left as it is. *)
Theorem comment_keys_take_the_top_namespace (path : string) (node : Node)
    (st : State) :
  commentKeys path node st =
  {| namespaces := namespaces st;
     foundKeys :=
       foundKeys st ++
       map (plainKey path (topNamespace st))
           (commentedKeys (leadingComments node)) |}.
Proof. apply commentKeys_spec. Qed.

(** ** Where the records come from *)

(** Runs used by the witnesses below. *)
Lemma literalKeySource_keys_run :
  extract (oneFile "page.tsx" literalKeySource) ["page.tsx"] =
  Ok [plainKey "page.tsx" "NS" "k"].
Proof. vm_compute; reflexivity. Qed.

Lemma dynamicSource_keys_run :
  extract (oneFile "page.tsx" dynamicSource) ["page.tsx"] =
  Ok [dynamicPlaceholder "page.tsx" "NS"].
Proof. vm_compute; reflexivity. Qed.

Lemma emits_refl P s : emits P s s.
Proof. exists []; split; [now rewrite app_nil_r | constructor]. Qed.

Lemma emits_trans P a b c : emits P a b -> emits P b c -> emits P a c.
Proof.
  intros (x & Hx & Px) (y & Hy & Py); exists (x ++ y); split.
  - now rewrite Hy, Hx, app_assoc.
  - apply Forall_app; auto.
Qed.

Lemma emits_same P s s' : foundKeys s' = foundKeys s -> emits P s s'.
Proof. intros H; exists []; split; [now rewrite app_nil_r | constructor]. Qed.

Lemma emits_pushKey (P : FoundKey -> Prop) k s : P k -> emits P s (pushKey k s).
Proof. intros H; exists [k]; split; [reflexivity | now constructor]. Qed.

Lemma fold_left_emits {A : Type} P (f : State -> A -> State) (l : list A) :
  (forall s a, emits P s (f s a)) ->
  forall s, emits P s (fold_left f l s).
Proof.
  intros Hf; induction l as [|a l IH]; intros s; simpl;
    eauto using emits_refl, emits_trans.
Qed.

Lemma fold_left_foundKeys {A : Type} (f : State -> A -> State) (l : list A) :
  (forall s a, foundKeys (f s a) = foundKeys s) ->
  forall s, foundKeys (fold_left f l s) = foundKeys s.
Proof.
  intros Hf; induction l as [|a l IH]; intros s; simpl; auto.
  now rewrite IH.
Qed.

Lemma acquireUseTranslations_foundKeys name initializer s :
  foundKeys (acquireUseTranslations name initializer s) = foundKeys s.
Proof.
  unfold acquireUseTranslations.
  repeat match goal with
    | |- foundKeys (match ?x with _ => _ end) = _ => destruct x
    | |- foundKeys (if ?x then _ else _) = _ => destruct x
    end; reflexivity.
Qed.

Lemma acquireGetTranslations_foundKeys name awaited s :
  foundKeys (acquireGetTranslations name awaited s) = foundKeys s.
Proof.
  unfold acquireGetTranslations.
  repeat match goal with
    | |- foundKeys (fold_left _ _ _) = _ =>
        apply fold_left_foundKeys; intros ? ?
    | |- foundKeys (match ?x with _ => _ end) = _ => destruct x
    | |- foundKeys (if ?x then _ else _) = _ => destruct x
    end; reflexivity.
Qed.

Lemma acquireFromArray_foundKeys name awaited s s' :
  acquireFromArray name awaited s = Ok s' -> foundKeys s' = foundKeys s.
Proof.
  unfold acquireFromArray.
  repeat match goal with
    | |- Ok _ = Ok _ -> _ => intros [= <-]
    | |- Throw _ = Ok _ -> _ => discriminate
    | |- foundKeys (fold_left _ _ _) = _ =>
        apply fold_left_foundKeys; intros ? ?
    | |- foundKeys (match ?x with _ => _ end) = _ => destruct x
    | |- (match ?x with _ => _ end) = _ -> _ => destruct x
    | |- (let _ := _ in _) = _ -> _ => cbv zeta
    end; reflexivity.
Qed.

(** The declaration block touches the stack only. *)
Lemma declareNamespaces_foundKeys n s s' :
  declareNamespaces n s = Ok s' -> foundKeys s' = foundKeys s.
Proof.
  unfold declareNamespaces.
  destruct n; try (intros [= <-]; reflexivity).
  destruct initializer as [init|]; [|intros [= <-]; reflexivity].
  cbv zeta.
  destruct init.
  all: try (intros H%Ok_inj; subst s';
            apply acquireUseTranslations_foundKeys).
  intros H; apply acquireFromArray_foundKeys in H.
  now rewrite H, acquireGetTranslations_foundKeys,
    acquireUseTranslations_foundKeys.
Qed.

Lemma useTranslator_foundKeys name arguments key s :
  foundKeys (snd (useTranslator name arguments key s)) = foundKeys s.
Proof.
  unfold useTranslator.
  repeat match goal with
    | |- foundKeys (snd (match ?x with _ => _ end)) = _ => destruct x
    end; reflexivity.
Qed.

Lemma translatorCall_foundKeys n key s :
  foundKeys (snd (translatorCall n key s)) = foundKeys s.
Proof.
  unfold translatorCall.
  destruct (getCurrentNamespaces 1 s); auto.
  destruct n; auto. destruct n; auto.
  apply useTranslator_foundKeys.
Qed.

Lemma translatorMethodCall_foundKeys n key s :
  foundKeys (snd (translatorMethodCall n key s)) = foundKeys s.
Proof.
  unfold translatorMethodCall.
  destruct (getCurrentNamespaces 1 s); auto.
  destruct n; auto. destruct n; auto. destruct n1; auto.
  apply useTranslator_foundKeys.
Qed.

Lemma emits_impl (P Q : FoundKey -> Prop) s s' :
  (forall k, P k -> Q k) -> emits P s s' -> emits Q s s'.
Proof.
  intros HPQ (more & H & Hmore); exists more; split; auto.
  eapply Forall_impl; eauto.
Qed.

(** The key the two translator blocks leave in the local variable comes
    from the node itself. *)
Lemma useTranslator_key v arguments s k :
  fst (useTranslator v arguments None s) = Some k ->
  exists c text rest,
    arguments = StringLiteral c text :: rest /\ k = (text, v).
Proof.
  unfold useTranslator.
  destruct (getCurrentNamespaceForIdentifier v s); [|discriminate].
  destruct arguments as [|a rest]; [discriminate|].
  destruct a; simpl; try discriminate.
  intros [= <-]; eauto.
Qed.

Lemma translator_key registry path n s k1 s1 k2 s2 k :
  translatorCall n None s = (k1, s1) ->
  translatorMethodCall n k1 s1 = (k2, s2) ->
  k2 = Some k ->
  exists comments callee c text rest,
    n = CallExpression comments callee (StringLiteral c text :: rest) /\
    translatorOf callee = Some (snd k) /\ fst k = text /\
    forall namespace,
      foundAt registry path n (plainKey path namespace (fst k)).
Proof.
  intros E1 E2 ->.
  assert (Hfound : forall comments callee c text rest v,
            n = CallExpression comments callee (StringLiteral c text :: rest) ->
            translatorOf callee = Some v -> k = (text, v) ->
            exists comments callee c text rest,
              n = CallExpression comments callee (StringLiteral c text :: rest)
              /\ translatorOf callee = Some (snd k) /\ fst k = text /\
              forall namespace,
                foundAt registry path n (plainKey path namespace (fst k))).
  { intros comments callee c text rest v Hn Hv ->; simpl.
    exists comments, callee, c, text, rest; repeat split; auto.
    intros namespace; eapply found_call; eauto. }
  unfold translatorCall in E1; unfold translatorMethodCall in E2.
  destruct n; try (destruct (getCurrentNamespaces 1 s);
                   injection E1 as <- <-;
                   destruct (getCurrentNamespaces 1 s);
                   discriminate E2).
  destruct n;
    try (assert (H : k1 = None /\ s1 = s)
           by (destruct (getCurrentNamespaces 1 s); injection E1; auto);
         destruct H as [-> ->];
         destruct (getCurrentNamespaces 1 s); discriminate E2).
  - (* the callee is an identifier *)
    assert (E2' : (k1, s1) = (Some k, s2)).
    { destruct (getCurrentNamespaces 1 s1); exact E2. }
    injection E2' as -> ->.
    destruct (getCurrentNamespaces 1 s); [|discriminate E1].
    pose proof (useTranslator_key text arguments s k) as Hk.
    rewrite E1 in Hk; destruct (Hk eq_refl) as (c & t & rest & -> & ->).
    eapply Hfound; reflexivity.
  - (* the callee is a property access *)
    assert (H : k1 = None /\ s1 = s)
      by (destruct (getCurrentNamespaces 1 s); injection E1; auto).
    destruct H as [-> ->].
    destruct (getCurrentNamespaces 1 s); [|discriminate E2].
    destruct n1; try discriminate E2.
    pose proof (useTranslator_key text arguments s k) as Hk.
    rewrite E2 in Hk; destruct (Hk eq_refl) as (c & t & rest & -> & ->).
    eapply Hfound; reflexivity.
Qed.

Section Origins.
Variable registry : list FunctionWithTParam.
Variable path : string.

Lemma callTrackedFunction_origin n s :
  emits (foundAt registry path n) s (callTrackedFunction registry path n s).
Proof.
  unfold callTrackedFunction.
  destruct n; try apply emits_refl.
  destruct n; try apply emits_refl.
  destruct (find _ registry) as [helper|] eqn:Hfind; try apply emits_refl.
  destruct arguments as [|argument rest]; try apply emits_refl.
  assert (Hpush : forall namespace st,
            emits (foundAt registry path
                     (CallExpression comments (Identifier comments0 text)
                        (argument :: rest)))
                  st (pushKeysUsed path namespace helper st)).
  { intros namespace st; rewrite pushKeysUsed_spec.
    eexists; split; [reflexivity|].
    apply Forall_forall; intros k Hk; apply in_map_iff in Hk.
    destruct Hk as (name & <- & Hname).
    eapply found_helper; eauto. }
  cbv zeta.
  repeat match goal with
    | |- emits _ ?s ?s => apply emits_refl
    | |- emits _ _ (pushKeysUsed _ _ _ _) => apply Hpush
    | |- emits _ _ (match ?x with _ => _ end) => destruct x
    | |- emits _ _ (if ?x then _ else _) => destruct x
    end.
Qed.

Lemma inlineCall_origin n s :
  emits (foundAt registry path n) s (inlineCall path n s).
Proof.
  unfold inlineCall.
  repeat match goal with
    | |- emits _ ?s ?s => apply emits_refl
    | |- emits _ _ (let _ := _ in _) => cbv zeta
    | |- emits _ _ (match ?x with _ => _ end) => is_var x; destruct x
    end.
  match goal with
  | |- emits _ _ (if ?fn =? USE_TRANSLATIONS then _ else _) =>
      destruct (fn =? USE_TRANSLATIONS) eqn:Hfn;
      [apply String.eqb_eq in Hfn; subst fn | apply emits_refl]
  end.
  match goal with
  | |- emits _ _ (match first ?callArguments with _ => _ end) =>
      destruct callArguments as [|a rest]; [apply emits_refl|]; cbn [first hd_error];
      destruct a; try apply emits_refl
  end.
  destruct (truthy _); [|apply emits_refl].
  apply emits_pushKey.
  match goal with
  | |- context [first ?inner] =>
      destruct inner as [|b inner']; cbn [first hd_error];
      [|destruct b]
  end;
    try (eapply found_inline_bare; [reflexivity|];
         intros c namespace; discriminate).
  eapply found_inline; reflexivity.
Qed.

Lemma commentKeys_origin n s :
  emits (foundAt registry path n) s (commentKeys path n s).
Proof.
  rewrite commentKeys_spec.
  eexists; split; [reflexivity|].
  apply Forall_forall; intros k Hk; apply in_map_iff in Hk.
  destruct Hk as (text & <- & Htext).
  unfold commentedKeys in Htext; apply in_flat_map in Htext.
  destruct Htext as (comment & Hcomment & Htext).
  destruct (COMMENT_CONTAINS_STATIC_KEY_REGEX comment) as [t|] eqn:E;
    [|contradiction].
  destruct Htext as [<-|[]].
  eapply found_comment; eauto.
Qed.

Lemma enter_origin n s s' :
  enter registry path n s = Ok s' -> emits (foundAt registry path n) s s'.
Proof.
  unfold enter; intros H.
  apply bind_Ok in H; destruct H as (s0 & Hdecl & H).
  apply declareNamespaces_foundKeys in Hdecl.
  destruct (translatorCall n None _) as [k1 s1] eqn:E1.
  destruct (translatorMethodCall n k1 s1) as [k2 s2] eqn:E2.
  apply Ok_inj in H; subst s'.
  eapply emits_trans; [apply emits_same; exact Hdecl|].
  eapply emits_trans; [apply callTrackedFunction_origin|].
  eapply emits_trans; [apply inlineCall_origin|].
  eapply emits_trans.
  { apply emits_same.
    pose proof (translatorCall_foundKeys n None
                  (inlineCall path n (callTrackedFunction registry path n s0)))
      as E; rewrite E1 in E; exact E. }
  eapply emits_trans.
  { apply emits_same.
    pose proof (translatorMethodCall_foundKeys n k1 s1) as E;
      rewrite E2 in E; exact E. }
  eapply emits_trans; [|apply commentKeys_origin].
  unfold emitKey; destruct k2 as [[keyName identifier]|] eqn:Hk2;
    [|apply emits_refl].
  apply emits_pushKey.
  destruct (translator_key registry path n _ _ _ _ _ _ E1 E2 eq_refl)
    as (_ & _ & _ & _ & _ & _ & _ & _ & Hfound).
  apply Hfound.
Qed.

Lemma leave_origin n k s :
  emits (foundAt registry path n) s (leave path n k s).
Proof.
  unfold leave.
  destruct (isFunctionLike n) eqn:Hlike; [|apply emits_refl].
  destruct (k <? length (namespaces s))%nat; [|apply emits_refl].
  cbv zeta; simpl.
  assert (H : forall st, emits (foundAt registry path n) st
            (removeNamespaces (length (namespaces s) - k) st)).
  { intros st; apply emits_same; unfold removeNamespaces.
    destruct (0 <? _)%nat; reflexivity. }
  eapply emits_trans; [|apply H].
  destruct (getCurrentNamespaces _ s); [|apply emits_refl].
  rewrite placeholders_spec.
  eexists; split; [reflexivity|].
  apply Forall_forall; intros r Hr; apply in_map_iff in Hr.
  destruct Hr as (f & <- & _).
  apply (found_placeholder registry path n (Namespace.name f) Hlike).
Qed.

(** Every record a visit adds is found at a node of the tree. *)
Lemma visit_origin n :
  forall s s', visit registry path n s = Ok s' ->
  emits (fun k => exists d, occurs d n /\ foundAt registry path d k) s s'.
Proof.
  induction n as [n IH] using Node_children_ind; intros s s' H.
  rewrite visit_eq in H.
  apply bind_Ok in H; destruct H as (s1 & Henter & H).
  apply bind_Ok in H; destruct H as (s2 & Hkids & H).
  apply Ok_inj in H; subst s'.
  assert (Hhere : forall k, foundAt registry path n k ->
                  exists d, occurs d n /\ foundAt registry path d k)
    by (intros k Hk; exists n; split; [constructor | exact Hk]).
  eapply emits_trans;
    [eapply emits_impl; [exact Hhere | eapply enter_origin; eauto]|].
  eapply emits_trans;
    [|eapply emits_impl; [exact Hhere | apply leave_origin]].
  assert (walk : forall l, incl l (childrenOf n) ->
            forall a b, eachNodeM (visit registry path) l a = Ok b ->
            emits (fun k => exists d, occurs d n /\
                                      foundAt registry path d k) a b).
  { induction l as [|c l IHl]; intros Hincl a b Hwalk; simpl in Hwalk.
    - apply Ok_inj in Hwalk; subst b; apply emits_refl.
    - apply bind_Ok in Hwalk; destruct Hwalk as (sa & Hc & Hl).
      rewrite Forall_forall in IH.
      eapply emits_trans.
      + eapply emits_impl;
          [|apply (IH c (Hincl c (or_introl eq_refl)) _ _ Hc)].
        intros k (d & Hd & Hk); exists d; split; auto.
        eapply occurs_below; [apply (Hincl c); now left | exact Hd].
      + apply IHl; auto. intros x Hx; apply Hincl; now right. }
  eapply walk; [apply incl_refl | exact Hkids].
Qed.

Lemma getKeys_origin fs sourceFile keys :
  fs path = Some sourceFile ->
  getKeys registry path fs = Ok keys ->
  Forall (fun k => exists d, occursInFile d sourceFile /\
                             foundAt registry path d k) keys.
Proof.
  intros Hfs; unfold getKeys, readSource; rewrite Hfs; cbn [bind]; intros H.
  apply bind_Ok in H; destruct H as (st & Hwalk & H).
  apply Ok_inj in H; subst keys.
  assert (E : emits (fun k => exists d, occursInFile d sourceFile /\
                                        foundAt registry path d k)
                    initialState st).
  { assert (walk : forall l, incl l sourceFile ->
              forall a b, eachNodeM (visit registry path) l a = Ok b ->
              emits (fun k => exists d, occursInFile d sourceFile /\
                                        foundAt registry path d k) a b).
    { induction l as [|c l IHl]; intros Hincl a b Hl; simpl in Hl.
      - apply Ok_inj in Hl; subst b; apply emits_refl.
      - apply bind_Ok in Hl; destruct Hl as (sa & Hc & Hl).
        eapply emits_trans.
        + eapply emits_impl; [|apply (visit_origin c _ _ Hc)].
          intros k (d & Hd & Hk); exists d; split; auto.
          exists c; split; [apply Hincl; now left | exact Hd].
        + apply IHl; auto. intros x Hx; apply Hincl; now right. }
    eapply walk; [apply incl_refl | exact Hwalk]. }
  destruct E as (more & -> & Hmore); exact Hmore.
Qed.
End Origins.

Lemma flatMapM_origin {A B : Type} (f : A -> Result (list B)) (l : list A) :
  forall out y, flatMapM f l = Ok out -> In y out ->
  exists x ys, In x l /\ f x = Ok ys /\ In y ys.
Proof.
  induction l as [|a l IH]; intros out y H Hy; simpl in *.
  - apply Ok_inj in H; subst out; contradiction.
  - apply bind_Ok in H; destruct H as (ys & Hys & H).
    apply bind_Ok in H; destruct H as (zs & Hzs & H).
    apply Ok_inj in H; subst out.
    apply in_app_or in Hy; destruct Hy as [Hy|Hy].
    + exists a, ys; auto.
    + destruct (IH _ _ Hzs Hy) as (x & ws & Hx & Hws & Hin).
      exists x, ws; auto.
Qed.

(** Where a record of the result comes from. *)
Lemma extract_origin fs filesPaths result k :
  extract fs filesPaths = Ok result -> In k result ->
  exists registry path keys,
    forEachM (collectFunctionsWithTParam fs) filesPaths [] = Ok registry /\
    In path filesPaths /\ getKeys registry path fs = Ok keys /\ In k keys.
Proof.
  intros H Hk.
  apply extract_Ok in H; destruct H as (registry & found & Hreg & Hfound & ->).
  apply (Permutation_in _ (sortBy_Permutation compareKeys found)) in Hk.
  destruct (flatMapM_origin _ _ _ _ Hfound Hk) as (p & keys & Hp & Hkeys & Hin).
  exists registry, p, keys; auto.
Qed.

(** X12.  Every record of the result is found at a node of the file it
    names: at a call through a translator, a call of a registered helper or
    an inline call, with the text of the key written there as a string
    literal (for a helper, recorded in its registry entry), at a node led
    by a comment that holds the key, or, for a placeholder, at a
    function-like node.  No other record is ever returned. *)
Theorem every_record_has_an_origin (fs : FileSystem)
    (filesPaths : list string) (result : list FoundKey) (k : FoundKey) :
  extract fs filesPaths = Ok result -> In k result ->
  exists registry path sourceFile node,
    forEachM (collectFunctionsWithTParam fs) filesPaths [] = Ok registry /\
    In path filesPaths /\ fs path = Some sourceFile /\
    occursInFile node sourceFile /\
    foundAt registry path node k.
Proof.
  intros H Hk.
  destruct (extract_origin _ _ _ _ H Hk)
    as (registry & p & keys & Hreg & Hp & Hkeys & Hin).
  assert (Hfs : exists sourceFile, fs p = Some sourceFile).
  { unfold getKeys, readSource in Hkeys.
    destruct (fs p) as [src|]; [eauto | discriminate]. }
  destruct Hfs as (sourceFile & Hfs).
  pose proof (getKeys_origin registry p fs sourceFile keys Hfs Hkeys) as Hall.
  rewrite Forall_forall in Hall.
  destruct (Hall k Hin) as (d & Hd & Hfound).
  exists registry, p, sourceFile, d; auto.
Qed.

Lemma every_record_has_an_origin_witness :
  extract (oneFile "page.tsx" literalKeySource) ["page.tsx"] =
    Ok [plainKey "page.tsx" "NS" "k"] /\
  exists registry path sourceFile node,
    forEachM (collectFunctionsWithTParam (oneFile "page.tsx" literalKeySource))
      ["page.tsx"] [] = Ok registry /\
    In path ["page.tsx"] /\
    oneFile "page.tsx" literalKeySource path = Some sourceFile /\
    occursInFile node sourceFile /\
    foundAt registry path node (plainKey "page.tsx" "NS" "k").
Proof.
  split; [exact literalKeySource_keys_run|].
  exact (every_record_has_an_origin (oneFile "page.tsx" literalKeySource)
           ["page.tsx"] _ (plainKey "page.tsx" "NS" "k")
           literalKeySource_keys_run (or_introl eq_refl)).
Defined.


Lemma foundAt_recordOf registry path node k :
  foundAt registry path node k -> recordOf path k.
Proof. destruct 1; constructor. Qed.

Lemma getKeys_records registry path fs keys :
  getKeys registry path fs = Ok keys -> Forall (recordOf path) keys.
Proof.
  intros Hkeys.
  assert (Hfs : exists sourceFile, fs path = Some sourceFile).
  { unfold getKeys, readSource in Hkeys.
    destruct (fs path) as [src|]; [eauto | discriminate]. }
  destruct Hfs as (sourceFile & Hfs).
  eapply Forall_impl;
    [|exact (getKeys_origin registry path fs sourceFile keys Hfs Hkeys)].
  intros k (d & _ & Hfound); eapply foundAt_recordOf; eauto.
Qed.

Lemma extract_records fs filesPaths result k :
  extract fs filesPaths = Ok result -> In k result ->
  exists path, In path filesPaths /\ recordOf path k.
Proof.
  intros H Hk.
  destruct (extract_origin _ _ _ _ H Hk)
    as (registry & p & keys & _ & Hp & Hkeys & Hin).
  exists p; split; auto.
  apply getKeys_records in Hkeys; rewrite Forall_forall in Hkeys; auto.
Qed.

(** X13.  Every record of the result names in [meta.file] one of the paths
    given to [extract], and is one of the records Pass 2 found in that
    file. *)
Theorem record_names_its_file (fs : FileSystem) (filesPaths : list string)
    (result : list FoundKey) (k : FoundKey) :
  extract fs filesPaths = Ok result -> In k result ->
  In (Meta.file (meta k)) filesPaths /\
  exists registry keys,
    forEachM (collectFunctionsWithTParam fs) filesPaths [] = Ok registry /\
    getKeys registry (Meta.file (meta k)) fs = Ok keys /\ In k keys.
Proof.
  intros H Hk.
  destruct (extract_origin _ _ _ _ H Hk)
    as (registry & p & keys & Hreg & Hp & Hkeys & Hin).
  pose proof (getKeys_records registry p fs keys Hkeys) as Hrec.
  rewrite Forall_forall in Hrec.
  assert (E : Meta.file (meta k) = p)
    by (destruct (Hrec k Hin); reflexivity).
  rewrite E; split; [exact Hp|]; eauto.
Qed.

Lemma record_names_its_file_witness :
  extract (oneFile "page.tsx" literalKeySource) ["page.tsx"] =
    Ok [plainKey "page.tsx" "NS" "k"] /\
  In (Meta.file (meta (plainKey "page.tsx" "NS" "k"))) ["page.tsx"].
Proof.
  split; [exact literalKeySource_keys_run|].
  exact (proj1 (record_names_its_file (oneFile "page.tsx" literalKeySource)
                  ["page.tsx"] _ (plainKey "page.tsx" "NS" "k")
                  literalKeySource_keys_run (or_introl eq_refl))).
Defined.

(** X14.  The key of a record that is not a placeholder is the text of the
    key qualified by the namespace named in [meta]: namespace, dot, text
    for a namespace that is not empty, the text alone for the empty
    namespace. *)
Theorem static_record_is_qualified (fs : FileSystem)
    (filesPaths : list string) (result : list FoundKey) (k : FoundKey)
    (namespace : string) :
  extract fs filesPaths = Ok result -> In k result ->
  Meta.dynamic (meta k) = false ->
  Meta.namespace (meta k) = Some namespace ->
  exists keyName, key k = qualify namespace keyName.
Proof.
  intros H Hk Hstatic Hns.
  destruct (extract_records _ _ _ _ H Hk) as (p & _ & Hrec).
  destruct Hrec; simpl in *; try discriminate.
  injection Hns as <-; eauto.
Qed.

Lemma static_record_is_qualified_witness :
  extract (oneFile "page.tsx" literalKeySource) ["page.tsx"] =
    Ok [plainKey "page.tsx" "NS" "k"] /\
  exists keyName, key (plainKey "page.tsx" "NS" "k") = qualify "NS" keyName.
Proof.
  split; [exact literalKeySource_keys_run|].
  exact (static_record_is_qualified (oneFile "page.tsx" literalKeySource)
           ["page.tsx"] _ (plainKey "page.tsx" "NS" "k") "NS"
           literalKeySource_keys_run (or_introl eq_refl) eq_refl eq_refl).
Defined.

(** X15.  A record is marked dynamic only when it is the placeholder of a
    namespace: its key is the name of the namespace, and [meta.namespace]
    holds that same name. *)
Theorem dynamic_record_is_placeholder (fs : FileSystem)
    (filesPaths : list string) (result : list FoundKey) (k : FoundKey) :
  extract fs filesPaths = Ok result -> In k result ->
  Meta.dynamic (meta k) = true ->
  Meta.namespace (meta k) = Some (key k).
Proof.
  intros H Hk Hdyn.
  destruct (extract_records _ _ _ _ H Hk) as (p & _ & Hrec).
  destruct Hrec; simpl in *; try discriminate; reflexivity.
Qed.

Lemma dynamic_record_is_placeholder_witness :
  extract (oneFile "page.tsx" dynamicSource) ["page.tsx"] =
    Ok [dynamicPlaceholder "page.tsx" "NS"] /\
  Meta.namespace (meta (dynamicPlaceholder "page.tsx" "NS")) =
  Some (key (dynamicPlaceholder "page.tsx" "NS")).
Proof.
  split; [exact dynamicSource_keys_run|].
  exact (dynamic_record_is_placeholder (oneFile "page.tsx" dynamicSource)
           ["page.tsx"] _ (dynamicPlaceholder "page.tsx" "NS")
           dynamicSource_keys_run (or_introl eq_refl) eq_refl).
Defined.

(** X16.  A comment that holds a static key and leads any node of a file
    puts a record for that key into the result, qualified by the namespace
    of some frame or bare. *)
Theorem comment_key_is_found (fs : FileSystem) (filesPaths : list string)
    (result : list FoundKey) (path : string) (sourceFile : SourceFile)
    (node : Node) (comment commentText : string) :
  extract fs filesPaths = Ok result ->
  In path filesPaths -> fs path = Some sourceFile ->
  occursInFile node sourceFile ->
  In comment (leadingComments node) ->
  COMMENT_CONTAINS_STATIC_KEY_REGEX comment = Some commentText ->
  exists namespace, In (plainKey path namespace commentText) result.
Proof.
  intros Hextract Hpath Hfs Hocc Hcomment Hregex.
  pose proof Hextract as Hparts.
  apply extract_Ok in Hparts; destruct Hparts as (registry & _ & Hreg & _).
  destruct (extract_keys fs filesPaths result registry path Hextract Hreg
              Hpath) as (keys & Hkeys & Hincl).
  destruct (getKeys_reaches registry path fs node sourceFile keys Hkeys Hfs
              Hocc) as (sd & sd' & Hvisit & Happ).
  destruct (visit_keeps_entered _ _ _ _ _ Hvisit) as (s1 & Henter & Hkept).
  revert Henter; unfold enter; intros Henter.
  apply bind_Ok in Henter; destruct Henter as (s0 & _ & Henter).
  destruct (translatorCall node None _) as [k1 sa].
  destruct (translatorMethodCall node k1 sa) as [k2 sb].
  apply Ok_inj in Henter.
  exists (topNamespace (emitKey path k2 sb)).
  apply Hincl; eapply appended_In; [exact Happ|].
  eapply appended_In; [exact Hkept|].
  rewrite <- Henter, commentKeys_spec; simpl.
  apply in_or_app; right; apply in_map.
  unfold commentedKeys; apply in_flat_map.
  exists comment; split; [exact Hcomment|].
  rewrite Hregex; now left.
Qed.

Lemma comment_key_is_found_witness :
  extract (oneFile "page.tsx" commentedSource) ["page.tsx"] =
    Ok [dynamicPlaceholder "page.tsx" "NS";
        plainKey "page.tsx" "NS" "a.b.c";
        plainKey "page.tsx" "NS" "a.b.c";
        plainKey "page.tsx" "NS" "a.b.c"] /\
  COMMENT_CONTAINS_STATIC_KEY_REGEX "// t('a.b.c')" = Some "a.b.c" /\
  exists namespace,
    In (plainKey "page.tsx" namespace "a.b.c")
       [dynamicPlaceholder "page.tsx" "NS";
        plainKey "page.tsx" "NS" "a.b.c";
        plainKey "page.tsx" "NS" "a.b.c";
        plainKey "page.tsx" "NS" "a.b.c"].
Proof.
  split; [exact commentedSource_keys|]; split; [reflexivity|].
  apply (comment_key_is_found (oneFile "page.tsx" commentedSource)
           ["page.tsx"] _ "page.tsx" commentedSource
           (ExpressionStatement ["// t('a.b.c')"]
              (CallExpression ["// t('a.b.c')"]
                 (Identifier ["// t('a.b.c')"] "t") [ident "key"]))
           "// t('a.b.c')" "a.b.c" commentedSource_keys).
  - now left.
  - reflexivity.
  - eexists; split; [left; reflexivity|].
    eapply occurs_below; [right; left; reflexivity|].
    apply occurs_child; right; now left.
  - now left.
  - reflexivity.
Defined.

Lemma flatMapM_concat {A B : Type} (f : A -> Result (list B)) (l : list A) :
  forall out, flatMapM f l = Ok out ->
  exists parts,
    Forall2 (fun x ys => f x = Ok ys) l parts /\ out = concat parts.
Proof.
  induction l as [|a l IH]; intros out H; simpl in H.
  - apply Ok_inj in H; subst out; exists []; split; [constructor | reflexivity].
  - apply bind_Ok in H; destruct H as (ys & Hys & H).
    apply bind_Ok in H; destruct H as (zs & Hzs & H).
    apply Ok_inj in H; subst out.
    destruct (IH _ Hzs) as (parts & Hparts & ->).
    exists (ys :: parts); split; [now constructor | reflexivity].
Qed.

(** X17.  The result holds the records of all files, each as often as it
    was found: it is a rearrangement of the lists Pass 2 returns for the
    paths, taken in the order of the paths.  Nothing is dropped and
    nothing is merged, and a path given twice is read twice. *)
Theorem extract_keeps_every_record (fs : FileSystem)
    (filesPaths : list string) (result : list FoundKey) :
  extract fs filesPaths = Ok result ->
  exists registry perFile,
    forEachM (collectFunctionsWithTParam fs) filesPaths [] = Ok registry /\
    Forall2 (fun path keys => getKeys registry path fs = Ok keys)
            filesPaths perFile /\
    Permutation result (concat perFile).
Proof.
  intros H.
  apply extract_Ok in H; destruct H as (registry & found & Hreg & Hfound & ->).
  destruct (flatMapM_concat _ _ _ Hfound) as (parts & Hparts & ->).
  exists registry, parts; repeat split; auto.
  apply sortBy_Permutation.
Qed.

Lemma extract_keeps_every_record_witness :
  extract (oneFile "page.tsx" literalKeySource) ["page.tsx"; "page.tsx"] =
    Ok [plainKey "page.tsx" "NS" "k"; plainKey "page.tsx" "NS" "k"] /\
  exists registry perFile,
    forEachM (collectFunctionsWithTParam (oneFile "page.tsx" literalKeySource))
      ["page.tsx"; "page.tsx"] [] = Ok registry /\
    Forall2 (fun path keys =>
               getKeys registry path (oneFile "page.tsx" literalKeySource)
               = Ok keys)
            ["page.tsx"; "page.tsx"] perFile /\
    Permutation
      [plainKey "page.tsx" "NS" "k"; plainKey "page.tsx" "NS" "k"]
      (concat perFile).
Proof.
  assert (Hrun : extract (oneFile "page.tsx" literalKeySource)
                   ["page.tsx"; "page.tsx"] =
                 Ok [plainKey "page.tsx" "NS" "k";
                     plainKey "page.tsx" "NS" "k"])
    by (vm_compute; reflexivity).
  split; [exact Hrun|].
  exact (extract_keeps_every_record (oneFile "page.tsx" literalKeySource)
           ["page.tsx"; "page.tsx"] _ Hrun).
Defined.

(** ** Trees that acquire no translator *)

Lemma inert_occurs n d :
  inert n = true -> occurs d n -> acquires d = false.
Proof.
  intros H Hd.
  apply (proj1 (everywhere_occurs _ n) H) in Hd.
  now apply negb_true_iff.
Qed.

Lemma inert_below n d : inert n = true -> occurs d n -> inert d = true.
Proof.
  intros H Hd; apply everywhere_occurs; intros x Hx.
  apply (proj1 (everywhere_occurs _ n) H); eapply occurs_trans; eauto.
Qed.

Lemma findIndex_none {A : Type} (p : A -> bool) (l : list A) :
  (forall x, In x l -> p x = false) -> findIndex p l = None.
Proof.
  induction l as [|x l IH]; intros H; simpl; auto.
  rewrite (H x (or_introl eq_refl)), IH; auto.
  intros y Hy; apply H; now right.
Qed.

Lemma isGetTranslationsCall_acquires n :
  acquires n = false -> isGetTranslationsCall n = false.
Proof.
  destruct n; auto. destruct n; auto. simpl.
  intros H; apply orb_false_elim in H; tauto.
Qed.

Lemma acquireUseTranslations_inert name init s :
  acquires init = false -> acquireUseTranslations name init s = s.
Proof.
  destruct init; auto. destruct init; auto. simpl.
  intros H; apply orb_false_elim in H; destruct H as [-> _]; reflexivity.
Qed.

Lemma acquireGetTranslations_inert name awaited s :
  acquires awaited = false -> acquireGetTranslations name awaited s = s.
Proof.
  destruct awaited; auto. destruct awaited; auto. simpl.
  intros H; apply orb_false_elim in H; destruct H as [_ ->]; reflexivity.
Qed.

Lemma acquireFromArray_inert name awaited s :
  (forall d, occurs d awaited -> acquires d = false) ->
  acquireFromArray name awaited s = Ok s.
Proof.
  intros H; unfold acquireFromArray.
  destruct awaited; auto.
  destruct arguments as [|a rest]; auto.
  destruct a; auto.
  rewrite findIndex_none; auto.
  intros e He; apply isGetTranslationsCall_acquires, H.
  eapply occurs_below; [right; left; reflexivity|].
  now apply occurs_child.
Qed.

Lemma declareNamespaces_inert n s :
  inert n = true -> declareNamespaces n s = Ok s.
Proof.
  intros H; unfold declareNamespaces.
  destruct n; auto.
  destruct initializer as [init|]; auto.
  assert (Hinit : occurs init (VariableDeclaration comments n type (Some init))).
  { apply occurs_child; simpl; right.
    apply in_or_app; right; now left. }
  cbv zeta.
  rewrite acquireUseTranslations_inert by (eapply inert_occurs; eauto).
  destruct init; auto.
  assert (Hawaited : occurs init
            (VariableDeclaration comments n type
               (Some (AwaitExpression comments0 init)))).
  { eapply occurs_trans; [|exact Hinit].
    apply occurs_child; now left. }
  rewrite acquireGetTranslations_inert by (eapply inert_occurs; eauto).
  apply acquireFromArray_inert.
  intros d Hd; eapply inert_occurs; [exact H|].
  eapply occurs_trans; eauto.
Qed.






Lemma settled_stable s s' :
  settled s s' -> Forall2 stable (namespaces s) (namespaces s').
Proof.
  intros [[(kept & added & Hns & Hst) _] Hlen].
  pose proof (Forall2_length Hst) as Hk.
  rewrite Hns, length_app in Hlen.
  assert (added = []) by (apply length_zero_iff_nil; lia); subst added.
  now rewrite Hns, app_nil_r.
Qed.






(** ** Resolution on a stack that was only marked *)

Lemma Forall2_stable_rev a b :
  Forall2 stable a b -> Forall2 stable (rev a) (rev b).
Proof.
  induction 1; simpl; [constructor|].
  apply Forall2_app; auto.
Qed.



Lemma callTrackedFunction_unbound registry path n s :
  inert n = true -> namespaces s = [] ->
  callTrackedFunction registry path n s = s.
Proof.
  intros Hn Hs; unfold callTrackedFunction.
  destruct n; auto. destruct n; auto.
  destruct (find _ registry); auto.
  destruct arguments as [|argument rest]; auto.
  assert (Harg : acquires argument = false).
  { eapply inert_occurs; [exact Hn|].
    apply occurs_child; right; now left. }
  cbv zeta.
  destruct argument; auto.
  - unfold getCurrentNamespaceForIdentifier; now rewrite Hs.
  - destruct argument; auto. simpl in Harg.
    apply orb_false_elim in Harg; destruct Harg as [-> _]; reflexivity.
Qed.

Lemma inlineCall_inert path n s : inert n = true -> inlineCall path n s = s.
Proof.
  intros Hn; unfold inlineCall.
  repeat match goal with
    | |- (let _ := _ in _) = _ => cbv zeta
    | |- (match ?x with _ => _ end) = _ => is_var x; destruct x; auto
    end.
  match type of Hn with
  | inert (ExpressionStatement _
             (CallExpression _ (PropertyAccessExpression _ ?inner _) _))
    = true =>
      assert (H : acquires inner = false)
  end.
  { eapply inert_occurs; [exact Hn|].
    eapply occurs_below; [left; reflexivity|].
    eapply occurs_below; [left; reflexivity|].
    apply occurs_child; now left. }
  simpl in H; apply orb_false_elim in H; destruct H as [-> _]; reflexivity.
Qed.

(** On an empty stack a node without such a call is entered by its
    comments alone. *)
Lemma enter_inert_empty registry path n s :
  inert n = true -> namespaces s = [] ->
  enter registry path n s = Ok (commentKeys path n s).
Proof.
  intros Hn Hs; unfold enter.
  rewrite (declareNamespaces_inert n s Hn); cbn [bind].
  rewrite callTrackedFunction_unbound, inlineCall_inert by assumption.
  unfold translatorCall, translatorMethodCall, getCurrentNamespaces.
  rewrite Hs; simpl; rewrite Hs; reflexivity.
Qed.

Lemma commentedKeys_app a b :
  commentedKeys (a ++ b) = commentedKeys a ++ commentedKeys b.
Proof. unfold commentedKeys; apply flat_map_app. Qed.

(** On an empty stack the visit of a tree without such a call leaves the
    stack empty and finds the keys of the comments, in document order. *)
Lemma visit_inert_empty registry path n :
  inert n = true ->
  forall s s', namespaces s = [] -> visit registry path n s = Ok s' ->
  namespaces s' = [] /\
  foundKeys s' =
  foundKeys s ++
  map (plainKey path "")
      (commentedKeys (flat_map leadingComments (preorder n))).
Proof.
  induction n as [n IH] using Node_children_ind; intros Hn s s' Hs H.
  rewrite visit_eq in H.
  rewrite (enter_inert_empty registry path n s Hn Hs) in H; cbn [bind] in H.
  apply bind_Ok in H; destruct H as (s2 & Hkids & H).
  apply Ok_inj in H; subst s'.
  assert (walk : forall l, incl l (childrenOf n) ->
            forall a b, namespaces a = [] ->
              eachNodeM (visit registry path) l a = Ok b ->
              namespaces b = [] /\
              foundKeys b =
              foundKeys a ++
              map (plainKey path "")
                  (commentedKeys
                     (flat_map leadingComments (flat_map preorder l)))).
  { induction l as [|c l IHl]; intros Hincl a b Ha Hrun; simpl in Hrun.
    - apply Ok_inj in Hrun; subst b; simpl; now rewrite app_nil_r.
    - apply bind_Ok in Hrun; destruct Hrun as (m & Hc & Hl).
      assert (Hin : In c (childrenOf n)) by (apply Hincl; now left).
      rewrite Forall_forall in IH.
      destruct (IH c Hin (inert_below _ _ Hn (occurs_child _ _ Hin))
                  a m Ha Hc) as (Hm & Hkm).
      destruct (IHl (fun x Hx => Hincl x (or_intror Hx)) m b Hm Hl)
        as (Hb & Hkb).
      split; [exact Hb|].
      rewrite Hkb, Hkm; simpl.
      now rewrite flat_map_app, commentedKeys_app, map_app, app_assoc. }
  destruct (walk _ (incl_refl _) _ _
              (eq_trans (commentKeys_namespaces path n s) Hs) Hkids)
    as (H2 & Hk2).
  unfold leave; rewrite H2, Hs; simpl; rewrite andb_false_r.
  split; [exact H2|].
  rewrite Hk2, commentKeys_spec, preorder_eq; simpl.
  unfold topNamespace; rewrite Hs; simpl.
  now rewrite commentedKeys_app, map_app, app_assoc.
Qed.

(** X18.  A file in which no call names [useTranslations] or
    [getTranslations] as its callee yields nothing but keys of comments:
    every record Pass 2 returns for it is the key held by a comment that
    leads a node of the file, bare and under the empty namespace, whatever
    the registry holds. *)
Theorem inert_file_yields_comment_keys (registry : list FunctionWithTParam)
    (path : string) (fs : FileSystem) (sourceFile : SourceFile)
    (keys : list FoundKey) (k : FoundKey) :
  fs path = Some sourceFile ->
  forallb inert sourceFile = true ->
  getKeys registry path fs = Ok keys ->
  In k keys ->
  exists node comment commentText,
    occursInFile node sourceFile /\
    In comment (leadingComments node) /\
    COMMENT_CONTAINS_STATIC_KEY_REGEX comment = Some commentText /\
    k = plainKey path "" commentText.
Proof.
  intros Hfs Hinert Hkeys Hk.
  unfold getKeys, readSource in Hkeys; rewrite Hfs in Hkeys.
  cbn [bind] in Hkeys.
  apply bind_Ok in Hkeys; destruct Hkeys as (st & Hwalk & Hst).
  apply Ok_inj in Hst; subst keys.
  assert (Hclosed : forall l, incl l sourceFile ->
            forall a b, namespaces a = [] ->
              eachNodeM (visit registry path) l a = Ok b ->
              namespaces b = [] /\
              forall x, In x (foundKeys b) ->
                In x (foundKeys a) \/
                exists top text,
                  In top l /\
                  In text (commentedKeys
                             (flat_map leadingComments (preorder top))) /\
                  x = plainKey path "" text).
  { induction l as [|c l IHl]; intros Hincl a b Ha Hrun; simpl in Hrun.
    - apply Ok_inj in Hrun; subst b; auto.
    - apply bind_Ok in Hrun; destruct Hrun as (m & Hc & Hl).
      assert (Hin : In c sourceFile) by (apply Hincl; now left).
      rewrite forallb_forall in Hinert.
      destruct (visit_inert_empty registry path c (Hinert c Hin) a m Ha Hc)
        as (Hm & Hkm).
      destruct (IHl (fun x Hx => Hincl x (or_intror Hx)) m b Hm Hl)
        as (Hb & Hkb).
      split; [exact Hb|].
      intros x Hx; destruct (Hkb x Hx) as [Hxm|(top & text & Ht & Htext & ->)].
      + rewrite Hkm in Hxm; apply in_app_or in Hxm.
        destruct Hxm as [Hxa|Hxc]; [now left|].
        apply in_map_iff in Hxc; destruct Hxc as (text & <- & Htext).
        right; exists c, text; repeat split; auto; now left.
      + right; exists top, text; repeat split; auto; now right. }
  destruct (Hclosed _ (incl_refl _) initialState st eq_refl Hwalk)
    as (_ & Hall).
  destruct (Hall k Hk) as [[]|(top & text & Htop & Htext & ->)].
  unfold commentedKeys in Htext; apply in_flat_map in Htext.
  destruct Htext as (comment & Hcomment & Htext).
  apply in_flat_map in Hcomment; destruct Hcomment as (node & Hnode & Hlead).
  exists node, comment, text; repeat split; auto.
  - exists top; split; [exact Htop | now apply preorder_occurs].
  - destruct (COMMENT_CONTAINS_STATIC_KEY_REGEX comment) as [found|];
      [|contradiction].
    destruct Htext as [->|[]]; reflexivity.
Qed.

Lemma inert_file_yields_comment_keys_witness :
  forallb inert commentOnlySource = true /\
  getKeys [firstSchema] "links.ts" (oneFile "links.ts" commentOnlySource) =
    Ok [plainKey "links.ts" "" "nav.home"; plainKey "links.ts" "" "nav.home";
        plainKey "links.ts" "" "nav.home"; plainKey "links.ts" "" "nav.home"]
  /\
  exists node comment commentText,
    occursInFile node commentOnlySource /\
    In comment (leadingComments node) /\
    COMMENT_CONTAINS_STATIC_KEY_REGEX comment = Some commentText /\
    plainKey "links.ts" "" "nav.home" = plainKey "links.ts" "" commentText.
Proof.
  assert (H : getKeys [firstSchema] "links.ts"
                (oneFile "links.ts" commentOnlySource) =
              Ok [plainKey "links.ts" "" "nav.home";
                  plainKey "links.ts" "" "nav.home";
                  plainKey "links.ts" "" "nav.home";
                  plainKey "links.ts" "" "nav.home"])
    by (vm_compute; reflexivity).
  split; [reflexivity|]; split; [exact H|].
  apply (inert_file_yields_comment_keys [firstSchema] "links.ts"
           (oneFile "links.ts" commentOnlySource) commentOnlySource _
           (plainKey "links.ts" "" "nav.home") eq_refl eq_refl H).
  now left.
Defined.

Lemma find_existsb {A : Type} (p : A -> bool) (l : list A) :
  existsb p l = false -> find p l = None.
Proof.
  induction l as [|x l IH]; simpl; auto.
  intros H; apply orb_false_elim in H; destruct H as [-> Hl]; auto.
Qed.

Lemma callTrackedFunction_elsewhere registry path n s :
  callsHelper registry n = false -> callTrackedFunction registry path n s = s.
Proof.
  unfold callsHelper, callTrackedFunction.
  destruct n; auto. destruct n; auto.
  destruct arguments as [|argument rest];
    [destruct (find _ registry); reflexivity|].
  intros H; now rewrite (find_existsb _ _ H).
Qed.

Lemma callTrackedFunction_nil path n s : callTrackedFunction [] path n s = s.
Proof. unfold callTrackedFunction; destruct n; auto; destruct n; auto. Qed.

Lemma eachNodeM_ext {S : Type} (f g : Node -> S -> Result S) (l : list Node) :
  Forall (fun c => forall s, f c s = g c s) l ->
  forall s, eachNodeM f l s = eachNodeM g l s.
Proof.
  induction 1 as [|c l Hc _ IH]; intros s; simpl; auto.
  rewrite Hc; destruct (g c s); simpl; auto.
Qed.

Lemma visit_elsewhere registry path n :
  everywhere (fun d => negb (callsHelper registry d)) n = true ->
  forall s, visit registry path n s = visit [] path n s.
Proof.
  induction n as [n IH] using Node_children_ind; intros Hn s.
  rewrite !visit_eq.
  assert (Henter : enter registry path n s = enter [] path n s).
  { unfold enter.
    destruct (declareNamespaces n s) as [s0|]; cbn [bind]; auto.
    rewrite callTrackedFunction_nil, callTrackedFunction_elsewhere; auto.
    apply everywhere_here in Hn; now apply negb_true_iff. }
  rewrite Henter.
  destruct (enter [] path n s) as [s1|]; cbn [bind]; auto.
  rewrite (eachNodeM_ext (visit registry path) (visit [] path)); auto.
  rewrite Forall_forall in *; intros c Hc.
  apply IH; auto. eapply everywhere_child; eauto.
Qed.

(** X19.  The keys of a file depend on the registry, and so on the other
    files, only through calls of registered helpers: for a file in which
    no call with an argument names a record of the registry, Pass 2
    returns what it returns with an empty registry. *)
Theorem registry_matters_at_calls_only (registry : list FunctionWithTParam)
    (path : string) (fs : FileSystem) (sourceFile : SourceFile) :
  fs path = Some sourceFile ->
  forallb (everywhere (fun d => negb (callsHelper registry d))) sourceFile
  = true ->
  getKeys registry path fs = getKeys [] path fs.
Proof.
  intros Hfs Hcalls; unfold getKeys, readSource; rewrite Hfs; cbn [bind].
  rewrite (eachNodeM_ext (visit registry path) (visit [] path)); auto.
  apply Forall_forall; intros c Hc.
  apply visit_elsewhere. rewrite forallb_forall in Hcalls; auto.
Qed.

Lemma registry_matters_at_calls_only_witness :
  forallb (everywhere (fun d => negb (callsHelper [firstSchema] d)))
    literalKeySource = true /\
  getKeys [firstSchema] "page.tsx" (oneFile "page.tsx" literalKeySource) =
  getKeys [] "page.tsx" (oneFile "page.tsx" literalKeySource).
Proof.
  split; [reflexivity|].
  exact (registry_matters_at_calls_only [firstSchema] "page.tsx"
           (oneFile "page.tsx" literalKeySource) literalKeySource
           eq_refl eq_refl).
Defined.

(** ** Scopes *)

(** X20.  Over the visit of any node the frames that were on the stack stay
    where they are, with their name and variable, and stay dynamic once
    they are; frames are only added on top.  A function-like node leaves
    none of the frames pushed below it: the stack is as deep after its
    visit as before.  Any other node, a block included, keeps them:
    whatever is on the stack once the node is entered, or after any number
    of its children, is still there, frame by frame, when its visit
    ends. *)
Theorem visit_scope_discipline (registry : list FunctionWithTParam)
    (path : string) (node : Node) (s s' : State) :
  visit registry path node s = Ok s' ->
  (exists kept added,
     namespaces s' = kept ++ added /\
     Forall2 stable (namespaces s) kept /\
     (isFunctionLike node = true -> added = [])) /\
  (isFunctionLike node = false ->
   forall (visited rest : list Node) (sm : State),
     childrenOf node = visited ++ rest ->
     (s1 <- enter registry path node s ;;
      eachNodeM (visit registry path) visited s1) = Ok sm ->
     exists kept added,
       namespaces s' = kept ++ added /\
       Forall2 stable (namespaces sm) kept).
Proof.
  intros H; split.
  - apply visit_advances in H.
    destruct H as [[(kept & added & Hns & Hst) _] Hlen].
    exists kept, added; repeat split; auto.
    intros Hlike; specialize (Hlen Hlike).
    apply Forall2_length in Hst.
    rewrite Hns, length_app in Hlen.
    apply length_zero_iff_nil; lia.
  - intros Hlike visited rest sm Hchildren Hsm.
    rewrite visit_eq in H.
    apply bind_Ok in H; destruct H as (s1 & Henter & H).
    apply bind_Ok in H; destruct H as (s2 & Hkids & H).
    apply Ok_inj in H; rewrite leave_not_functionLike in H by assumption.
    subst s'.
    rewrite Henter in Hsm; cbn [bind] in Hsm.
    rewrite Hchildren, eachNodeM_app, Hsm in Hkids; cbn [bind] in Hkids.
    apply eachNodeM_visit_advances in Hkids.
    exact (proj1 Hkids).
Qed.

Lemma visit_scope_discipline_witness :
  visit [] "page.tsx"
    (block [const (ident "t") (call (ident USE_TRANSLATIONS) [literal "Inner"]);
            statement (call (ident "t") [ident "key"])])
    {| namespaces := [frame "Outer" "t"]; foundKeys := [] |} =
  Ok {| namespaces := [frame "Outer" "t"; asDynamic (frame "Inner" "t")];
        foundKeys := [] |} /\
  exists kept added,
    [frame "Outer" "t"; asDynamic (frame "Inner" "t")] = kept ++ added /\
    Forall2 stable [frame "Outer" "t"; frame "Inner" "t"] kept.
Proof.
  assert (H : visit [] "page.tsx"
                (block [const (ident "t")
                          (call (ident USE_TRANSLATIONS) [literal "Inner"]);
                        statement (call (ident "t") [ident "key"])])
                {| namespaces := [frame "Outer" "t"]; foundKeys := [] |} =
              Ok {| namespaces :=
                      [frame "Outer" "t"; asDynamic (frame "Inner" "t")];
                    foundKeys := [] |})
    by (vm_compute; reflexivity).
  split; [exact H|].
  apply (proj2 (visit_scope_discipline [] "page.tsx" _ _ _ H) eq_refl
           [const (ident "t") (call (ident USE_TRANSLATIONS) [literal "Inner"])]
           [statement (call (ident "t") [ident "key"])]
           {| namespaces := [frame "Outer" "t"; frame "Inner" "t"];
              foundKeys := [] |}
           eq_refl).
  vm_compute; reflexivity.
Defined.

(** X21.  When a function-like node is left, the frames pushed since it
    was entered are taken off the stack, and one placeholder is emitted for
    every one of them that is dynamic, in the order they were pushed, after
    all keys found below the node; nothing else is emitted at that point. *)
Theorem function_exit (registry : list FunctionWithTParam) (path : string)
    (node : Node) (s s' : State) :
  isFunctionLike node = true ->
  visit registry path node s = Ok s' ->
  exists s2 added,
    (s1 <- enter registry path node s ;;
     eachNodeM (visit registry path) (childrenOf node) s1) = Ok s2 /\
    namespaces s2 = namespaces s' ++ added /\
    length (namespaces s') = length (namespaces s) /\
    foundKeys s' =
    foundKeys s2 ++ map (placeholder path) (filter Namespace.dynamic added).
Proof.
  intros Hlike H; rewrite visit_eq in H.
  destruct (enter registry path node s) as [s1|] eqn:Henter; [|discriminate].
  cbn [bind] in H.
  destruct (eachNodeM _ _ s1) as [s2|] eqn:Hkids; [|discriminate].
  cbn [bind] in H; apply Ok_inj in H.
  assert (Hadv : advances s s2).
  { eapply advances_trans; [eapply enter_advances; eauto|].
    eapply eachNodeM_visit_advances; eauto. }
  destruct Hadv as [(kept & added & Hns & Hst) _].
  pose proof (Forall2_length Hst) as Hlen.
  rewrite (leave_spec path node _ _ _ _ Hns (eq_sym Hlen)), Hlike in H.
  subst s'; simpl.
  exists s2, added; repeat split; auto.
Qed.

Lemma function_exit_witness :
  isFunctionLike (functionDeclaration "Inner" (dynamicSnippet "Inner"))
  = true /\
  visit [] "page.tsx" (functionDeclaration "Inner" (dynamicSnippet "Inner"))
    {| namespaces := [frame "Outer" "t"]; foundKeys := [] |} =
  Ok {| namespaces := [frame "Outer" "t"];
        foundKeys := [dynamicPlaceholder "page.tsx" "Inner"] |} /\
  exists s2 added,
    namespaces s2 = [frame "Outer" "t"] ++ added /\
    [dynamicPlaceholder "page.tsx" "Inner"] =
    foundKeys s2 ++ map (placeholder "page.tsx")
                        (filter Namespace.dynamic added).
Proof.
  assert (H : visit [] "page.tsx"
                (functionDeclaration "Inner" (dynamicSnippet "Inner"))
                {| namespaces := [frame "Outer" "t"]; foundKeys := [] |} =
              Ok {| namespaces := [frame "Outer" "t"];
                    foundKeys := [dynamicPlaceholder "page.tsx" "Inner"] |})
    by (vm_compute; reflexivity).
  split; [reflexivity|]; split; [exact H|].
  destruct (function_exit [] "page.tsx"
              (functionDeclaration "Inner" (dynamicSnippet "Inner")) _ _
              eq_refl H)
    as (s2 & added & _ & Hns & _ & Hkeys).
  exists s2, added; split; [exact Hns | exact Hkeys].
Defined.

Lemma find_stable_name v a b :
  Forall2 stable a b ->
  option_map Namespace.name
    (find (fun namespace => Namespace.variable namespace =? v) a) =
  option_map Namespace.name
    (find (fun namespace => Namespace.variable namespace =? v) b).
Proof.
  induction 1 as [|x y a b (Hname & Hvar & _) _ IH]; simpl; auto.
  rewrite <- Hvar.
  destruct (Namespace.variable x =? v); simpl; congruence.
Qed.

(** X22.  What an identifier resolves to is the same after a function-like
    node as before it: a translator bound inside a function is not visible
    after the function, and the binding it shadowed is visible again. *)
Theorem function_scope_is_closed (registry : list FunctionWithTParam)
    (path : string) (node : Node) (s s' : State) (v : string) :
  isFunctionLike node = true ->
  visit registry path node s = Ok s' ->
  option_map Namespace.name (getCurrentNamespaceForIdentifier v s') =
  option_map Namespace.name (getCurrentNamespaceForIdentifier v s).
Proof.
  intros Hlike H; apply visit_advances in H; destruct H as [Hadv Hlen].
  symmetry; unfold getCurrentNamespaceForIdentifier.
  apply find_stable_name, Forall2_stable_rev, settled_stable.
  split; auto.
Qed.

Lemma function_scope_is_closed_witness :
  visit [] "page.tsx" (functionDeclaration "Inner" (dynamicSnippet "Inner"))
    {| namespaces := [frame "Outer" "t"]; foundKeys := [] |} =
  Ok {| namespaces := [frame "Outer" "t"];
        foundKeys := [dynamicPlaceholder "page.tsx" "Inner"] |} /\
  option_map Namespace.name
    (getCurrentNamespaceForIdentifier "t"
       {| namespaces := [frame "Outer" "t"];
          foundKeys := [dynamicPlaceholder "page.tsx" "Inner"] |}) =
  Some "Outer".
Proof.
  assert (H : visit [] "page.tsx"
                (functionDeclaration "Inner" (dynamicSnippet "Inner"))
                {| namespaces := [frame "Outer" "t"]; foundKeys := [] |} =
              Ok {| namespaces := [frame "Outer" "t"];
                    foundKeys := [dynamicPlaceholder "page.tsx" "Inner"] |})
    by (vm_compute; reflexivity).
  split; [exact H|].
  exact (function_scope_is_closed [] "page.tsx"
           (functionDeclaration "Inner" (dynamicSnippet "Inner")) _ _ "t"
           eq_refl H).
Defined.

(** X23.  A frame that was just pushed is the one its variable resolves
    to, and the one on top; the resolution of every other variable is what
    it was; and taking one frame off gives the state before the push. *)
Theorem lookup_after_push (name variable other : string) (st : State) :
  getCurrentNamespaceForIdentifier variable
    (pushNamespace (frame name variable) st) = Some (frame name variable) /\
  (other <> variable ->
   getCurrentNamespaceForIdentifier other
     (pushNamespace (frame name variable) st) =
   getCurrentNamespaceForIdentifier other st) /\
  getCurrentNamespaces 1 (pushNamespace (frame name variable) st) =
    Some [frame name variable] /\
  removeNamespaces 1 (pushNamespace (frame name variable) st) = st.
Proof.
  unfold getCurrentNamespaceForIdentifier, getCurrentNamespaces,
    removeNamespaces, pushNamespace; simpl.
  rewrite rev_app_distr, length_app; simpl.
  replace (length (namespaces st) + 1 - 1) with (length (namespaces st))
    by lia.
  replace (0 <? length (namespaces st) + 1)%nat with true
    by (symmetry; apply Nat.ltb_lt; lia).
  rewrite String.eqb_refl, skipn_app, skipn_all, firstn_app, firstn_all,
    Nat.sub_diag; simpl.
  rewrite app_nil_r; repeat split.
  - intros Hother.
    replace (variable =? other) with false; [reflexivity|].
    symmetry; apply String.eqb_neq; congruence.
  - now destruct st.
Qed.

(** X24.  After [var = await getTranslations({ ... })] the variable
    resolves to the frame of the last property of the object literal: to
    the namespace literal when the last property is
    [namespace: '<literal>'], and to the empty namespace when any other
    property comes last, even if the object names a namespace before
    it. *)
Theorem object_argument_last_property_wins
    (registry : list FunctionWithTParam) (path : string)
    (comments c0 c1 c2 c3 : list string) (name : Node) (type : option Node)
    (properties rest : list Node) (lastProperty : Node) (s : State) :
  exists s',
    enter registry path
      (VariableDeclaration comments name type
         (Some (AwaitExpression c0
                  (CallExpression c1 (Identifier c2 GET_TRANSLATIONS)
                     (ObjectLiteralExpression c3
                        (properties ++ [lastProperty]) :: rest))))) s
    = Ok s' /\
    getCurrentNamespaceForIdentifier (boundVariable name) s' =
    Some (frame (frameName lastProperty) (boundVariable name)).
Proof.
  rewrite enter_VariableDeclaration; simpl.
  eexists; split; [reflexivity|].
  match goal with |- getCurrentNamespaceForIdentifier _ ?st = _ =>
    assert (Hns : namespaces st =
                  (namespaces s ++
                   map (fun property =>
                          frame (frameName property) (boundVariable name))
                       properties) ++
                  [frame (frameName lastProperty) (boundVariable name)]);
    [|destruct st as [ns ks]]
  end.
  { rewrite commentKeys_namespaces, object_frames, map_app, app_assoc.
    reflexivity. }
  simpl in Hns; subst ns; now apply resolve_top.
Qed.

Lemma object_argument_last_property_wins_witness :
  frameName (PropertyAssignment [] (ident "locale") (literal "en")) = "" /\
  exists s',
    enter [] "page.tsx" getTranslationsNamespaceFirst initialState = Ok s' /\
    getCurrentNamespaceForIdentifier "t" s' = Some (frame "" "t").
Proof.
  split; [reflexivity|].
  exact (object_argument_last_property_wins [] "page.tsx" [] [] [] [] []
           (ident "t") None
           [PropertyAssignment [] (ident "namespace") (literal "ns")] []
           (PropertyAssignment [] (ident "locale") (literal "en"))
           initialState).
Defined.

(** ** Keys of a bound translator *)



























(** ** Inline calls in the result *)

(** X28.  An expression statement
    [useTranslations('<namespace>').<method>('<key>')] with a key that is
    not empty, anywhere in a file, puts the key qualified by the namespace
    into the result, whatever surrounds it and whatever the stack holds. *)
Theorem inline_method_call_is_found (fs : FileSystem)
    (filesPaths : list string) (result : list FoundKey) (path : string)
    (sourceFile : SourceFile) (c0 c1 c2 c3 c4 c5 c6 : list string)
    (member : Node) (inner rest : list Node) (namespace keyText : string) :
  extract fs filesPaths = Ok result ->
  In path filesPaths -> fs path = Some sourceFile ->
  occursInFile
    (ExpressionStatement c0
       (CallExpression c1
          (PropertyAccessExpression c2
             (CallExpression c3 (Identifier c4 USE_TRANSLATIONS)
                (StringLiteral c5 namespace :: inner))
             member)
          (StringLiteral c6 keyText :: rest)))
    sourceFile ->
  keyText <> "" ->
  In (plainKey path namespace keyText) result.
Proof.
  intros Hextract Hpath Hfs Hocc Hkey.
  pose proof Hextract as Hparts.
  apply extract_Ok in Hparts; destruct Hparts as (registry & _ & Hreg & _).
  destruct (extract_keys fs filesPaths result registry path Hextract Hreg
              Hpath) as (keys & Hkeys & Hincl).
  destruct (getKeys_reaches registry path fs _ sourceFile keys Hkeys Hfs Hocc)
    as (sd & sd' & Hvisit & Happ).
  apply Hincl; eapply appended_In; [exact Happ|].
  destruct (visit_keeps_entered _ _ _ _ _ Hvisit) as (s1 & Henter & Hkept).
  eapply appended_In; [exact Hkept|].
  revert Henter; unfold enter; simpl declareNamespaces; cbn [bind].
  simpl callTrackedFunction.
  set (node := ExpressionStatement _ _).
  assert (Hinline : inlineCall path node sd =
                    pushKey (plainKey path namespace keyText) sd).
  { unfold node; simpl. apply String.eqb_neq in Hkey.
    unfold truthy; now rewrite Hkey. }
  rewrite Hinline.
  destruct (translatorCall node None _) as [k1 sa] eqn:E1.
  destruct (translatorMethodCall node k1 sa) as [k2 sb] eqn:E2.
  intros H; apply Ok_inj in H; subst s1.
  pose proof (translatorCall_advances node None
                (pushKey (plainKey path namespace keyText) sd)) as [_ A2];
    rewrite E1 in A2; simpl in A2.
  pose proof (translatorMethodCall_advances node k1 sa) as [_ A3];
    rewrite E2 in A3; simpl in A3.
  pose proof (emitKey_advances path k2 sb) as [_ A4].
  pose proof (commentKeys_advances path node (emitKey path k2 sb)) as [_ A5].
  eapply appended_In;
    [eapply appended_trans; [exact A2|];
     eapply appended_trans; [exact A3|];
     eapply appended_trans; [exact A4 | exact A5]|].
  simpl; apply in_or_app; right; now left.
Qed.

Lemma inline_method_call_is_found_witness :
  extract (oneFile "page.tsx" inlineMethodSource) ["page.tsx"] =
    Ok [plainKey "page.tsx" "ns1" "one"] /\
  "one" <> "" /\
  In (plainKey "page.tsx" "ns1" "one") [plainKey "page.tsx" "ns1" "one"].
Proof.
  assert (Hrun : extract (oneFile "page.tsx" inlineMethodSource) ["page.tsx"]
                 = Ok [plainKey "page.tsx" "ns1" "one"])
    by (vm_compute; reflexivity).
  split; [exact Hrun|]; split; [discriminate|].
  apply (inline_method_call_is_found (oneFile "page.tsx" inlineMethodSource)
           ["page.tsx"] _ "page.tsx" inlineMethodSource
           [] [] [] [] [] [] [] (ident "rich") [] [] "ns1" "one" Hrun).
  - now left.
  - reflexivity.
  - eexists; split; [left; reflexivity|].
    eapply occurs_below; [right; left; reflexivity|].
    apply occurs_child; now left.
  - discriminate.
Defined.

Lemma inlineCall_bare path c0 c1 c2 c3 c4 c6 member inner rest keyText s :
  (forall c text, first inner <> Some (StringLiteral c text)) ->
  keyText <> "" ->
  inlineCall path
    (ExpressionStatement c0
       (CallExpression c1
          (PropertyAccessExpression c2
             (CallExpression c3 (Identifier c4 USE_TRANSLATIONS) inner)
             member)
          (StringLiteral c6 keyText :: rest))) s =
  pushKey (bareKey path keyText) s.
Proof.
  intros Hinner Hkey; simpl.
  apply String.eqb_neq in Hkey; unfold truthy; rewrite Hkey; simpl.
  destruct (first inner) as [a|] eqn:E; [|reflexivity].
  destruct a; try reflexivity.
  exfalso; eapply Hinner; reflexivity.
Qed.

(** X29.  An expression statement [useTranslations(...).<method>('<key>')]
    whose [useTranslations] call has no argument, or a first argument that
    is not a string literal, puts the bare key into the result, in a record
    whose [meta] names no namespace. *)
Theorem inline_method_call_without_namespace (fs : FileSystem)
    (filesPaths : list string) (result : list FoundKey) (path : string)
    (sourceFile : SourceFile) (c0 c1 c2 c3 c4 c6 : list string)
    (member : Node) (inner rest : list Node) (keyText : string) :
  extract fs filesPaths = Ok result ->
  In path filesPaths -> fs path = Some sourceFile ->
  occursInFile
    (ExpressionStatement c0
       (CallExpression c1
          (PropertyAccessExpression c2
             (CallExpression c3 (Identifier c4 USE_TRANSLATIONS) inner)
             member)
          (StringLiteral c6 keyText :: rest)))
    sourceFile ->
  (forall c text, first inner <> Some (StringLiteral c text)) ->
  keyText <> "" ->
  In (bareKey path keyText) result.
Proof.
  intros Hextract Hpath Hfs Hocc Hinner Hkey.
  pose proof Hextract as Hparts.
  apply extract_Ok in Hparts; destruct Hparts as (registry & _ & Hreg & _).
  destruct (extract_keys fs filesPaths result registry path Hextract Hreg
              Hpath) as (keys & Hkeys & Hincl).
  destruct (getKeys_reaches registry path fs _ sourceFile keys Hkeys Hfs Hocc)
    as (sd & sd' & Hvisit & Happ).
  apply Hincl; eapply appended_In; [exact Happ|].
  destruct (visit_keeps_entered _ _ _ _ _ Hvisit) as (s1 & Henter & Hkept).
  eapply appended_In; [exact Hkept|].
  revert Henter; unfold enter; simpl declareNamespaces; cbn [bind].
  simpl callTrackedFunction.
  rewrite (inlineCall_bare path c0 c1 c2 c3 c4 c6 member inner rest keyText
             sd Hinner Hkey).
  set (node := ExpressionStatement _ _).
  destruct (translatorCall node None _) as [k1 sa] eqn:E1.
  destruct (translatorMethodCall node k1 sa) as [k2 sb] eqn:E2.
  intros H; apply Ok_inj in H; subst s1.
  pose proof (translatorCall_advances node None
                (pushKey (bareKey path keyText) sd)) as [_ A2];
    rewrite E1 in A2; simpl in A2.
  pose proof (translatorMethodCall_advances node k1 sa) as [_ A3];
    rewrite E2 in A3; simpl in A3.
  pose proof (emitKey_advances path k2 sb) as [_ A4].
  pose proof (commentKeys_advances path node (emitKey path k2 sb)) as [_ A5].
  eapply appended_In;
    [eapply appended_trans; [exact A2|];
     eapply appended_trans; [exact A3|];
     eapply appended_trans; [exact A4 | exact A5]|].
  simpl; apply in_or_app; right; now left.
Qed.

Lemma inline_method_call_without_namespace_witness :
  extract (oneFile "page.tsx" inlineBareSource) ["page.tsx"] =
    Ok [bareKey "page.tsx" "one"] /\
  In (bareKey "page.tsx" "one") [bareKey "page.tsx" "one"].
Proof.
  assert (Hrun : extract (oneFile "page.tsx" inlineBareSource) ["page.tsx"]
                 = Ok [bareKey "page.tsx" "one"])
    by (vm_compute; reflexivity).
  split; [exact Hrun|].
  apply (inline_method_call_without_namespace
           (oneFile "page.tsx" inlineBareSource) ["page.tsx"] _ "page.tsx"
           inlineBareSource [] [] [] [] [] [] (ident "rich") [] [] "one"
           Hrun).
  - now left.
  - reflexivity.
  - eexists; split; [left; reflexivity|].
    eapply occurs_below; [right; left; reflexivity|].
    apply occurs_child; now left.
  - intros c text; discriminate.
  - discriminate.
Defined.
